(** * nl2bash: the grammar-constrained command enumerator (pcfg/src/parser.py)

    A shallow embedding of [Cell], [Parser.make_phrase_table],
    [Parser.local_score], [Parser.final_score], [Parser.dfs] and
    [Parser.parse], and the properties of them that the specification
    states.

    Conventions of the embedding.
    - Python floats are an abstract carrier [float] with the operations the
      program uses ([FloatOps]); no algebraic law is assumed of them unless a
      theorem lists it as a hypothesis.
    - The grammar walker ([Enumerator], module [grammar], which [Parser]
      inherits from) is an interface: its state and its five operations are
      parameters, total functions of the state.
    - Python ints are [Z]; dicts are [gmap], sets are [gset]; the strings
      are Python 2 byte strings.
    - Mutable objects are passed explicitly: [make_phrase_table] returns the
      parser it leaves behind, [dfs] works on a [World] (the parser with its
      enumerator stack, the list [final_cells], and a history of the calls
      made, kept for the statements).
    - [dfs] recurses as long as the enumerator offers tokens and the maximum
      length is not met, so its model takes fuel; [dfs_enough_fuel] and
      [dfs_fuel_mono] show that the fuel only matters when it runs out and
      that it does not beyond the maximum length. *)

From Stdlib Require Import ZArith String Ascii List Bool Lia.
From Stdlib Require Import Sorting.Sorted.
From stdpp Require Import base option list gmap sets strings.

Local Open Scope Z_scope.
Local Open Scope string_scope.

(** ** Interfaces *)

(** The arithmetic of Python's [float] (and of the ints mixed with it in
    [parser.py]): [f_zero] is the literal [0], [f_of_int] the int-to-float
    coercion of [float * int], [f_lt] the comparison [<] that [sorted] uses,
    [float_of_string] the builtin [float(s)] ([None] when it raises
    ValueError) and [neg_1e_5] the literal [-1e-5]. *)
Class FloatOps := {
  float : Type;
  f_zero : float;
  f_add : float -> float -> float;
  f_mul : float -> float -> float;
  f_of_int : Z -> float;
  f_lt : float -> float -> bool;
  float_of_string : string -> option float;
  neg_1e_5 : float
}.

(** The capability [Parser] inherits from [grammar.Enumerator]: a mutable
    derivation stack ([estate]) with [push]/[pop], the queries [allows],
    [legal_tokens] and [allow_eof], and the class constants [HOLE] and
    [EOF].  [enum_init] is [Enumerator.__init__(self, grammar)]. *)
Class Enumerator := {
  grammar : Type;
  estate : Type;
  enum_init : grammar -> estate;
  allows : estate -> string -> bool;
  push : estate -> string -> estate;
  pop : estate -> estate;
  legal_tokens : estate -> list string;
  allow_eof : estate -> bool;
  HOLE : string;
  EOF : string
}.

Definition START_SYMBOL : string := "__START_SYMBOL__".
Definition PIPE : string := "|".

(** ** Cell *)

Section CellModel.
Context `{FO : FloatOps} `{EN : Enumerator}.

(** The fields [Cell.__init__] sets.  [cell_length] is the source's
    [length] (renamed: [length] is the list function here).  A backpointer
    is the value the preceding cell had when this one was built. *)
#[warnings="-register-all"]
Inductive Cell : Type := mkCell {
  term : string;
  parent : option Cell;
  backpointer : option Cell;
  cell_length : Z;
  score : float;
  covered_words : gset string;
  features : gmap string float
}.

(** [sum(ff.values())]: a left fold from [0] over the dict's values. *)
Definition sum_values (ff : gmap string float) : float :=
  foldl (fun acc kv => f_add acc (snd kv)) f_zero (map_to_list ff).

(** ["{}->{}".format(w, term)]. *)
Definition feature_name (w t : string) : string := w ++ "->" ++ t.

(** [Cell.__init__(self, t, p, bp, ff)]; [if bp] tests for [None]. *)
Definition Cell_init (t : string) (p bp : option Cell)
    (ff : gmap string float) : Cell :=
  {| term := t;
     parent := p;
     backpointer := bp;
     cell_length := match bp with Some b => cell_length b + 1 | None => 0 end;
     score := match bp with
              | Some b => f_add (score b) (sum_values ff)
              | None => f_zero
              end;
     covered_words := dom ff;
     features :=
       foldl (fun acc kv => <[feature_name (fst kv) t := snd kv]> acc)
             ∅ (map_to_list ff) |}.

(** The cells reached from [c] through [backpointer], [c] first. *)
Fixpoint chain (c : Cell) : list Cell :=
  c :: match backpointer c with
       | Some b => chain b
       | None => []
       end.

(** [Cell.cnl_words]: the loop [while bp: covered_words |= bp.covered_words]. *)
Fixpoint cnl_words_loop (b : Cell) (acc : gset string) : gset string :=
  let acc' := acc ∪ covered_words b in
  match backpointer b with
  | Some b' => cnl_words_loop b' acc'
  | None => acc'
  end.

Definition cnl_words (c : Cell) : gset string :=
  match backpointer c with
  | Some b => cnl_words_loop b (covered_words c)
  | None => covered_words c
  end.

(** [Cell.featureSet]: [dict.update] lets the later writer win. *)
Fixpoint featureSet_loop (b : Cell) (acc : gmap string float)
    : gmap string float :=
  let acc' := features b ∪ acc in
  match backpointer b with
  | Some b' => featureSet_loop b' acc'
  | None => acc'
  end.

Definition featureSet (c : Cell) : gmap string float :=
  match backpointer c with
  | Some b => featureSet_loop b (features c)
  | None => features c
  end.

(** [Cell.genCommand].  [render] is the test against [Enumerator.HOLE];
    the loop inserts at the front of [command]; [command[1:]] is [tail]. *)
Definition render (t : string) : string :=
  if String.eqb t HOLE then "*" else t.

Fixpoint genCommand_loop (b : Cell) (command : list string) : list string :=
  let command' := render (term b) :: command in
  match backpointer b with
  | Some b' => genCommand_loop b' command'
  | None => command'
  end.

Definition genCommand_tokens (c : Cell) : list string :=
  tail (match backpointer c with
        | Some b => genCommand_loop b [render (term c)]
        | None => [render (term c)]
        end).

Definition genCommand (c : Cell) : string :=
  String.concat " " (genCommand_tokens c).


(** ** Python string helpers used by the loader *)

(** The characters [str.strip()] and [str.split()] treat as whitespace:
    space, tab, newline, carriage return, vertical tab, form feed. *)
Definition is_space (c : ascii) : bool :=
  let n := nat_of_ascii c in
  Nat.eqb n 32 || (Nat.leb 9 n && Nat.leb n 13).

Fixpoint lstrip (s : string) : string :=
  match s with
  | EmptyString => EmptyString
  | String c s' => if is_space c then lstrip s' else s
  end.

Fixpoint rstrip (s : string) : string :=
  match s with
  | EmptyString => EmptyString
  | String c s' =>
      let r := rstrip s' in
      if is_space c && String.eqb r "" then "" else String c r
  end.

(** [s.strip()] *)
Definition strip (s : string) : string := rstrip (lstrip s).

Definition cons_head (c : ascii) (ps : list string) : list string :=
  match ps with
  | [] => [String c ""]
  | p :: ps' => String c p :: ps'
  end.

Definition is_bar (c : ascii) : bool := Ascii.eqb c "|"%char.

(** [s.split("|||")]: leftmost, non-overlapping occurrences of the
    separator; the result always has at least one part. *)
Fixpoint split_bars (s : string) : list string :=
  match s with
  | EmptyString => [""]
  | String c s1 =>
      match s1 with
      | String c2 (String c3 rest) =>
          if is_bar c && is_bar c2 && is_bar c3
          then "" :: split_bars rest
          else cons_head c (split_bars s1)
      | _ => cons_head c (split_bars s1)
      end
  end.

(** [s.split()]: the maximal runs of non-whitespace characters. *)
Fixpoint split_ws_from (s cur : string) : list string :=
  match s with
  | EmptyString => if String.eqb cur "" then [] else [cur]
  | String c s' =>
      if is_space c
      then (if String.eqb cur "" then split_ws_from s' ""
            else cur :: split_ws_from s' "")
      else split_ws_from s' (cur ++ String c "")
  end.

Definition split_ws (s : string) : list string := split_ws_from s "".

(** ** Parser *)

Inductive exn : Type := IndexError | ValueError | TypeError.

(** The fields [Parser.__init__] sets; [enum] is the state of the
    [Enumerator] the parser is. *)
Record Parser : Type := mkParser {
  enum : estate;
  P2TScores : option (gmap string (gmap string float));
  T2PScores : option (gmap string (gmap string float));
  redundant_word_score : float;
  ungrounded_token_score : float;
  min_command_length : Z;
  max_command_length : Z
}.

(** [Parser.__init__(self, grammar, min_cl=2, max_cl=10)] *)
Definition Parser_init (g : grammar) (min_cl max_cl : Z) : Parser :=
  {| enum := enum_init g;
     P2TScores := None;
     T2PScores := None;
     redundant_word_score := f_zero;
     ungrounded_token_score := neg_1e_5;
     min_command_length := min_cl;
     max_command_length := max_cl |}.

Definition Parser_init_default (g : grammar) : Parser := Parser_init g 2 10.

Definition set_ungrounded_token_score (v : float) (p : Parser) : Parser :=
  {| enum := enum p;
     P2TScores := P2TScores p;
     T2PScores := T2PScores p;
     redundant_word_score := redundant_word_score p;
     ungrounded_token_score := v;
     min_command_length := min_command_length p;
     max_command_length := max_command_length p |}.

Definition set_enum (e : estate) (p : Parser) : Parser :=
  {| enum := e;
     P2TScores := P2TScores p;
     T2PScores := T2PScores p;
     redundant_word_score := redundant_word_score p;
     ungrounded_token_score := ungrounded_token_score p;
     min_command_length := min_command_length p;
     max_command_length := max_command_length p |}.

(** *** make_phrase_table *)

(** [d[k1][k2] = v] on a [defaultdict(dict)]. *)
Definition store (k1 k2 : string) (v : float)
    (d : gmap string (gmap string float)) : gmap string (gmap string float) :=
  <[k1 := <[k2 := v]> (default ∅ (d !! k1))]> d.

Definition lookup2 (k1 k2 : string) (d : gmap string (gmap string float))
    : option float :=
  d !! k1 ≫= fun inner => inner !! k2.

(** [[float(s) for s in l]]: [None] when some [float(s)] raises. *)
Fixpoint floats_of (l : list string) : option (list float) :=
  match l with
  | [] => Some []
  | s :: l' =>
      match float_of_string s with
      | None => None
      | Some x =>
          match floats_of l' with
          | None => None
          | Some xs => Some (x :: xs)
          end
      end
  end.

(** The body of the loop of [make_phrase_table] up to the two stores: the
    phrase, the snippet and the weight that is stored, or the exception. *)
Definition read_record (line : string) : exn + (string * string * float) :=
  let parts := split_bars (strip line) in
  match parts !! 0%nat with
  | None => inl IndexError
  | Some p0 =>
  let nl_phrase := strip p0 in
  match parts !! 1%nat with
  | None => inl IndexError
  | Some p1 =>
  let cmd_snippet := strip p1 in
  match parts !! 2%nat with
  | None => inl IndexError
  | Some p2 =>
  match floats_of (split_ws p2) with
  | None => inl ValueError
  | Some [phi_cmd_nl; lex_cmd_nl; phi_nl_cmd; lex_nl_cmd] =>
      inr (nl_phrase, cmd_snippet, lex_nl_cmd)
  | Some _ => inl ValueError
  end end end end.

(** The loop over [f.readlines()], on the two tables being filled. *)
Fixpoint load_lines (lines : list string)
    (p2t t2p : gmap string (gmap string float))
    : gmap string (gmap string float) * gmap string (gmap string float)
      * option exn :=
  match lines with
  | [] => (p2t, t2p, None)
  | line :: rest =>
      match read_record line with
      | inl e => (p2t, t2p, Some e)
      | inr (nl_phrase, cmd_snippet, lex_nl_cmd) =>
          load_lines rest (store nl_phrase cmd_snippet lex_nl_cmd p2t)
                          (store cmd_snippet nl_phrase lex_nl_cmd t2p)
      end
  end.

(** [Parser.make_phrase_table(self, inputFile)], on the lines of the
    decompressed file.  The result is the parser afterwards and the
    exception that left the method, if any. *)
Definition make_phrase_table (self : Parser) (lines : list string)
    : Parser * option exn :=
  let '(p2t, t2p, r) := load_lines lines ∅ ∅ in
  ({| enum := enum self;
      P2TScores := Some p2t;
      T2PScores := Some t2p;
      redundant_word_score := redundant_word_score self;
      ungrounded_token_score := ungrounded_token_score self;
      min_command_length := min_command_length self;
      max_command_length := max_command_length self |}, r).

(** *** local_score and final_score *)

(** The loop of [local_score] over [words], on the dict being filled. *)
Fixpoint fire (row : gmap string float) (words : list string)
    (fired_features : gmap string float) : gmap string float :=
  match words with
  | [] => fired_features
  | word :: rest =>
      match row !! word with
      | Some v => fire row rest (<[word := v]> fired_features)
      | None => fire row rest fired_features
      end
  end.

(** [Parser.local_score(self, term, words)]; [term in None] raises
    TypeError when no table was loaded. *)
Definition local_score (self : Parser) (t : string) (words : list string)
    : exn + gmap string float :=
  match T2PScores self with
  | None => inl TypeError
  | Some t2p =>
      match t2p !! t with
      | None => inr ∅
      | Some row => inr (fire row words ∅)
      end
  end.

Definition uncovered (words : list string) (cell : Cell) : gset string :=
  list_to_set words ∖ cnl_words cell.

Definition set_score (v : float) (c : Cell) : Cell :=
  {| term := term c;
     parent := parent c;
     backpointer := backpointer c;
     cell_length := cell_length c;
     score := v;
     covered_words := covered_words c;
     features := features c |}.

(** [Parser.final_score(self, cell, words)]: [cell.score += ...].  Only the
    cell's own [score] changes; nothing reads the score of a backpointer
    afterwards. *)
Definition final_score (self : Parser) (cell : Cell) (words : list string)
    : Cell :=
  set_score
    (f_add (score cell)
       (f_mul (redundant_word_score self)
          (f_of_int (Z.of_nat (size (uncovered words cell))))))
    cell.

(** *** The traversal *)

(** What one invocation of [dfs] on a cell does to things outside it, in
    program order: [final_cells.append(cell)], [self.push(term)],
    [self.pop()], the construction of a child cell, and the rejected
    [self.allows(term)] that precedes [sys.exit(1)].  Each event carries
    the cell of the invocation that performs it. *)
Inductive event : Type :=
| EvRecord (c : Cell)
| EvPush (c : Cell) (t : string)
| EvPop (c : Cell)
| EvExtend (c child : Cell)
| EvReject (c : Cell).

(** The mutable things [dfs] works on: the parser (its enumerator stack),
    the list [final_cells], and the history of events so far. *)
Record World : Type := mkWorld {
  self : Parser;
  final_cells : list Cell;
  trace : list event
}.

(** How a call ends: it returns, the process exits ([sys.exit]), an
    exception leaves it, or the model ran out of fuel. *)
Inductive Outcome (A : Type) : Type :=
| Returned (a : A) (w : World)
| Exited (code : Z) (w : World)
| Raised (e : exn) (w : World)
| OutOfFuel.
Arguments Returned {A} a w.
Arguments Exited {A} code w.
Arguments Raised {A} e w.
Arguments OutOfFuel {A}.

Definition emit (ev : event) (w : World) : World :=
  {| self := self w; final_cells := final_cells w; trace := trace w ++ [ev] |}.

(** [final_cells.append(cell)] *)
Definition do_record (cell : Cell) (w : World) : World :=
  emit (EvRecord cell)
    {| self := self w;
       final_cells := final_cells w ++ [cell];
       trace := trace w |}.

(** [self.push(term)] *)
Definition do_push (cell : Cell) (t : string) (w : World) : World :=
  emit (EvPush cell t)
    {| self := set_enum (push (enum (self w)) t) (self w);
       final_cells := final_cells w;
       trace := trace w |}.

(** [self.pop()] *)
Definition do_pop (cell : Cell) (w : World) : World :=
  emit (EvPop cell)
    {| self := set_enum (pop (enum (self w))) (self w);
       final_cells := final_cells w;
       trace := trace w |}.

(** A [for] loop whose body may exit or raise: the first iteration that
    does not return ends the loop. *)
Fixpoint for_each (body : string -> World -> Outcome unit)
    (items : list string) (w : World) : Outcome unit :=
  match items with
  | [] => Returned tt w
  | x :: rest =>
      match body x w with
      | Returned _ w' => for_each body rest w'
      | o => o
      end
  end.

(** [Parser.dfs(self, cell, words, final_cells)].  The loop variable of
    [for term in self.legal_tokens()] is the function's local [term]: after
    the loop it holds the last token iterated ([List.last tokens term]). *)
Fixpoint dfs (fuel : nat) (cell : Cell) (words : list string) (w : World)
    : Outcome unit :=
  match fuel with
  | O => OutOfFuel
  | S fuel' =>
    let term0 := term cell in
    (* skip <EOF> character *)
    if String.eqb term0 EOF then Returned tt w else
    (* TODO: handle compound commands *)
    if String.eqb term0 PIPE then Returned tt w else
    (* yield legal command *)
    let w1 :=
      if (min_command_length (self w) <? cell_length cell)%Z
         && allow_eof (enum (self w))
      then do_record cell w else w in
    (* maximum depth reached, backtrack *)
    if (cell_length cell =? max_command_length (self w1))%Z
    then Returned tt w1 else
    (* update enumerator *)
    match
      (if negb (String.eqb term0 START_SYMBOL) then
         if allows (enum (self w1)) term0
         then Returned tt (do_push cell term0 w1)
         else Exited 1 (emit (EvReject cell) w1)
       else Returned tt w1)
    with
    | Returned _ w2 =>
        (* look ahead one step *)
        let tokens := legal_tokens (enum (self w2)) in
        match
          for_each
            (fun t w' =>
               match local_score (self w') t words with
               | inl e => Raised e w'
               | inr fired_features =>
                   let child_cell :=
                     Cell_init t None (Some cell) fired_features in
                   dfs fuel' child_cell words
                       (emit (EvExtend cell child_cell) w')
               end)
            tokens w2
        with
        | Returned _ w3 =>
            let term1 := List.last tokens term0 in
            if negb (String.eqb term1 START_SYMBOL)
            then Returned tt (do_pop cell w3)
            else Returned tt w3
        | o => o
        end
    | o => o
    end
  end.

(** *** Ranking *)

(** [sorted(final_cells, key=lambda x: x.score, reverse=True)]: a stable
    sort into descending order that compares keys with [<] only.  A cell
    goes in front of the first cell it is not smaller than. *)
Fixpoint insert_desc (x : Cell) (l : list Cell) : list Cell :=
  match l with
  | [] => [x]
  | y :: l' =>
      if f_lt (score x) (score y) then y :: insert_desc x l' else x :: l
  end.

Definition sorted_desc (l : list Cell) : list Cell := foldr insert_desc [] l.

(** [l[:k]], with Python's reading of a negative [k]. *)
Definition slice_to {A : Type} (k : Z) (l : list A) : list A :=
  if (0 <=? k)%Z then take (Z.to_nat k) l
  else take (Z.to_nat (Z.of_nat (length l) + k)) l.

(** The loop [for cell in final_cells: self.final_score(cell, words)]. *)
Definition apply_final_scores (p : Parser) (words : list string)
    (cells : list Cell) : list Cell :=
  map (fun cell => final_score p cell words) cells.

Definition ranking (p : Parser) (words : list string) (cells : list Cell)
    (top_K : Z) : list Cell :=
  slice_to top_K (sorted_desc (apply_final_scores p words cells)).

(** One printed line: command, score, length, covered words, uncovered
    words, feature set. *)
Record Row : Type := mkRow {
  row_command : string;
  row_score : float;
  row_length : Z;
  row_covered : gset string;
  row_uncovered : gset string;
  row_features : gmap string float
}.

Definition report (word_set : gset string) (cell : Cell) : Row :=
  {| row_command := genCommand cell;
     row_score := score cell;
     row_length := cell_length cell;
     row_covered := cnl_words cell;
     row_uncovered := word_set ∖ cnl_words cell;
     row_features := featureSet cell |}.

Definition start_cell : Cell := Cell_init START_SYMBOL None None ∅.

Definition initial_world (p : Parser) : World :=
  {| self := p; final_cells := []; trace := [] |}.

(** [Parser.parse(self, sent, top_K)]: the lines of the ranking it prints
    (the three progress lines are left out). *)
Definition parse (fuel : nat) (p : Parser) (sent : string) (top_K : Z)
    : Outcome (list Row) :=
  let words := split_ws sent in
  let word_set : gset string := list_to_set words in
  match dfs fuel start_cell words (initial_world p) with
  | Returned _ w =>
      Returned
        (map (report word_set) (ranking (self w) words (final_cells w) top_K))
        w
  | Exited code w => Exited code w
  | Raised e w => Raised e w
  | OutOfFuel => OutOfFuel
  end.


End CellModel.

Arguments Returned {FO EN A} a w.
Arguments Exited {FO EN A} code w.
Arguments Raised {FO EN A} e w.
Arguments OutOfFuel {FO EN A}.

(** ** Concrete instances, for examples *)

(** Decimal fixed-point numbers in units of 1e-5: the floats the examples
    need, with exact arithmetic. *)
Module Fixed5.

Definition unit_scale : Z := 100000.

Definition digit_val (c : ascii) : option Z :=
  let n := nat_of_ascii c in
  if Nat.leb 48 n && Nat.leb n 57 then Some (Z.of_nat (n - 48)) else None.

(** The leading digits of [s]: their value, their number, and the rest. *)
Fixpoint read_digits (s : string) (acc : Z) (n : nat) : Z * nat * string :=
  match s with
  | EmptyString => (acc, n, EmptyString)
  | String c s' =>
      match digit_val c with
      | Some d => read_digits s' (10 * acc + d) (S n)
      | None => (acc, n, s)
      end
  end.

(** Literals of the shape [-]digits[.digits], at most five decimals. *)
Definition of_string (s : string) : option Z :=
  let '(sign, s1) :=
    match s with
    | String "-"%char r => (-1, r)
    | _ => (1, s)
    end in
  let '(ip, ni, s2) := read_digits s1 0 0 in
  match s2 with
  | EmptyString =>
      if Nat.eqb ni 0 then None else Some (sign * ip * unit_scale)
  | String "."%char s3 =>
      let '(fp, nf, s4) := read_digits s3 0 0 in
      if String.eqb s4 "" && negb (Nat.eqb (ni + nf) 0) && Nat.leb nf 5
      then Some (sign * (ip * unit_scale + fp * 10 ^ Z.of_nat (5 - nf)))
      else None
  | _ => None
  end.

#[export] Instance ops : FloatOps := {|
  float := Z;
  f_zero := 0;
  f_add := Z.add;
  f_mul := fun a b => a * b / unit_scale;
  f_of_int := fun n => n * unit_scale;
  f_lt := Z.ltb;
  float_of_string := of_string;
  neg_1e_5 := -1
|}.

End Fixed5.

(** A grammar given as the finite list of its commands; the enumerator's
    state is the list of tokens pushed so far. *)
Module ListGrammar.

Fixpoint starts_with (pre l : list string) : bool :=
  match pre, l with
  | [], _ => true
  | x :: pre', y :: l' => String.eqb x y && starts_with pre' l'
  | _ :: _, [] => false
  end.

Fixpoint mem (x : string) (l : list string) : bool :=
  match l with
  | [] => false
  | y :: l' => String.eqb x y || mem x l'
  end.

Fixpoint nodup (l : list string) : list string :=
  match l with
  | [] => []
  | x :: l' => if mem x l' then nodup l' else x :: nodup l'
  end.

Fixpoint list_eqb (a b : list string) : bool :=
  match a, b with
  | [], [] => true
  | x :: a', y :: b' => String.eqb x y && list_eqb a' b'
  | _, _ => false
  end.

Definition eof_token : string := "<EOF>".

Definition complete (g : list (list string)) (st : list string) : bool :=
  existsb (list_eqb st) g.

Definition next_tokens (g : list (list string)) (st : list string)
    : list string :=
  (nodup (omap (fun cmd => if starts_with st cmd
                           then cmd !! length st else None) g)
   ++ (if complete g st then [eof_token] else []))%list.

(** The enumerator of the commands of [g]. *)
Definition enumerator (g : list (list string)) : Enumerator := {|
  grammar := unit;
  estate := list string;
  enum_init := fun _ => [];
  allows := fun st t => mem t (next_tokens g st);
  push := fun st t => (st ++ [t])%list;
  pop := fun st => removelast st;
  legal_tokens := next_tokens g;
  allow_eof := complete g;
  HOLE := "<HOLE>";
  EOF := eof_token
|}.

End ListGrammar.

(** The cells [Cell.__init__] can build, starting from a cell without
    backpointer; [final_score] may have rewritten a score on the way. *)
Inductive constructed `{FO : FloatOps} : Cell -> Prop :=
| constructed_start t p ff :
    constructed (Cell_init t p None ff)
| constructed_next t p b ff :
    constructed b -> constructed (Cell_init t p (Some b) ff)
| constructed_scored v c :
    constructed c -> constructed (set_score v c).

(** ** Vocabulary for statements about the phrase table *)

Section TableVocabulary.
Context `{FO : FloatOps} `{EN : Enumerator}.

(** [self.P2TScores[phrase][snippet]] and [self.T2PScores[snippet][phrase]],
    when they are there. *)
Definition P2T_weight (p : Parser) (phrase snippet : string) : option float :=
  P2TScores p ≫= lookup2 phrase snippet.

Definition T2P_weight (p : Parser) (snippet phrase : string) : option float :=
  T2PScores p ≫= lookup2 snippet phrase.

(** The text parses as exactly four floats separated by whitespace. *)
Definition four_floats (s : string) : Prop :=
  exists a b c d, floats_of (split_ws s) = Some [a; b; c; d].

(** The line has fewer than three parts, or its third part is not four
    floats. *)
Definition malformed (line : string) : Prop :=
  match split_bars (strip line) with
  | _ :: _ :: p2 :: _ => ~ four_floats p2
  | _ => True
  end.

End TableVocabulary.

(** ** Vocabulary for statements about the traversal *)

Section TraversalVocabulary.
Context `{FO : FloatOps} `{EN : Enumerator}.

(** The cells a list of events appends to [final_cells]. *)
Definition recorded (evs : list event) : list Cell :=
  omap (fun ev => match ev with EvRecord c => Some c | _ => None end) evs.

Definition is_reject (ev : event) : bool :=
  match ev with EvReject _ => true | _ => false end.

Definition no_reject (evs : list event) : Prop :=
  Forall (fun ev => is_reject ev = false) evs.

(** [w'] is [w] after the events [evs]: the history and [final_cells] grew
    by them and only the enumerator's stack may differ in the parser. *)
Definition run (w : World) (evs : list event) (w' : World) : Prop :=
  trace w' = (trace w ++ evs)%list /\
  final_cells w' = (final_cells w ++ recorded evs)%list /\
  self w' = set_enum (enum (self w')) (self w).

(** A cell [dfs] gets past its three early returns with. *)
Definition expandable (mx : Z) (c : Cell) : Prop :=
  term c <> EOF /\ term c <> PIPE /\ cell_length c <> mx.

(** What the code guarantees of each event, given that [Pc] holds of the
    cell of the invocation. *)
Definition ev_ok (Pc : Cell -> Prop) (mn mx : Z) (ev : event) : Prop :=
  match ev with
  | EvRecord c =>
      Pc c /\ term c <> EOF /\ term c <> PIPE /\ mn < cell_length c
  | EvPush c t =>
      Pc c /\ expandable mx c /\ term c <> START_SYMBOL /\ t = term c
  | EvPop c => Pc c /\ expandable mx c
  | EvExtend b c =>
      Pc b /\ expandable mx b /\
      exists t ff, c = Cell_init t None (Some b) ff
  | EvReject c => Pc c /\ expandable mx c /\ term c <> START_SYMBOL
  end.

(** The events of a call that exits end with the rejection, and there is
    no other; a call that ends otherwise has none. *)
Definition shape {A : Type} (o : Outcome A) (evs : list event) : Prop :=
  match o with
  | Exited code _ =>
      code = 1 /\
      exists evs' c, evs = (evs' ++ [EvReject c])%list /\ no_reject evs'
  | _ => no_reject evs
  end.

(** The rows a returning [parse] printed. *)
Definition rows_of (o : Outcome (list Row)) : list Row :=
  match o with Returned rows _ => rows | _ => [] end.

(** The world a call ended in, unless the fuel ran out. *)
Definition outcome_world {A : Type} (o : Outcome A) : option World :=
  match o with
  | Returned _ w | Exited _ w | Raised _ w => Some w
  | OutOfFuel => None
  end.

Definition is_returned {A : Type} (o : Outcome A) : bool :=
  match o with Returned _ _ => true | _ => false end.

Definition is_exited {A : Type} (o : Outcome A) : bool :=
  match o with Exited _ _ => true | _ => false end.

(** What an event is and the term of the cell it belongs to. *)
Definition event_summary (ev : event) : string * string :=
  match ev with
  | EvRecord c => ("record", term c)
  | EvPush c _ => ("push", term c)
  | EvPop c => ("pop", term c)
  | EvExtend _ c => ("extend", term c)
  | EvReject c => ("reject", term c)
  end.

(** What a caller of [parse] can see of its end. *)
Inductive Observed : Type :=
| ObsReturned (rows : list Row)
| ObsExited (code : Z)
| ObsRaised (e : exn)
| ObsOutOfFuel.

Definition observe (o : Outcome (list Row)) : Observed :=
  match o with
  | Returned rows _ => ObsReturned rows
  | Exited code _ => ObsExited code
  | Raised e _ => ObsRaised e
  | OutOfFuel => ObsOutOfFuel
  end.

(** The world with [ungrounded_token_score] set to [v] in its parser. *)
Definition with_ungrounded (v : float) (w : World) : World :=
  {| self := set_ungrounded_token_score v (self w);
     final_cells := final_cells w;
     trace := trace w |}.

Definition map_world {A : Type} (f : World -> World) (o : Outcome A)
    : Outcome A :=
  match o with
  | Returned a w => Returned a (f w)
  | Exited code w => Exited code (f w)
  | Raised e w => Raised e (f w)
  | OutOfFuel => OutOfFuel
  end.

(** The outcome [o] of a call started in [w], if it has a world, has it
    by a run of events that are all as [ev_ok] says and of the shape the
    outcome demands. *)
Definition good {A : Type} (Pc : Cell -> Prop) (mn mx : Z) (w : World)
    (o : Outcome A) : Prop :=
  forall w', outcome_world o = Some w' ->
    exists evs, run w evs w' /\ Forall (ev_ok Pc mn mx) evs /\ shape o evs.

(** The two length bounds of the parser of [w]. *)
Definition cfg (mn mx : Z) (w : World) : Prop :=
  min_command_length (self w) = mn /\ max_command_length (self w) = mx.

(** Every cell of the chain has a term that is neither the pipe nor the
    end-of-input sentinel. *)
Definition chain_clean (c : Cell) : Prop :=
  Forall (fun b => term b <> PIPE /\ term b <> EOF) (chain c).

End TraversalVocabulary.

(** In a list sorted descending no cell is smaller than a later one. *)
Definition descending `{FO : FloatOps} : list Cell -> Prop :=
  StronglySorted (fun a b => f_lt (score a) (score b) = false).

Section RankingVocabulary.
Context `{FO : FloatOps} `{EN : Enumerator}.

(** The assignment [parser.redundant_word_score = v]. *)
Definition set_redundant_word_score (v : float) (p : Parser) : Parser :=
  {| enum := enum p;
     P2TScores := P2TScores p;
     T2PScores := T2PScores p;
     redundant_word_score := v;
     ungrounded_token_score := ungrounded_token_score p;
     min_command_length := min_command_length p;
     max_command_length := max_command_length p |}.



(** [<] orders the scores [xs] as it orders numbers: among them it is
    asymmetric, and being not smaller is transitive.  This is so for
    floats of which none is NaN; it says nothing of other scores. *)
Definition comparable (xs : list float) : Prop :=
  (forall a b, a ∈ xs -> b ∈ xs -> f_lt a b = true -> f_lt b a = false) /\
  (forall a b c, a ∈ xs -> b ∈ xs -> c ∈ xs ->
     f_lt a b = false -> f_lt b c = false -> f_lt a c = false).

End RankingVocabulary.

(** Fixed-point numbers with a NaN beside them ([None]): NaN absorbs the
    arithmetic, every comparison with it is false, and ["nan"] reads as
    it, as with Python's floats. *)
Module WithNaN.

Definition lift2 (f : Z -> Z -> Z) (a b : option Z) : option Z :=
  match a, b with
  | Some x, Some y => Some (f x y)
  | _, _ => None
  end.

Definition lt (a b : option Z) : bool :=
  match a, b with
  | Some x, Some y => (x <? y)%Z
  | _, _ => false
  end.

Definition of_string (s : string) : option (option Z) :=
  if String.eqb s "nan" then Some None
  else option_map Some (Fixed5.of_string s).

Definition ops : FloatOps := {|
  float := option Z;
  f_zero := Some 0;
  f_add := lift2 Z.add;
  f_mul := lift2 (fun a b => a * b / Fixed5.unit_scale);
  f_of_int := fun n => Some (n * Fixed5.unit_scale);
  f_lt := lt;
  float_of_string := of_string;
  neg_1e_5 := Some (-1)
|}.

End WithNaN.

(** ** A small grammar and phrase table, for examples *)

Module Examples.

(** The commands [ls], [ls -l], [ls -a], [ls -l -a] and [cp]. *)
Definition E : Enumerator :=
  ListGrammar.enumerator
    [["ls"]; ["ls"; "-l"]; ["ls"; "-a"]; ["ls"; "-l"; "-a"]; ["cp"]].

(** [Parser(grammar, 0, 3)] *)
Definition P0 : @Parser Fixed5.ops E := @Parser_init Fixed5.ops E tt 0 3.

(** A record, and the same record followed by two more fields. *)
Definition record_line : string := "copy file ||| cp ||| 0.1 0.2 0.9 0.3".

Definition long_record_line : string :=
  "copy file ||| cp ||| 0.1 0.2 0.9 0.3 ||| 0-0 1-0 ||| 5 4 3".

Definition table_lines : list string :=
  ["list ||| ls ||| 0.1 0.2 0.9 0.3"; "long ||| -l ||| 0.1 0.2 0.9 0.5";
   "hidden ||| -a ||| 0.1 0.2 0.9 0.4"].

(** [Parser(grammar, 0, 3)] after [make_phrase_table]. *)
Definition P : @Parser Fixed5.ops E :=
  fst (make_phrase_table P0 table_lines).

Definition sentence : string := "list long hidden files".

(** The world [dfs] leaves when run from the start cell. *)
Definition final_world : @World Fixed5.ops E :=
  match dfs 5 start_cell (split_ws sentence) (initial_world P) with
  | Returned _ w => w
  | _ => initial_world P
  end.

(** An enumerator that offers [rm] and then refuses to push it. *)
Definition Broken : Enumerator := {|
  grammar := unit;
  estate := list string;
  enum_init := fun _ => [];
  allows := fun _ _ => false;
  push := fun st t => (st ++ [t])%list;
  pop := fun st => removelast st;
  legal_tokens := fun _ => ["rm"];
  allow_eof := fun _ => false;
  HOLE := "<HOLE>";
  EOF := "<EOF>"
|}.

(** The parser [P] after [P.redundant_word_score = -0.5]. *)
Definition PPenalty : @Parser Fixed5.ops E :=
  @set_redundant_word_score Fixed5.ops E (-50000) P.


Definition PBroken : @Parser Fixed5.ops Broken :=
  fst (make_phrase_table (@Parser_init Fixed5.ops Broken tt 0 3) table_lines).

Definition broken_world : @World Fixed5.ops Broken :=
  match dfs 5 start_cell (split_ws sentence) (initial_world PBroken) with
  | Exited _ w => w
  | _ => initial_world PBroken
  end.

End Examples.

(** ** Vocabulary for further statements *)

(** The string has a whitespace character in it. *)
Fixpoint has_space (s : string) : bool :=
  match s with
  | EmptyString => false
  | String c s' => is_space c || has_space s'
  end.

Section EnumeratorLaws.
Context `{EN : Enumerator}.

(** What a grammar walker that keeps a stack can be expected to do: a pop
    undoes the push before it, the start symbol is never offered as a next
    token, and a token that is offered may be pushed. *)
Definition pop_undoes_push : Prop :=
  forall st t, pop (push st t) = st.

Definition never_offers_start : Prop :=
  forall st, START_SYMBOL ∉ legal_tokens st.

Definition allows_what_it_offers : Prop :=
  forall st t, t ∈ legal_tokens st -> allows st t = true.

(** A word: not empty and without whitespace. *)
Definition is_word (t : string) : bool :=
  negb (String.eqb t "") && negb (has_space t).

(** The tokens the grammar walker offers are words. *)
Definition offers_words : Prop :=
  forall st t, t ∈ legal_tokens st -> is_word t = true.

End EnumeratorLaws.

(** ** The rewrite store (eval/extract_rewrites.py) *)

(** The functions of module [data_tools] the file calls, as the calls are
    written; [None] stands for an exception raised inside one. *)
Class DataTools := {
  AST : Type;
  (** [data_tools.bash_parser(cmd)] *)
  bash_parser : string -> option AST;
  (** [data_tools.ast2template(ast, loose_constraints=True,
      arg_type_only=False)] *)
  ast2template_full : AST -> option string;
  (** [data_tools.ast2template(ast, loose_constraints=True)] *)
  ast2template_loose : AST -> option string;
  (** [data_tools.rewrite(ast, s2)] *)
  data_rewrite : AST -> string -> option string;
  (** [data_tools.basic_tokenizer(nl.decode('utf-8'))] *)
  basic_tokenizer : string -> option (list string);
  (** [data_tools.cmd2template(cm)] *)
  cmd2template : string -> option string
}.

(** The dicts and sets [extract_rewrites] iterates over: the outer dict
    ([group_pairs_by_nl.keys()]), the set [cm_set] made for a sentence,
    a dict of counts (by its reference), [bash_paraphrases.items()], and
    the dict of templates of a sentence ([for cm_temp1 in cm_temps]). *)
Inductive iterated : Type :=
| GroupKeys
| CmSet (nl : string)
| Counts (r : nat)
| Paraphrases
| CmTemps (nl : string).

(** The order in which Python yields the keys of a dict or the elements of
    a set is not fixed by their content.  [order what keys] is the order
    in which the object [what] yields its keys while these are [keys]. *)
Class IterationOrder := {
  order : iterated -> list string -> list string
}.

(** Iteration yields each key once. *)
Definition order_is_permutation `{IterationOrder} : Prop :=
  forall what keys, order what keys ≡ₚ keys.

(** The exceptions met: sqlite3's OperationalError (no such table) and
    ProgrammingError (closed connection), the TypeError of indexing a set,
    and whatever [data_tools] raises. *)
Inductive rw_exn : Type :=
| OperationalError
| ProgrammingError
| SetIndexError
| DataToolsError.

(** A [DBConnection]: the table [Rewrites (s1 TEXT, s2 TEXT)] of the file
    [bash_rewrites.db] ([None] while the table does not exist) and whether
    the connection has been closed.  Every method commits, so the table of
    the connection is the table of the file.  Templates are text that
    sqlite stores and compares as given. *)
Record DBConnection : Type := mkDB {
  Rewrites : option (list (string * string));
  closed : bool
}.

(** [DBConnection.__init__], on the content of the file. *)
Definition DBConnection_init (file : option (list (string * string)))
    : DBConnection :=
  {| Rewrites := file; closed := false |}.

(** [DBConnection.__exit__] *)
Definition DBConnection_exit (db : DBConnection) : DBConnection :=
  {| Rewrites := Rewrites db; closed := true |}.

(** [create_schema]: [CREATE TABLE IF NOT EXISTS Rewrites ...]. *)
Definition create_schema (db : DBConnection) : rw_exn + DBConnection :=
  if closed db then inl ProgrammingError
  else inr {| Rewrites := Some (default [] (Rewrites db)); closed := false |}.

(** [add_rewrite(pair)]: [INSERT INTO Rewrites (s1, s2) VALUES (?, ?)]. *)
Definition add_rewrite (db : DBConnection) (pair : string * string)
    : rw_exn + DBConnection :=
  let '(s1, s2) := pair in
  if closed db then inl ProgrammingError else
  match Rewrites db with
  | None => inl OperationalError
  | Some rows =>
      inr {| Rewrites := Some (rows ++ [(s1, s2)])%list; closed := false |}
  end.

(** [SELECT ... FROM Rewrites WHERE s1 = ?] *)
Definition select_s1 (s1 : string) (rows : list (string * string))
    : list (string * string) :=
  List.filter (fun row => String.eqb (fst row) s1) rows.

(** [get_rewrite_templates(s1)] *)
Definition get_rewrite_templates (db : DBConnection) (s1 : string)
    : rw_exn + gset string :=
  if closed db then inl ProgrammingError else
  match Rewrites db with
  | None => inl OperationalError
  | Some rows =>
      inr (foldl (fun rewrites row => rewrites ∪ {[snd row]})
                 {[s1]} (select_s1 s1 rows))
  end.

(** [exist_rewrite(pair)]: is there a row of
    [SELECT 1 FROM Rewrites WHERE s1 = ? AND s2 = ?]. *)
Definition exist_rewrite (db : DBConnection) (pair : string * string)
    : rw_exn + bool :=
  let '(s1, s2) := pair in
  if closed db then inl ProgrammingError else
  match Rewrites db with
  | None => inl OperationalError
  | Some rows =>
      inr (existsb (fun row => String.eqb (fst row) s1
                               && String.eqb (snd row) s2) rows)
  end.

Section RewriteModel.
Context `{DT : DataTools} `{IO : IterationOrder}.

(** The loop of [get_rewrites] over the selected rows. *)
Fixpoint add_rewrites (ast : AST) (rows : list (string * string))
    (rewrites : gset string) : option (gset string) :=
  match rows with
  | [] => Some rewrites
  | (_, s2) :: rest =>
      match data_rewrite ast s2 with
      | None => None
      | Some s => add_rewrites ast rest (rewrites ∪ {[s]})
      end
  end.

(** [get_rewrites(ast)] *)
Definition get_rewrites (db : DBConnection) (ast : AST)
    : rw_exn + gset string :=
  match ast2template_full ast with
  | None => inl DataToolsError
  | Some cmd =>
  match ast2template_loose ast with
  | None => inl DataToolsError
  | Some s1 =>
  if closed db then inl ProgrammingError else
  match Rewrites db with
  | None => inl OperationalError
  | Some rows =>
      match add_rewrites ast (select_s1 s1 rows) {[cmd]} with
      | None => inl DataToolsError
      | Some rewrites => inr rewrites
      end
  end end end.

(** [test_rewrite(cmd)], on the content of the file: the exception that
    leaves it, if any, the file afterwards, and the lines printed.
    [rewrites] is a set, and [rewrites[i]] raises TypeError. *)
Definition test_rewrite (file : option (list (string * string)))
    (cmd : string)
    : option rw_exn * option (list (string * string)) * list string :=
  let db := DBConnection_init file in
  match bash_parser cmd with
  | None => (Some DataToolsError, Rewrites (DBConnection_exit db), [])
  | Some ast =>
      match get_rewrites db ast with
      | inl e => (Some e, Rewrites (DBConnection_exit db), [])
      | inr rewrites =>
          match size rewrites with
          | O => (None, Rewrites (DBConnection_exit db), [])
          | S _ => (Some SetIndexError, Rewrites (DBConnection_exit db), [])
          end
      end
  end.

(** [s.lower()], on ASCII letters. *)
Definition lower_ascii (c : ascii) : ascii :=
  let n := nat_of_ascii c in
  if Nat.leb 65 n && Nat.leb n 90 then ascii_of_nat (n + 32) else c.

Fixpoint lower (s : string) : string :=
  match s with
  | EmptyString => EmptyString
  | String c s' => String (lower_ascii c) (lower s')
  end.

(** [group_pairs_by_nl]: for each sentence template and each command
    template a [defaultdict(int)] of counts per command.  The count dicts
    are objects that the merging shares between sentences, so the inner
    dicts hold references into [counters]. *)
Record Groups : Type := mkGroups {
  group_pairs_by_nl : gmap string (gmap string nat);
  counters : list (gmap string Z)
}.

(** [counters[r][cm] += by]; a missing count is 0. *)
Definition bump (r : nat) (cm : string) (by_ : Z)
    (heap : list (gmap string Z)) : list (gmap string Z) :=
  let d := default ∅ (heap !! r) in
  <[r := <[cm := (default 0 (d !! cm) + by_)%Z]> d]> heap.

(** The pair is one the first loop passes over ([continue]). *)
Definition skipped (pair : string * string) : bool :=
  let nl := strip (fst pair) in
  let cm := strip (snd pair) in
  String.eqb (lower nl) "na" || String.eqb nl "" || String.eqb cm "".

(** The body of the first loop of [extract_rewrites]. *)
Definition add_pair (pair : string * string) (g : Groups) : option Groups :=
  let nl := strip (fst pair) in
  let cm := strip (snd pair) in
  if String.eqb (lower nl) "na" then Some g else
  if String.eqb nl "" then Some g else
  if String.eqb cm "" then Some g else
  match basic_tokenizer nl with
  | None => None
  | Some tokens =>
  let nl_temp := String.concat " " tokens in
  let by_nl :=
    match group_pairs_by_nl g !! nl_temp with
    | Some _ => group_pairs_by_nl g
    | None => <[nl_temp := ∅]> (group_pairs_by_nl g)
    end in
  match cmd2template cm with
  | None => None
  | Some cm_temp =>
  let inner := default ∅ (by_nl !! nl_temp) in
  let '(inner', heap') :=
    match inner !! cm_temp with
    | Some _ => (inner, counters g)
    | None => (<[cm_temp := length (counters g)]> inner,
               (counters g ++ [∅])%list)
    end in
  let r := default 0%nat (inner' !! cm_temp) in
  Some {| group_pairs_by_nl := <[nl_temp := inner']> by_nl;
          counters := bump r cm 1 heap' |}
  end end.

Fixpoint group_pairs (pairs : list (string * string)) (g : Groups)
    : option Groups :=
  match pairs with
  | [] => Some g
  | p :: rest =>
      match add_pair p g with
      | None => None
      | Some g' => group_pairs rest g'
      end
  end.

(** [for cm in counters[r1]: counters[r2][cm] += counters[r1][cm]] *)
Definition merge_counts (r1 r2 : nat) (heap : list (gmap string Z))
    : list (gmap string Z) :=
  foldl (fun h cm =>
           bump r2 cm (default 0%Z (default ∅ (h !! r1) !! cm)) h)
        heap
        (order (Counts r1)
               (elements (dom (default ∅ (heap !! r1)) : gset string))).

(** The body of [for cm_temp in cm_set]. *)
Definition merge_template (nl nl2 : string) (g : Groups) (cm_temp : string)
    : Groups :=
  let src := default ∅ (group_pairs_by_nl g !! nl) in
  let dst := default ∅ (group_pairs_by_nl g !! nl2) in
  let r1 := default 0%nat (src !! cm_temp) in
  match dst !! cm_temp with
  | None =>
      {| group_pairs_by_nl :=
           <[nl2 := <[cm_temp := r1]> dst]> (group_pairs_by_nl g);
         counters := counters g |}
  | Some r2 =>
      {| group_pairs_by_nl := group_pairs_by_nl g;
         counters := merge_counts r1 r2 (counters g) |}
  end.

(** The body of the loop over [j]; the flag is [i in merged]. *)
Definition merge_into (nl : string) (cm_set : gset string)
    (st : Groups * bool) (nl2 : string) : Groups * bool :=
  let cm_set2 : gset string :=
    dom (default (∅ : gmap string nat)
                 (group_pairs_by_nl (fst st) !! nl2)) in
  if Nat.leb 2 (size (cm_set ∩ cm_set2))
  then (foldl (merge_template nl nl2) (fst st) (order (CmSet nl) (elements cm_set)),
        true)
  else st.

(** The loop over [i], on the keys from [nls[i]] on; each key comes back
    with whether its index is in [merged]. *)
Fixpoint merge_groups (nls : list string) (g : Groups)
    : Groups * list (string * bool) :=
  match nls with
  | [] => (g, [])
  | nl :: rest =>
      let cm_set : gset string :=
        dom (default (∅ : gmap string nat) (group_pairs_by_nl g !! nl)) in
      let st := foldl (merge_into nl cm_set) (g, false) rest in
      let res := merge_groups rest (fst st) in
      (fst res, (nl, snd st) :: snd res)
  end.

(** [bash_paraphrases]: the groups whose index is not in [merged]. *)
Definition bash_paraphrases_of (g : Groups) (flags : list (string * bool))
    : gmap string (gmap string nat) :=
  foldl (fun (bp : gmap string (gmap string nat)) (flag : string * bool) =>
           if snd flag then bp
           else <[fst flag :=
                    default ∅ (group_pairs_by_nl g !! fst flag)]> bp)
        ∅ flags.

(** [sorted(items, key=lambda x: len(x[1]), reverse=True)]: stable, into
    descending order of the number of templates. *)
Fixpoint insert_by_size (x : string * gmap string nat)
    (l : list (string * gmap string nat)) : list (string * gmap string nat) :=
  match l with
  | [] => [x]
  | y :: l' =>
      if Nat.ltb (size (snd x)) (size (snd y))
      then y :: insert_by_size x l' else x :: l
  end.

Definition sorted_by_size (l : list (string * gmap string nat))
    : list (string * gmap string nat) :=
  foldr insert_by_size [] l.

(** The with-block of [extract_rewrites] as it goes: the connection, the
    lines printed, and the exception that ended it, if any. *)
Record Session : Type := mkSession {
  db : DBConnection;
  out : list string;
  failed : option rw_exn
}.

(** ["* {} --> {}".format(cm_temp1, cm_temp2)] *)
Definition rewrite_line (cm_temp1 cm_temp2 : string) : string :=
  "* " ++ cm_temp1 ++ " --> " ++ cm_temp2.

(** The body of the loop over [cm_temp2]. *)
Definition add_if_new (cm_temp1 : string) (s : Session) (cm_temp2 : string)
    : Session :=
  match failed s with
  | Some _ => s
  | None =>
      match exist_rewrite (db s) (cm_temp1, cm_temp2) with
      | inl e => {| db := db s; out := out s; failed := Some e |}
      | inr true => s
      | inr false =>
          match add_rewrite (db s) (cm_temp1, cm_temp2) with
          | inl e => {| db := db s; out := out s; failed := Some e |}
          | inr db' =>
              {| db := db';
                 out := (out s ++ [rewrite_line cm_temp1 cm_temp2])%list;
                 failed := None |}
          end
      end
  end.

Definition print_line (line : string) (s : Session) : Session :=
  match failed s with
  | Some _ => s
  | None => {| db := db s; out := (out s ++ [line])%list; failed := None |}
  end.

(** The templates of a group, as [for cm_temp1 in cm_temps] yields them. *)
Definition group_keys (item : string * gmap string nat) : list string :=
  order (CmTemps (fst item)) (elements (dom (snd item) : gset string)).

(** The group is one the with-block stores ([len(cm_temps) >= 2]). *)
Definition big (item : string * gmap string nat) : bool :=
  Nat.leb 2 (size (snd item)).

(** The body of the loop over the sorted groups. *)
Definition store_group (s : Session) (item : string * gmap string nat)
    : Session :=
  if big item then
    let keys := group_keys item in
    print_line ""
      (foldl (fun s cm_temp1 => foldl (add_if_new cm_temp1) s keys)
             (print_line (fst item) s) keys)
  else s.

(** The groups the with-block goes through, in its order. *)
Definition stored_groups (nls cms : list string)
    : option (list (string * gmap string nat)) :=
  match group_pairs (zip nls cms) {| group_pairs_by_nl := ∅; counters := [] |}
  with
  | None => None
  | Some g =>
      let keys :=
        order GroupKeys (elements (dom (group_pairs_by_nl g) : gset string)) in
      let res := merge_groups keys g in
      let bash_paraphrases := bash_paraphrases_of (fst res) (snd res) in
      let items :=
        omap (fun nl => match bash_paraphrases !! nl with
                        | Some cm_temps => Some (nl, cm_temps)
                        | None => None
                        end)
             (order Paraphrases
                    (elements (dom bash_paraphrases : gset string))) in
      Some (sorted_by_size items)
  end.

(** [extract_rewrites((nls, cms))], on the content of the file: the
    exception that leaves it, if any, the file afterwards, and the lines
    printed. *)
Definition extract_rewrites (file : option (list (string * string)))
    (nls cms : list string)
    : option rw_exn * option (list (string * string)) * list string :=
  match stored_groups nls cms with
  | None => (Some DataToolsError, file, [])
  | Some items =>
      match create_schema (DBConnection_init file) with
      | inl e => (Some e, file, [])
      | inr db0 =>
          let s := foldl store_group
                         {| db := db0; out := []; failed := None |} items in
          (failed s, Rewrites (DBConnection_exit (db s)), out s)
      end
  end.

(** The with-block has not failed, and the table holds [rows]. *)
Definition open_with (s : Session) (rows : list (string * string)) : Prop :=
  failed s = None /\ closed (db s) = false /\ Rewrites (db s) = Some rows.

(** The line printed for a row added. *)
Definition line_of (row : string * string) : string :=
  rewrite_line (fst row) (snd row).

(** Some command of the data has template [t]. *)
Definition from_commands (cms : list string) (t : string) : Prop :=
  exists cm, cm ∈ cms /\ cmd2template (strip cm) = Some t.

(** Some sentence of the data has template [nl_temp]. *)
Definition from_sentences (nls : list string) (nl_temp : string) : Prop :=
  exists nl tokens,
    nl ∈ nls /\ basic_tokenizer (strip nl) = Some tokens /\
    nl_temp = String.concat " " tokens.

(** The sentences of the groups satisfy [P], their templates [Q]. *)
Definition groups_from (P Q : string -> Prop)
    (groups : gmap string (gmap string nat)) : Prop :=
  forall nl inner,
    groups !! nl = Some inner ->
    P nl /\ forall t, is_Some (inner !! t) -> Q t.

(** [data_tools] accepts the pair, or the first loop passes over it. *)
Definition usable (p : string * string) : Prop :=
  skipped p = false ->
  is_Some (basic_tokenizer (strip (fst p))) /\
  is_Some (cmd2template (strip (snd p))).

(** The pairs the first loop does not pass over. *)
Definition kept (nls cms : list string) : list (string * string) :=
  List.filter (fun p => negb (skipped p)) (zip nls cms).

End RewriteModel.

(** For examples: tokens are words, the template of a command is its
    first word, and iteration follows the order of the keys given. *)
Module RewriteExamples.

Definition first_word (cm : string) : option string :=
  match split_ws cm with
  | [] => None
  | w :: _ => Some w
  end.

Definition tools : DataTools := {|
  AST := string;
  bash_parser := fun cmd => Some cmd;
  ast2template_full := fun ast => Some ast;
  ast2template_loose := first_word;
  data_rewrite := fun ast s2 => Some (s2 ++ " " ++ ast);
  basic_tokenizer := fun nl => Some (split_ws nl);
  cmd2template := first_word
|}.

Definition as_given : IterationOrder := {| order := fun _ keys => keys |}.

(** Another order: sets and dicts yield their keys backwards. *)
Definition backwards : IterationOrder := {| order := fun _ keys => rev keys |}.

Definition nls : list string :=
  ["list files"; "NA"; "list files "; "show dir"; "  "; "list  files";
   "show files"; "show files"; "show files"; "where am i"].

Definition cms : list string :=
  ["ls -l"; "rm x"; "dir"; "ls"; "pwd"; "ls -a";
   "dir /w"; "ls"; "find ."; "pwd"].

End RewriteExamples.

(** Discharges [Forall (ev_ok _ _ _) [ev]] from the hypotheses at hand. *)
Ltac one_event_ok :=
  constructor; [simpl; repeat split; eauto; try lia | constructor].

(** * Properties *)

Section CellFacts.
Context `{FO : FloatOps} `{EN : Enumerator}.

(** Induction along the backpointer chain. *)
Lemma Cell_chain_ind (P : Cell -> Prop) :
  (forall c, (forall b, backpointer c = Some b -> P b) -> P c) ->
  forall c, P c.
Proof.
  intros step. fix IH 1. intros [t p bp n s cw fs].
  apply step. simpl. intros b Hb. destruct bp as [b'|]; [|discriminate].
  injection Hb as <-. apply IH.
Qed.

Lemma chain_unfold (c : Cell) :
  chain c = c :: match backpointer c with
                 | Some b => chain b
                 | None => []
                 end.
Proof. destruct c; reflexivity. Qed.

Lemma chain_set_score v c :
  chain (set_score v c) = set_score v c :: List.tail (chain c).
Proof. rewrite (chain_unfold (set_score v c)), (chain_unfold c). reflexivity. Qed.

Lemma genCommand_loop_unfold (b : Cell) (command : list string) :
  genCommand_loop b command =
  match backpointer b with
  | Some b' => genCommand_loop b' (render (term b) :: command)
  | None => render (term b) :: command
  end.
Proof. destruct b; reflexivity. Qed.

(** The loop of [genCommand] puts the tokens of the chain, root first, in
    front of what it was given. *)
Lemma genCommand_loop_chain (b : Cell) :
  forall command,
    genCommand_loop b command =
    (map render (map term (rev (chain b))) ++ command)%list.
Proof.
  induction b as [b IH] using Cell_chain_ind. intros command.
  rewrite genCommand_loop_unfold, chain_unfold.
  destruct (backpointer b) as [b'|] eqn:Hb.
  - rewrite (IH b' eq_refl). simpl rev.
    rewrite !map_app, <- app_assoc. reflexivity.
  - reflexivity.
Qed.

Lemma genCommand_tokens_chain (c : Cell) :
  genCommand_tokens c = List.tail (map render (map term (rev (chain c)))).
Proof.
  unfold genCommand_tokens. rewrite (chain_unfold c).
  destruct (backpointer c) as [b|].
  - rewrite genCommand_loop_chain. simpl rev.
    rewrite !map_app. reflexivity.
  - reflexivity.
Qed.

(** A constructed cell's [length] is the number of backpointers behind it. *)
Lemma constructed_length (c : Cell) :
  constructed c -> cell_length c = Z.of_nat (length (chain c)) - 1.
Proof.
  induction 1 as [t p ff | t p b ff Hb IH | v c Hc IH].
  - reflexivity.
  - rewrite chain_unfold. cbn [cell_length backpointer Cell_init length].
    rewrite IH. lia.
  - rewrite chain_set_score. cbn [cell_length set_score].
    rewrite IH. rewrite (chain_unfold c). simpl. lia.
Qed.

End CellFacts.

Section TraversalFacts.
Context `{FO : FloatOps} `{EN : Enumerator}.

Lemma set_enum_same (p : Parser) : set_enum (enum p) p = p.
Proof. destruct p; reflexivity. Qed.

Lemma recorded_app (a b : list event) :
  recorded (a ++ b) = (recorded a ++ recorded b)%list.
Proof. unfold recorded. apply omap_app. Qed.

Lemma run_refl (w : World) : run w [] w.
Proof.
  unfold run. simpl. rewrite !app_nil_r, set_enum_same. auto.
Qed.

Lemma run_trans (w w1 w2 : World) (e1 e2 : list event) :
  run w e1 w1 -> run w1 e2 w2 -> run w (e1 ++ e2) w2.
Proof.
  intros (T1 & F1 & S1) (T2 & F2 & S2). unfold run.
  rewrite T2, T1, F2, F1, recorded_app, !app_assoc.
  repeat split. rewrite S2 at 1. rewrite S1. reflexivity.
Qed.

Lemma run_emit (ev : event) (w : World) :
  recorded [ev] = [] -> run w [ev] (emit ev w).
Proof.
  intros Hr. unfold run. rewrite Hr. simpl.
  rewrite app_nil_r, set_enum_same. auto.
Qed.

Lemma run_record (c : Cell) (w : World) : run w [EvRecord c] (do_record c w).
Proof. unfold run. simpl. rewrite set_enum_same. auto. Qed.

Lemma run_push (c : Cell) (t : string) (w : World) :
  run w [EvPush c t] (do_push c t w).
Proof. unfold run. simpl. rewrite app_nil_r. auto. Qed.

Lemma run_pop (c : Cell) (w : World) : run w [EvPop c] (do_pop c w).
Proof. unfold run. simpl. rewrite app_nil_r. auto. Qed.

Lemma run_cfg (mn mx : Z) (w w' : World) (evs : list event) :
  run w evs w' -> cfg mn mx w -> cfg mn mx w'.
Proof.
  intros (_ & _ & S) [Hmn Hmx]. unfold cfg. rewrite S. simpl. auto.
Qed.

Lemma run_tables (w w' : World) (evs : list event) :
  run w evs w' ->
  T2PScores (self w') = T2PScores (self w) /\
  redundant_word_score (self w') = redundant_word_score (self w).
Proof. intros (_ & _ & S). rewrite S. simpl. auto. Qed.

Lemma no_reject_app (a b : list event) :
  no_reject a -> no_reject b -> no_reject (a ++ b).
Proof. unfold no_reject. intros. apply Forall_app. auto. Qed.

(** Events that happened before a call are put in front of the call's. *)
Lemma good_after {A : Type} Pc mn mx (w w1 : World) (evs : list event)
    (o : Outcome A) :
  run w evs w1 -> Forall (ev_ok Pc mn mx) evs -> no_reject evs ->
  good Pc mn mx w1 o -> good Pc mn mx w o.
Proof.
  intros Hrun Hok Hnr Hgood w' Hw'.
  destruct (Hgood w' Hw') as (evs2 & Hrun2 & Hok2 & Hshape).
  exists (evs ++ evs2)%list. split; [eapply run_trans; eauto|].
  split; [apply Forall_app; auto|].
  destruct o; simpl in *; try (apply no_reject_app; assumption).
  destruct Hshape as (Hcode & evs' & c & -> & Hnr').
  split; [assumption|]. exists (evs ++ evs')%list, c.
  rewrite app_assoc. split; [reflexivity|]. apply no_reject_app; assumption.
Qed.

Lemma good_returned Pc mn mx (w : World) :
  good (A := unit) Pc mn mx w (Returned tt w).
Proof.
  intros w' [= <-]. exists []. split; [apply run_refl|].
  split; constructor.
Qed.

Lemma good_raised Pc mn mx (e : exn) (w : World) :
  good (A := unit) Pc mn mx w (Raised e w).
Proof.
  intros w' [= <-]. exists []. split; [apply run_refl|].
  split; constructor.
Qed.

(** The loop: if every iteration is good from any world of the same
    configuration, the loop is. *)
Lemma for_each_good Pc mn mx (body : string -> World -> Outcome unit)
    (items : list string) :
  (forall x w, cfg mn mx w -> good Pc mn mx w (body x w)) ->
  forall w, cfg mn mx w -> good Pc mn mx w (for_each body items w).
Proof.
  intros Hbody. induction items as [|x rest IH]; intros w Hcfg; simpl.
  - apply good_returned.
  - pose proof (Hbody x w Hcfg) as Hx.
    destruct (body x w) as [[] w1| | |] eqn:Hb; try exact Hx.
    destruct (Hx w1 eq_refl) as (evs & Hrun & Hok & Hnr).
    eapply good_after; eauto. apply IH. eapply run_cfg; eauto.
Qed.

End TraversalFacts.

Section TraversalInvariant.
Context `{FO : FloatOps} `{EN : Enumerator}.

Lemma dfs_O (cell : Cell) (words : list string) (w : World) :
  dfs 0 cell words w = OutOfFuel.
Proof. reflexivity. Qed.

(** The world after the test that may record the cell. *)
Lemma yield_run Pc mn mx (cell : Cell) (w : World) :
  cfg mn mx w -> Pc cell -> term cell <> EOF -> term cell <> PIPE ->
  exists evs,
    run w evs
      (if (min_command_length (self w) <? cell_length cell)%Z
          && allow_eof (enum (self w))
       then do_record cell w else w) /\
    Forall (ev_ok Pc mn mx) evs /\ no_reject evs.
Proof.
  intros [Hmn Hmx] HPc He Hp.
  destruct (Z.ltb_spec (min_command_length (self w)) (cell_length cell));
    simpl; [destruct (allow_eof (enum (self w)))|].
  - exists [EvRecord cell]. split; [apply run_record|].
    split; [one_event_ok|repeat constructor].
  - exists []. split; [apply run_refl|]. split; constructor.
  - exists []. split; [apply run_refl|]. split; constructor.
Qed.

(** The invariant of the traversal: whatever holds of the cell [dfs] is
    called on and is inherited by child cells holds of the cell of every
    event, and each event happens only behind the tests that guard it. *)
Lemma dfs_good (Pc : Cell -> Prop) (mn mx : Z) :
  (forall b t ff, Pc b -> expandable mx b ->
                  Pc (Cell_init t None (Some b) ff)) ->
  forall fuel cell words w,
    cfg mn mx w -> Pc cell -> good Pc mn mx w (dfs fuel cell words w).
Proof.
  intros Hclosed. induction fuel as [|fuel IH]; intros cell words w Hcfg HPc.
  - intros w' Hw'. discriminate.
  - cbn [dfs].
    destruct (String.eqb_spec (term cell) EOF) as [|He];
      [apply good_returned|].
    destruct (String.eqb_spec (term cell) PIPE) as [|Hp];
      [apply good_returned|].
    destruct (yield_run Pc mn mx cell w Hcfg HPc He Hp)
      as (evs1 & Hrun1 & Hok1 & Hnr1).
    set (w1 := if (_ <? _)%Z && _ then _ else _) in *.
    assert (Hcfg1 : cfg mn mx w1) by (eapply run_cfg; eauto).
    eapply good_after; eauto.
    destruct (Z.eqb_spec (cell_length cell) (max_command_length (self w1)))
      as [|Hmax]; [apply good_returned|].
    assert (Hexp : expandable mx cell).
    { destruct Hcfg1 as [_ <-]. repeat split; assumption. }
    pose proof Hexp as (_ & _ & Hmx).
    assert (Hloop : forall w2, cfg mn mx w2 ->
      good Pc mn mx w2
        (match
           for_each
             (fun t w' =>
                match local_score (self w') t words with
                | inl e => Raised e w'
                | inr fired_features =>
                    dfs fuel (Cell_init t None (Some cell) fired_features)
                      words
                      (emit (EvExtend cell
                               (Cell_init t None (Some cell) fired_features))
                            w')
                end)
             (legal_tokens (enum (self w2))) w2
         with
         | Returned _ w3 =>
             if negb (String.eqb
                        (List.last (legal_tokens (enum (self w2)))
                                   (term cell))
                        START_SYMBOL)
             then Returned tt (do_pop cell w3)
             else Returned tt w3
         | o => o
         end)).
    { intros w2 Hcfg2.
      assert (Hfe : good Pc mn mx w2
        (for_each
           (fun t w' =>
              match local_score (self w') t words with
              | inl e => Raised e w'
              | inr fired_features =>
                  dfs fuel (Cell_init t None (Some cell) fired_features)
                    words
                    (emit (EvExtend cell
                             (Cell_init t None (Some cell) fired_features))
                          w')
              end)
           (legal_tokens (enum (self w2))) w2)).
      { apply for_each_good; [|assumption].
        intros t w' Hcfg'.
        destruct (local_score (self w') t words) as [e|ff];
          [apply good_raised|].
        eapply good_after
          with (evs := [EvExtend cell (Cell_init t None (Some cell) ff)]).
        - apply run_emit. reflexivity.
        - one_event_ok.
        - repeat constructor.
        - apply IH; [|apply Hclosed; assumption].
          eapply run_cfg; [apply run_emit; reflexivity|assumption]. }
      destruct (for_each _ _ w2) as [[] w3| | |]; try exact Hfe.
      destruct (Hfe w3 eq_refl) as (evs3 & Hrun3 & Hok3 & Hnr3).
      destruct (negb _).
      - eapply good_after; eauto.
        eapply good_after; [apply run_pop| | |apply good_returned].
        + one_event_ok.
        + repeat constructor.
      - eapply good_after; eauto. apply good_returned. }
    destruct (String.eqb_spec (term cell) START_SYMBOL) as [Hs|Hs]; simpl.
    + apply Hloop. assumption.
    + destruct (allows (enum (self w1)) (term cell)).
      * eapply good_after; [apply run_push| | |].
        -- one_event_ok.
        -- repeat constructor.
        -- apply Hloop. eapply run_cfg; [apply run_push|assumption].
      * intros w' [= <-]. exists [EvReject cell].
        split; [apply run_emit; reflexivity|].
        split; [one_event_ok|].
        split; [reflexivity|]. exists [], cell. split; [reflexivity|constructor].
Qed.

End TraversalInvariant.

Section Termination.
Context `{FO : FloatOps} `{EN : Enumerator}.

(** Only the enumerator's stack changes in the parser during [dfs]. *)
Lemma dfs_cfg mn mx fuel cell words (w w' : World) :
  cfg mn mx w -> outcome_world (dfs fuel cell words w) = Some w' ->
  cfg mn mx w'.
Proof.
  intros Hcfg Hw.
  destruct (dfs_good (fun _ => True) mn mx (fun _ _ _ _ _ => I)
              fuel cell words w Hcfg I w' Hw) as (evs & Hrun & _).
  eapply run_cfg; eauto.
Qed.

Lemma for_each_fuel mn mx (body : string -> World -> Outcome unit)
    (items : list string) :
  (forall x w w', cfg mn mx w -> body x w = Returned tt w' -> cfg mn mx w') ->
  (forall x w, cfg mn mx w -> body x w <> OutOfFuel) ->
  forall w, cfg mn mx w -> for_each body items w <> OutOfFuel.
Proof.
  intros Hkeep Hbody. induction items as [|x rest IH]; intros w Hcfg; simpl.
  - discriminate.
  - pose proof (Hbody x w Hcfg) as Hx.
    destruct (body x w) as [[] w1| | |] eqn:Hb; try discriminate.
    + apply IH. eapply Hkeep; eauto.
    + congruence.
Qed.

(** The recursion is bounded by the distance to the maximum length: with
    more fuel than that, [dfs] ends by itself. *)
Lemma dfs_enough_fuel (fuel : nat) :
  forall cell words w,
    cell_length cell <= max_command_length (self w) ->
    (Z.to_nat (max_command_length (self w) - cell_length cell) < fuel)%nat ->
    dfs fuel cell words w <> OutOfFuel.
Proof.
  induction fuel as [|fuel IH]; intros cell words w Hle Hfuel; [lia|].
  cbn [dfs].
  destruct (String.eqb (term cell) EOF); [discriminate|].
  destruct (String.eqb (term cell) PIPE); [discriminate|].
  set (w1 := if (_ <? _)%Z && _ then _ else _).
  assert (Hmax1 : max_command_length (self w1) = max_command_length (self w)).
  { subst w1. destruct (_ && _); reflexivity. }
  destruct (Z.eqb_spec (cell_length cell) (max_command_length (self w1)))
    as [|Hne]; [discriminate|].
  set (mn := min_command_length (self w1)).
  set (mx := max_command_length (self w1)).
  assert (Hloop : forall w2, cfg mn mx w2 ->
    for_each
      (fun t w' =>
         match local_score (self w') t words with
         | inl e => Raised e w'
         | inr fired_features =>
             dfs fuel (Cell_init t None (Some cell) fired_features) words
               (emit (EvExtend cell
                        (Cell_init t None (Some cell) fired_features)) w')
         end)
      (legal_tokens (enum (self w2))) w2 <> OutOfFuel).
  { intros w2 Hcfg2. apply for_each_fuel with (mn := mn) (mx := mx);
      [| |assumption].
    - intros t w' w'' Hcfg'.
      destruct (local_score (self w') t words) as [e|ff]; [discriminate|].
      intros Hret. eapply dfs_cfg; [|rewrite Hret; reflexivity].
      eapply run_cfg; [apply run_emit; reflexivity|assumption].
    - intros t w' [_ Hmx']. destruct (local_score (self w') t words) as [e|ff];
        [discriminate|].
      apply IH; cbn [self emit cell_length Cell_init]; rewrite Hmx'; subst mx; lia. }
  destruct (negb (String.eqb (term cell) START_SYMBOL)).
  - destruct (allows (enum (self w1)) (term cell)); [|discriminate].
    specialize (Hloop (do_push cell (term cell) w1)).
    destruct (for_each _ _ _) as [[] w3| | |];
      [destruct (negb _); discriminate|discriminate|discriminate|].
    exfalso. apply Hloop; [split; reflexivity|reflexivity].
  - specialize (Hloop w1).
    destruct (for_each _ _ _) as [[] w3| | |];
      [destruct (negb _); discriminate|discriminate|discriminate|].
    exfalso. apply Hloop; [split; reflexivity|reflexivity].
Qed.

End Termination.

Section FuelIndependence.
Context `{FO : FloatOps} `{EN : Enumerator}.

Lemma for_each_ext (body1 body2 : string -> World -> Outcome unit)
    (items : list string) :
  (forall x w, body1 x w <> OutOfFuel -> body2 x w = body1 x w) ->
  forall w, for_each body1 items w <> OutOfFuel ->
            for_each body2 items w = for_each body1 items w.
Proof.
  intros Hext. induction items as [|x rest IH]; intros w Hne; simpl in *.
  - reflexivity.
  - rewrite Hext; [|intros Hx; rewrite Hx in Hne; congruence].
    destruct (body1 x w) as [[] w1| | |]; auto.
Qed.

(** A result obtained with some fuel is the result with any larger fuel. *)
Lemma dfs_fuel_mono (n : nat) :
  forall m cell words w,
    (n <= m)%nat -> dfs n cell words w <> OutOfFuel ->
    dfs m cell words w = dfs n cell words w.
Proof.
  induction n as [|n IH]; intros m cell words w Hle Hne;
    [exfalso; apply Hne; reflexivity|].
  destruct m as [|m]; [lia|]. cbn [dfs] in *.
  destruct (String.eqb (term cell) EOF); [reflexivity|].
  destruct (String.eqb (term cell) PIPE); [reflexivity|].
  set (w1 := if (_ <? _)%Z && _ then _ else _) in *.
  destruct (_ =? _)%Z; [reflexivity|].
  destruct (if negb _ then _ else _) as [[] w2| | |]; try reflexivity.
  rewrite for_each_ext
    with (body1 := fun t w' =>
            match local_score (self w') t words with
            | inl e => Raised e w'
            | inr fired_features =>
                dfs n (Cell_init t None (Some cell) fired_features) words
                  (emit (EvExtend cell
                           (Cell_init t None (Some cell) fired_features)) w')
            end).
  - reflexivity.
  - intros t w' Hb. destruct (local_score (self w') t words); [reflexivity|].
    apply IH; [lia|assumption].
  - intros Hfe. rewrite Hfe in Hne. congruence.
Qed.

End FuelIndependence.

Section RankingFacts.
Context `{FO : FloatOps}.

Lemma insert_desc_perm (x : Cell) (l : list Cell) :
  insert_desc x l ≡ₚ x :: l.
Proof.
  induction l as [|y l IH]; simpl; [reflexivity|].
  destruct (f_lt (score x) (score y)); [|reflexivity].
  rewrite IH. apply Permutation_swap.
Qed.

(** Sorting keeps exactly the cells it was given. *)
Lemma sorted_desc_perm (l : list Cell) : sorted_desc l ≡ₚ l.
Proof.
  induction l as [|x l IH]; simpl; [reflexivity|].
  rewrite insert_desc_perm, IH. reflexivity.
Qed.

Lemma sorted_desc_length (l : list Cell) : length (sorted_desc l) = length l.
Proof. apply Permutation_length, sorted_desc_perm. Qed.



Lemma descending_take (n : nat) (l : list Cell) :
  descending l -> descending (take n l).
Proof.
  unfold descending. intros H. revert n.
  induction H as [|x l Hl IH Hx]; intros [|n]; simpl; try constructor.
  - apply IH.
  - eapply Forall_take. assumption.
Qed.

Lemma slice_to_nonneg {A : Type} (k : Z) (l : list A) :
  0 <= k -> slice_to k l = take (Z.to_nat k) l.
Proof. intros Hk. unfold slice_to. destruct (Z.leb_spec 0 k); [reflexivity|lia]. Qed.

Lemma slice_to_sublist {A : Type} (k : Z) (l : list A) (x : A) :
  x ∈ slice_to k l -> x ∈ l.
Proof.
  unfold slice_to. destruct (0 <=? k)%Z; intros H;
    eapply elem_of_take in H; destruct H as (i & H & _);
    eapply list_elem_of_lookup_2; eauto.
Qed.

End RankingFacts.

Section TraceFacts.
Context `{FO : FloatOps} `{EN : Enumerator}.

Lemma elem_of_recorded (c : Cell) (evs : list event) :
  c ∈ recorded evs <-> EvRecord c ∈ evs.
Proof.
  unfold recorded. rewrite list_elem_of_omap. split.
  - intros (ev & Hin & Hev). destruct ev; try discriminate.
    injection Hev as ->. assumption.
  - intros Hin. exists (EvRecord c). auto.
Qed.

Lemma run_initial (p : Parser) (evs : list event) (w : World) :
  run (initial_world p) evs w -> trace w = evs /\ final_cells w = recorded evs.
Proof. intros (T & F & _). simpl in *. auto. Qed.

Lemma dfs_trace_prefix fuel cell words (w w' : World) :
  outcome_world (dfs fuel cell words w) = Some w' ->
  trace w `prefix_of` trace w'.
Proof.
  intros Hw.
  destruct (dfs_good (fun _ => True) 
              (min_command_length (self w)) (max_command_length (self w))
              (fun _ _ _ _ _ => I) fuel cell words w (conj eq_refl eq_refl)
              I w' Hw) as (evs & (T & _) & _).
  exists evs. assumption.
Qed.

(** A loop that returns has run its body, to the end, on every item, and
    what the body wrote to the history is still there. *)
Lemma for_each_visits (body : string -> World -> Outcome unit)
    (items : list string) :
  (forall x w w', body x w = Returned tt w' ->
                  trace w `prefix_of` trace w') ->
  forall w w', for_each body items w = Returned tt w' ->
    trace w `prefix_of` trace w' /\
    forall x, x ∈ items ->
      exists wa wb, body x wa = Returned tt wb /\
                    trace wb `prefix_of` trace w'.
Proof.
  intros Hmono. induction items as [|x rest IH]; intros w w' Hfe; simpl in *.
  - injection Hfe as <-. split; [reflexivity|]. intros x Hx.
    apply elem_of_nil in Hx. contradiction.
  - destruct (body x w) as [[] w1| | |] eqn:Hb; try discriminate.
    destruct (IH w1 w' Hfe) as [Hpre Hall]. split.
    + etransitivity; [eapply Hmono; eauto|assumption].
    + intros y Hy. apply elem_of_cons in Hy as [->|Hy]; [|auto].
      exists w, w1. auto.
Qed.

Lemma elem_of_prefix {A : Type} (x : A) (l1 l2 : list A) :
  l1 `prefix_of` l2 -> x ∈ l1 -> x ∈ l2.
Proof. intros [k ->] Hx. apply elem_of_app. auto. Qed.

Lemma elem_of_emit (ev : event) (w : World) : ev ∈ trace (emit ev w).
Proof. simpl. apply elem_of_app. right. apply list_elem_of_singleton. reflexivity. Qed.

(** Recording does not end the invocation: a call of [dfs] that returns
    has recorded its cell if the two tests allowed it and, unless the cell
    has the maximum length, has built a child for every token that was
    legal after the cell's own token was pushed. *)
Lemma dfs_record_and_extend fuel cell words (w w' : World) :
  dfs fuel cell words w = Returned tt w' ->
  term cell <> EOF -> term cell <> PIPE ->
  ((min_command_length (self w) < cell_length cell ->
    allow_eof (enum (self w)) = true -> EvRecord cell ∈ trace w') /\
   (cell_length cell <> max_command_length (self w) ->
    forall t,
      t ∈ legal_tokens
            (if String.eqb (term cell) START_SYMBOL then enum (self w)
             else push (enum (self w)) (term cell)) ->
      exists ff,
        EvExtend cell (Cell_init t None (Some cell) ff) ∈ trace w')).
Proof.
  intros Hdfs He Hp.
  assert (Hpre : forall ev w0, trace w0 `prefix_of` trace w' ->
                               ev ∈ trace w0 -> ev ∈ trace w')
    by (intros; eapply elem_of_prefix; eauto).
  destruct fuel as [|fuel]; [discriminate|]. cbn [dfs] in Hdfs.
  destruct (String.eqb_spec (term cell) EOF); [contradiction|].
  destruct (String.eqb_spec (term cell) PIPE); [contradiction|].
  set (w1 := if (_ <? _)%Z && _ then _ else _) in *.
  assert (Hrec : min_command_length (self w) < cell_length cell ->
                 allow_eof (enum (self w)) = true -> EvRecord cell ∈ trace w1).
  { intros Hmin Heof. subst w1. rewrite Heof.
    destruct (Z.ltb_spec (min_command_length (self w)) (cell_length cell));
      [|lia]. simpl. apply elem_of_app. right.
    apply list_elem_of_singleton. reflexivity. }
  assert (Hself1 : self w1 = self w) by (subst w1; destruct (_ && _); reflexivity).
  rewrite Hself1 in Hdfs.
  destruct (Z.eqb_spec (cell_length cell) (max_command_length (self w))).
  { injection Hdfs as <-. split; [assumption|contradiction]. }
  assert (Hloop : forall w2 w3,
    trace w1 `prefix_of` trace w2 ->
    for_each
      (fun t w' =>
         match local_score (self w') t words with
         | inl e => Raised e w'
         | inr fired_features =>
             dfs fuel (Cell_init t None (Some cell) fired_features) words
               (emit (EvExtend cell
                        (Cell_init t None (Some cell) fired_features)) w')
         end)
      (legal_tokens (enum (self w2))) w2 = Returned tt w3 ->
    trace w1 `prefix_of` trace w3 /\
    forall t, t ∈ legal_tokens (enum (self w2)) ->
      exists ff, EvExtend cell (Cell_init t None (Some cell) ff) ∈ trace w3).
  { intros w2 w3 H12 Hfe. apply for_each_visits in Hfe.
    - destruct Hfe as [H23 Hall]. split; [etransitivity; eauto|].
      intros t Ht. destruct (Hall t Ht) as (wa & wb & Hb & Hpb).
      destruct (local_score (self wa) t words) as [e|ff]; [discriminate|].
      exists ff. eapply elem_of_prefix; [exact Hpb|].
      eapply elem_of_prefix; [|apply elem_of_emit].
      eapply dfs_trace_prefix. rewrite Hb. reflexivity.
    - intros t wa wb Hb.
      destruct (local_score (self wa) t words) as [e|ff]; [discriminate|].
      etransitivity; [|eapply dfs_trace_prefix; rewrite Hb; reflexivity].
      exists [EvExtend cell (Cell_init t None (Some cell) ff)]. reflexivity. }
  assert (Hfin : forall w3 w4,
    (if negb (String.eqb
                (List.last (legal_tokens (enum (self w4))) (term cell))
                START_SYMBOL)
     then Returned tt (do_pop cell w3) else Returned tt w3)
    = Returned tt w' -> trace w3 `prefix_of` trace w').
  { intros w3 w4.
    match goal with |- (if ?b then _ else _) = _ -> _ => destruct b end;
      intros H; injection H as <-;
      [exists [EvPop cell]|]; reflexivity. }
  destruct (String.eqb (term cell) START_SYMBOL); simpl in Hdfs.
  - destruct (for_each _ _ w1) as [[] w3| | |] eqn:Hfe; try discriminate.
    apply Hloop in Hfe as [H13 Hall]; [|reflexivity]. apply Hfin in Hdfs.
    split; [intros; apply (Hpre _ w1);
            [etransitivity; [exact H13|exact Hdfs]|auto]|].
    intros _ t Ht. rewrite <- Hself1 in Ht.
    destruct (Hall t Ht) as [ff Hff]. exists ff. eapply Hpre; eauto.
  - destruct (allows (enum (self w)) (term cell)); [|discriminate].
    destruct (for_each _ _ (do_push _ _ _)) as [[] w3| | |] eqn:Hfe;
      try discriminate.
    apply Hloop in Hfe as [H13 Hall];
      [|exists [EvPush cell (term cell)]; reflexivity].
    apply Hfin in Hdfs.
    split; [intros; apply (Hpre _ w1);
            [etransitivity; [exact H13|exact Hdfs]|auto]|].
    intros _ t Ht. rewrite <- Hself1 in Ht.
    destruct (Hall t Ht) as [ff Hff]. exists ff. eapply Hpre; eauto.
Qed.

End TraceFacts.

Section LengthBounds.
Context `{FO : FloatOps} `{EN : Enumerator}.

(** C3. Every cell the traversal records has a length above the minimum
    command length and at most the maximum (a number of tokens, so not
    negative); no cell of maximum length is given a child; and an
    invocation of [dfs] that records its cell goes on to build a child for
    every legal token unless the cell has the maximum length. *)
Theorem recorded_cells_within_length_bounds
    (p : Parser) (words : list string) (fuel : nat) (w : World) :
  0 <= max_command_length p ->
  outcome_world (dfs fuel start_cell words (initial_world p)) = Some w ->
  (forall c, c ∈ final_cells w ->
     min_command_length p < cell_length c <= max_command_length p) /\
  (forall b c, EvExtend b c ∈ trace w ->
     cell_length b < max_command_length p) /\
  (forall n cell w0 w1,
     dfs n cell words w0 = Returned tt w1 ->
     term cell <> EOF -> term cell <> PIPE ->
     min_command_length (self w0) < cell_length cell ->
     allow_eof (enum (self w0)) = true ->
     EvRecord cell ∈ trace w1 /\
     (cell_length cell <> max_command_length (self w0) ->
      forall t,
        t ∈ legal_tokens
              (if String.eqb (term cell) START_SYMBOL then enum (self w0)
               else push (enum (self w0)) (term cell)) ->
        exists ff,
          EvExtend cell (Cell_init t None (Some cell) ff) ∈ trace w1)).
Proof.
  intros Hmax Hw.
  set (Pc := fun c : Cell => cell_length c <= max_command_length p).
  assert (Hclosed : forall b t ff, Pc b ->
            expandable (max_command_length p) b ->
            Pc (Cell_init t None (Some b) ff)).
  { unfold Pc. intros b t ff Hb (_ & _ & Hne). simpl. lia. }
  destruct (dfs_good Pc (min_command_length p) (max_command_length p)
              Hclosed fuel start_cell words (initial_world p)
              (conj eq_refl eq_refl) Hmax w Hw)
    as (evs & Hrun & Hok & _).
  apply run_initial in Hrun as [Htr Hfc].
  rewrite Forall_forall in Hok.
  split; [|split].
  - intros c Hc. rewrite Hfc in Hc. apply elem_of_recorded in Hc.
    destruct (Hok _ Hc) as (HPc & _ & _ & Hmin). unfold Pc in HPc. lia.
  - intros b c Hbc. rewrite Htr in Hbc.
    destruct (Hok _ Hbc) as (HPc & (_ & _ & Hne) & _). unfold Pc in HPc. lia.
  - intros n cell w0 w1 Hdfs He Hp Hmin Heof.
    destruct (dfs_record_and_extend n cell words w0 w1 Hdfs He Hp)
      as [Hrec Hext].
    split; auto.
Qed.

(** With a maximum length that is not negative the traversal ends: one
    unit of fuel more than the maximum is enough. *)
Lemma traversal_terminates (p : Parser) (words : list string) (fuel : nat) :
  0 <= max_command_length p ->
  (Z.to_nat (max_command_length p) < fuel)%nat ->
  dfs fuel start_cell words (initial_world p) <> OutOfFuel.
Proof.
  intros Hmax Hfuel. apply dfs_enough_fuel; simpl; [lia|].
  rewrite Z.sub_0_r. assumption.
Qed.

Lemma parse_terminates (p : Parser) (sent : string) (top_K : Z) (fuel : nat) :
  0 <= max_command_length p ->
  (Z.to_nat (max_command_length p) < fuel)%nat ->
  parse fuel p sent top_K <> OutOfFuel.
Proof.
  intros Hmax Hfuel. unfold parse.
  pose proof (traversal_terminates p (split_ws sent) fuel Hmax Hfuel) as H.
  destruct (dfs fuel start_cell (split_ws sent) (initial_world p));
    congruence.
Qed.

End LengthBounds.

(** The example traversal returns, in the world [Examples.final_world]. *)
Lemma example_traversal_returns :
  outcome_world
    (dfs 5 start_cell (split_ws Examples.sentence) (initial_world Examples.P))
  = Some Examples.final_world.
Proof.
  assert (Hr : is_returned
                 (dfs 5 start_cell (split_ws Examples.sentence) (initial_world Examples.P))
               = true) by (vm_compute; reflexivity).
  unfold Examples.final_world.
  destruct (dfs 5 start_cell (split_ws Examples.sentence) (initial_world Examples.P));
    try discriminate Hr.
  reflexivity.
Defined.

Lemma recorded_cells_within_length_bounds_witness :
  0 <= max_command_length Examples.P /\
  outcome_world
    (dfs 5 start_cell (split_ws Examples.sentence) (initial_world Examples.P))
  = Some Examples.final_world /\
  (forall c, c ∈ final_cells Examples.final_world ->
     min_command_length Examples.P < cell_length c
     <= max_command_length Examples.P).
Proof.
  assert (H1 : 0 <= max_command_length Examples.P)
    by (vm_compute; discriminate).
  split; [exact H1|]. split; [exact example_traversal_returns|].
  exact (proj1 (recorded_cells_within_length_bounds
                  Examples.P (split_ws Examples.sentence) 5 Examples.final_world H1
                  example_traversal_returns)).
Defined.

Section ParseFacts.
Context `{FO : FloatOps} `{EN : Enumerator}.

(** [parse] ends the way its traversal ends, in the same world. *)
Lemma parse_world fuel p sent top_K :
  outcome_world (parse fuel p sent top_K) =
  outcome_world (dfs fuel start_cell (split_ws sent) (initial_world p)).
Proof.
  unfold parse.
  destruct (dfs fuel start_cell (split_ws sent) (initial_world p));
    reflexivity.
Qed.

Lemma parse_returned fuel p sent top_K rows w :
  parse fuel p sent top_K = Returned rows w ->
  dfs fuel start_cell (split_ws sent) (initial_world p) = Returned tt w /\
  rows = map (report (list_to_set (split_ws sent)))
             (ranking (self w) (split_ws sent) (final_cells w) top_K).
Proof.
  unfold parse.
  destruct (dfs fuel start_cell (split_ws sent) (initial_world p))
    as [[] w0| | |]; try discriminate.
  intros [= <- <-]. auto.
Qed.

Lemma parse_exited fuel p sent top_K code w :
  dfs fuel start_cell (split_ws sent) (initial_world p) = Exited code w ->
  parse fuel p sent top_K = Exited code w.
Proof. unfold parse. intros ->. reflexivity. Qed.


Lemma elem_of_ranking (p : Parser) words cells top_K (c : Cell) :
  c ∈ ranking p words cells top_K ->
  exists c0, c0 ∈ cells /\ c = final_score p c0 words.
Proof.
  unfold ranking, apply_final_scores. intros Hc.
  apply slice_to_sublist in Hc. rewrite sorted_desc_perm in Hc.
  apply list_elem_of_fmap in Hc as (c0 & -> & Hc0). eauto.
Qed.

End ParseFacts.

Section Rejection.
Context `{FO : FloatOps} `{EN : Enumerator}.

Lemma no_reject_elem (evs : list event) (c : Cell) :
  no_reject evs -> EvReject c ∈ evs -> False.
Proof.
  unfold no_reject. rewrite Forall_forall. intros H Hin.
  specialize (H _ Hin). discriminate.
Qed.

(** C6. If [allows] refuses the token of the cell [dfs] is about to push,
    that invocation exits with status 1 without pushing; and a run of
    [parse] in which a push was refused is a run that exited with status
    1 (not 0) right after the refusal: no event follows it. *)
Theorem rejected_push_aborts
    (fuel : nat) (p : Parser) (sent : string) (top_K : Z) (w : World) :
  outcome_world (parse fuel p sent top_K) = Some w ->
  (exists c, EvReject c ∈ trace w) ->
  (parse fuel p sent top_K = Exited 1 w /\ 1 <> 0 /\
   exists evs c, trace w = (evs ++ [EvReject c])%list /\ no_reject evs) /\
  (forall n cell words w0,
     term cell <> EOF -> term cell <> PIPE ->
     cell_length cell <> max_command_length (self w0) ->
     term cell <> START_SYMBOL ->
     allows (enum (self w0)) (term cell) = false ->
     exists w1,
       dfs (S n) cell words w0 = Exited 1 w1 /\
       enum (self w1) = enum (self w0) /\
       exists evs, trace w1 = (trace w0 ++ evs ++ [EvReject cell])%list /\
                   forall t, EvPush cell t ∉ evs).
Proof.
  intros Hw [c Hc]. split.
  - rewrite parse_world in Hw.
    destruct (dfs_good (fun _ => True)
                (min_command_length p) (max_command_length p)
                (fun _ _ _ _ _ => I) fuel start_cell (split_ws sent)
                (initial_world p) (conj eq_refl eq_refl) I w Hw)
      as (evs & Hrun & _ & Hshape).
    apply run_initial in Hrun as [Htr _]. rewrite Htr in Hc.
    destruct (dfs fuel start_cell (split_ws sent) (initial_world p))
      as [[] w0|code w0|e w0|] eqn:Hdfs; simpl in Hw, Hshape;
      try discriminate Hw; injection Hw as ->;
      try (exfalso; eapply no_reject_elem; eassumption).
    destruct Hshape as (-> & evs' & c' & -> & Hnr).
    split; [apply parse_exited; assumption|].
    split; [discriminate|]. exists evs', c'. rewrite Htr. auto.
  - intros n cell words w0 He Hp Hmax Hs Hallows. cbn [dfs].
    destruct (String.eqb_spec (term cell) EOF); [contradiction|].
    destruct (String.eqb_spec (term cell) PIPE); [contradiction|].
    set (w1 := if (_ <? _)%Z && _ then _ else _).
    assert (Hw1 : self w1 = self w0 /\
                  exists evs, trace w1 = (trace w0 ++ evs)%list /\
                              forall t, EvPush cell t ∉ evs).
    { subst w1. destruct (_ && _); (split; [reflexivity|]).
      - exists [EvRecord cell]. split; [reflexivity|].
        intros t Ht. apply list_elem_of_singleton in Ht. discriminate.
      - exists []. split; [simpl; rewrite app_nil_r; reflexivity|].
        intros t Ht. apply elem_of_nil in Ht. assumption. }
    destruct Hw1 as (Hself & evs & Htr & Hnp). rewrite Hself.
    destruct (Z.eqb_spec (cell_length cell) (max_command_length (self w0)));
      [contradiction|].
    destruct (String.eqb_spec (term cell) START_SYMBOL); [contradiction|].
    simpl. rewrite Hallows. eexists. split; [reflexivity|].
    simpl. rewrite Hself. split; [reflexivity|].
    exists evs. rewrite Htr, <- app_assoc. auto.
Qed.

End Rejection.

Lemma reject_in_trace `{FO : FloatOps} (evs : list event) :
  existsb is_reject evs = true -> exists c, EvReject c ∈ evs.
Proof.
  induction evs as [|ev evs IH]; simpl; [discriminate|].
  destruct ev; simpl; try (intros H; destruct (IH H) as [c' Hc'];
                           exists c'; apply elem_of_cons; auto).
  intros _. exists c. apply elem_of_cons. auto.
Defined.

Lemma broken_parse_exits :
  outcome_world (parse 5 Examples.PBroken Examples.sentence 50)
  = Some Examples.broken_world.
Proof.
  rewrite parse_world.
  assert (Hr : is_exited
                 (dfs 5 start_cell (split_ws Examples.sentence)
                      (initial_world Examples.PBroken)) = true)
    by (vm_compute; reflexivity).
  unfold Examples.broken_world.
  destruct (dfs 5 start_cell (split_ws Examples.sentence)
                (initial_world Examples.PBroken));
    try discriminate Hr.
  reflexivity.
Defined.

Lemma rejected_push_aborts_witness :
  parse 5 Examples.PBroken Examples.sentence 50
  = Exited 1 Examples.broken_world.
Proof.
  assert (Hc : exists c, EvReject c ∈ trace Examples.broken_world)
    by (apply reject_in_trace; vm_compute; reflexivity).
  exact (proj1 (proj1 (rejected_push_aborts 5 Examples.PBroken
                         Examples.sentence 50 Examples.broken_world
                         broken_parse_exits Hc))).
Defined.

Section PipeAndEof.
Context `{FO : FloatOps} `{EN : Enumerator}.

Lemma chain_clean_unfold (c : Cell) :
  chain_clean c <->
  (term c <> PIPE /\ term c <> EOF) /\
  forall b, backpointer c = Some b -> chain_clean b.
Proof.
  unfold chain_clean. rewrite (chain_unfold c), Forall_cons.
  destruct (backpointer c) as [b|]; split; intros [H1 H2]; split; auto.
  - intros b' [= <-]. assumption.
  - intros b' Hb. discriminate.
Qed.

Lemma genCommand_tokens_set_score v (c : Cell) :
  genCommand_tokens (set_score v c) = genCommand_tokens c.
Proof. reflexivity. Qed.

Lemma chain_clean_set_score v (c : Cell) :
  chain_clean c -> chain_clean (set_score v c).
Proof. rewrite !chain_clean_unfold. simpl. auto. Qed.

(** A token of a reconstructed command is the rendering of the term of a
    cell of the chain. *)
Lemma genCommand_token_source (c : Cell) (tok : string) :
  tok ∈ genCommand_tokens c ->
  exists b, b ∈ chain c /\ tok = render (term b).
Proof.
  rewrite genCommand_tokens_chain. intros Htok.
  assert (Hin : tok ∈ map render (map term (rev (chain c)))).
  { destruct (map render (map term (rev (chain c)))) as [|x l];
      [assumption|]. apply elem_of_cons. right. assumption. }
  apply list_elem_of_fmap in Hin as (t & -> & Hin).
  apply list_elem_of_fmap in Hin as (b & -> & Hin).
  exists b. split; [|reflexivity].
  apply list_elem_of_In. apply in_rev. apply list_elem_of_In. assumption.
Qed.

Lemma star_not_pipe : "*" <> PIPE.
Proof. discriminate. Qed.

(** C9. A cell whose term is the pipe or the end-of-input sentinel is
    never recorded and never given a child.  Hence, when the sentinel is
    not the hole marker itself, no token of a command that [parse] emits
    is the pipe or the sentinel. *)
Theorem pipe_and_eof_never_recorded_or_extended
    (fuel : nat) (p : Parser) (sent : string) (top_K : Z) (w : World) :
  outcome_world (parse fuel p sent top_K) = Some w ->
  (forall c, c ∈ final_cells w -> term c <> PIPE /\ term c <> EOF) /\
  (forall b c, EvExtend b c ∈ trace w -> term b <> PIPE /\ term b <> EOF) /\
  (EOF <> "*" ->
   forall rows, parse fuel p sent top_K = Returned rows w ->
     rows = map (report (list_to_set (split_ws sent)))
                (ranking (self w) (split_ws sent) (final_cells w) top_K) /\
     forall c, c ∈ ranking (self w) (split_ws sent) (final_cells w) top_K ->
       row_command (report (list_to_set (split_ws sent)) c)
       = String.concat " " (genCommand_tokens c) /\
       forall tok, tok ∈ genCommand_tokens c -> tok <> PIPE /\ tok <> EOF).
Proof.
  intros Hw. rewrite parse_world in Hw.
  set (Pc := fun c : Cell => forall b, backpointer c = Some b -> chain_clean b).
  assert (Hclosed : forall b t ff, Pc b ->
            expandable (max_command_length p) b ->
            Pc (Cell_init t None (Some b) ff)).
  { unfold Pc. intros b t ff Hb (He & Hp & _) b' [= <-].
    apply chain_clean_unfold. auto. }
  assert (Hstart : Pc start_cell) by (intros b Hb; discriminate).
  destruct (dfs_good Pc (min_command_length p) (max_command_length p)
              Hclosed fuel start_cell (split_ws sent) (initial_world p)
              (conj eq_refl eq_refl) Hstart w Hw)
    as (evs & Hrun & Hok & _).
  apply run_initial in Hrun as [Htr Hfc]. rewrite Forall_forall in Hok.
  assert (Hrec : forall c, c ∈ final_cells w -> chain_clean c).
  { intros c Hc. rewrite Hfc in Hc. apply elem_of_recorded in Hc.
    destruct (Hok _ Hc) as (HPc & He & Hp & _).
    apply chain_clean_unfold. auto. }
  split; [|split].
  - intros c Hc. apply Hrec in Hc. apply chain_clean_unfold in Hc. tauto.
  - intros b c Hbc. rewrite Htr in Hbc.
    destruct (Hok _ Hbc) as (_ & (He & Hp & _) & _). auto.
  - intros Hstar rows Hparse. apply parse_returned in Hparse as [_ ->].
    split; [reflexivity|]. intros c Hc. split; [reflexivity|].
    intros tok Htok.
    apply elem_of_ranking in Hc as (c0 & Hc0 & ->).
    unfold final_score in Htok. rewrite genCommand_tokens_set_score in Htok.
    apply genCommand_token_source in Htok as (b & Hb & ->).
    apply Hrec in Hc0. unfold chain_clean in Hc0.
    rewrite Forall_forall in Hc0. destruct (Hc0 _ Hb) as [Hbp Hbe].
    unfold render. destruct (String.eqb (term b) HOLE); [|auto].
    split; [apply star_not_pipe|auto].
Qed.

End PipeAndEof.

Lemma example_parse_returns :
  outcome_world (parse 5 Examples.P Examples.sentence 50)
  = Some Examples.final_world.
Proof.
  rewrite parse_world. exact example_traversal_returns.
Defined.

Lemma pipe_and_eof_never_recorded_or_extended_witness :
  outcome_world (parse 5 Examples.P Examples.sentence 50)
  = Some Examples.final_world /\
  (forall c, c ∈ final_cells Examples.final_world ->
             term c <> PIPE /\ term c <> @EOF Examples.E).
Proof.
  split; [exact example_parse_returns|].
  exact (proj1 (pipe_and_eof_never_recorded_or_extended
                  5 Examples.P Examples.sentence 50 Examples.final_world
                  example_parse_returns)).
Defined.

Section PushPopNesting.
Context `{FO : FloatOps} `{EN : Enumerator}.

(** After the loop [for term in self.legal_tokens()] the test before
    [self.pop()] reads the loop variable, not the cell's term: when the
    traversal returns from a start cell that had a legal token to look at,
    and the last of them is not the start symbol, its last act is a pop,
    although the start cell is never pushed. *)
Lemma start_cell_popped_never_pushed
    (fuel : nat) (p : Parser) (words : list string) (w : World) :
  dfs fuel start_cell words (initial_world p) = Returned tt w ->
  EOF <> START_SYMBOL ->
  max_command_length p <> 0 ->
  List.last (legal_tokens (enum p)) START_SYMBOL <> START_SYMBOL ->
  (exists evs, trace w = (evs ++ [EvPop start_cell])%list) /\
  (forall t, EvPush start_cell t ∉ trace w).
Proof.
  intros Hdfs Heof Hmax Hlast. split.
  - destruct fuel as [|fuel]; [discriminate|]. cbn [dfs] in Hdfs.
    change (term start_cell) with START_SYMBOL in Hdfs.
    destruct (String.eqb_spec START_SYMBOL EOF); [congruence|].
    simpl String.eqb in Hdfs. cbv iota in Hdfs.
    set (w1 := if (_ <? _)%Z && _ then _ else _) in *.
    assert (Hself : self w1 = p) by (subst w1; destruct (_ && _); reflexivity).
    rewrite Hself in Hdfs. change (cell_length start_cell) with 0 in Hdfs.
    destruct (Z.eqb_spec 0 (max_command_length p)); [congruence|].
    simpl negb in Hdfs. cbv iota in Hdfs. rewrite Hself in Hdfs.
    destruct (for_each _ _ w1) as [[] w3| | |]; try discriminate.
    destruct (String.eqb_spec
                (List.last (legal_tokens (enum p)) START_SYMBOL)
                START_SYMBOL); [contradiction|].
    simpl in Hdfs. injection Hdfs as <-. exists (trace w3). reflexivity.
  - intros t Hin.
    destruct (dfs_good (fun _ => True)
                (min_command_length p) (max_command_length p)
                (fun _ _ _ _ _ => I) fuel start_cell words
                (initial_world p) (conj eq_refl eq_refl) I w)
      as (evs & Hrun & Hok & _); [rewrite Hdfs; reflexivity|].
    apply run_initial in Hrun as [Htr _]. rewrite Htr in Hin.
    rewrite Forall_forall in Hok.
    destruct (Hok _ Hin) as (_ & _ & Hne & _). apply Hne. reflexivity.
Qed.

End PushPopNesting.

(** C2 (the code departs from it). On the grammar of [ls], [ls -l],
    [ls -a], [ls -l -a] and [cp] the traversal pushes four cells and pops
    five times: the last pop belongs to the start cell, which was never
    pushed. *)
Theorem start_cell_pop_without_push :
  map event_summary (trace Examples.final_world) =
  [("extend", "ls"); ("push", "ls");
   ("extend", "-a"); ("record", "-a"); ("push", "-a");
   ("extend", "<EOF>"); ("pop", "-a");
   ("extend", "-l"); ("record", "-l"); ("push", "-l");
   ("extend", "-a"); ("record", "-a");
   ("extend", "<EOF>"); ("pop", "-l");
   ("extend", "<EOF>"); ("pop", "ls");
   ("extend", "cp"); ("push", "cp");
   ("extend", "<EOF>"); ("pop", "cp");
   ("pop", "__START_SYMBOL__")].
Proof. vm_compute. reflexivity. Qed.

Section Ungrounded.
Context `{FO : FloatOps} `{EN : Enumerator}.

Lemma for_each_map_world (f : World -> World)
    (body : string -> World -> Outcome unit) (items : list string) :
  (forall x w, body x (f w) = map_world f (body x w)) ->
  forall w, for_each body items (f w) = map_world f (for_each body items w).
Proof.
  intros Hbody. induction items as [|x rest IH]; intros w; simpl;
    [reflexivity|].
  rewrite Hbody. destruct (body x w) as [[] w1| | |]; simpl; auto.
Qed.

Lemma local_score_ungrounded (v : float) (w : World) t words :
  local_score (self (with_ungrounded v w)) t words
  = local_score (self w) t words.
Proof. reflexivity. Qed.

(** The traversal never reads [ungrounded_token_score]: changing it in
    the parser changes nothing but that field of the resulting parser. *)
Lemma dfs_ungrounded (v : float) (fuel : nat) :
  forall cell words w,
    dfs fuel cell words (with_ungrounded v w)
    = map_world (with_ungrounded v) (dfs fuel cell words w).
Proof.
  induction fuel as [|fuel IH]; intros cell words w; [reflexivity|].
  cbn [dfs].
  destruct (String.eqb (term cell) EOF); [reflexivity|].
  destruct (String.eqb (term cell) PIPE); [reflexivity|].
  change (min_command_length (self (with_ungrounded v w)))
    with (min_command_length (self w)).
  change (enum (self (with_ungrounded v w))) with (enum (self w)).
  set (c := (_ <? _)%Z && _).
  set (w1 := if c then do_record cell w else w).
  replace (if c then do_record cell (with_ungrounded v w)
           else with_ungrounded v w)
    with (with_ungrounded v w1) by (subst w1; destruct c; reflexivity).
  clearbody w1. clear c.
  change (max_command_length (self (with_ungrounded v w1)))
    with (max_command_length (self w1)).
  destruct (_ =? _)%Z; [reflexivity|].
  assert (Hloop : forall w2,
    match
      for_each
        (fun t w' =>
           match local_score (self w') t words with
           | inl e => Raised e w'
           | inr fired_features =>
               dfs fuel (Cell_init t None (Some cell) fired_features) words
                 (emit (EvExtend cell
                          (Cell_init t None (Some cell) fired_features)) w')
           end)
        (legal_tokens (enum (self (with_ungrounded v w2))))
        (with_ungrounded v w2)
    with
    | Returned _ w3 =>
        if negb (String.eqb
                   (List.last
                      (legal_tokens (enum (self (with_ungrounded v w2))))
                      (term cell))
                   START_SYMBOL)
        then Returned tt (do_pop cell w3)
        else Returned tt w3
    | o => o
    end
    = map_world (with_ungrounded v)
        match
          for_each
            (fun t w' =>
               match local_score (self w') t words with
               | inl e => Raised e w'
               | inr fired_features =>
                   dfs fuel (Cell_init t None (Some cell) fired_features)
                     words
                     (emit (EvExtend cell
                              (Cell_init t None (Some cell) fired_features))
                           w')
               end)
            (legal_tokens (enum (self w2))) w2
        with
        | Returned _ w3 =>
            if negb (String.eqb
                       (List.last (legal_tokens (enum (self w2)))
                                  (term cell))
                       START_SYMBOL)
            then Returned tt (do_pop cell w3)
            else Returned tt w3
        | o => o
        end).
  { intros w2.
    change (enum (self (with_ungrounded v w2))) with (enum (self w2)).
    rewrite for_each_map_world.
    - destruct (for_each _ _ w2) as [[] w3| | |]; try reflexivity.
      simpl map_world. destruct (negb _); reflexivity.
    - intros t w'. rewrite local_score_ungrounded.
      destruct (local_score (self w') t words); [reflexivity|].
      apply (IH _ words (emit _ w')). }
  destruct (negb (String.eqb (term cell) START_SYMBOL)).
  - change (enum (self (with_ungrounded v w1))) with (enum (self w1)).
    destruct (allows (enum (self w1)) (term cell)); [|reflexivity].
    apply (Hloop (do_push cell (term cell) w1)).
  - apply Hloop.
Qed.

Lemma final_score_ungrounded (v : float) (p : Parser) cell words :
  final_score (set_ungrounded_token_score v p) cell words
  = final_score p cell words.
Proof. reflexivity. Qed.

(** C10. The ungrounded-token weight is set by the constructor (to -1e-5)
    and read nowhere: for the same parser otherwise, sentence and [top_K],
    any two values of the field give the same end of [parse] and the same
    printed ranking, scores included. *)
Theorem ungrounded_token_score_unused
    (v1 v2 : float) (fuel : nat) (p : Parser) (sent : string) (top_K : Z) :
  observe (parse fuel (set_ungrounded_token_score v1 p) sent top_K)
  = observe (parse fuel (set_ungrounded_token_score v2 p) sent top_K) /\
  (forall g min_cl max_cl,
     ungrounded_token_score (Parser_init g min_cl max_cl) = neg_1e_5).
Proof.
  split; [|reflexivity].
  assert (H : forall v,
    observe (parse fuel (set_ungrounded_token_score v p) sent top_K)
    = observe (parse fuel p sent top_K)).
  { intros v. unfold parse.
    change (initial_world (set_ungrounded_token_score v p))
      with (with_ungrounded v (initial_world p)).
    rewrite dfs_ungrounded.
    destruct (dfs fuel start_cell (split_ws sent) (initial_world p))
      as [[] w| | |]; reflexivity. }
  rewrite (H v1), (H v2). reflexivity.
Qed.

End Ungrounded.

Section CellConstruction.
Context `{FO : FloatOps} `{EN : Enumerator}.

(** C4. A cell built on a backpointer [b] with fired features [ff] has
    the score of [b] plus the sum of the weights in [ff] and the length of
    [b] plus one; a cell built without backpointer, as the start cell is,
    has score 0 and length 0. *)
Theorem Cell_init_score_and_length
    (t : string) (p : option Cell) (b : Cell) (ff : gmap string float) :
  score (Cell_init t p (Some b) ff)
  = f_add (score b) (foldl f_add f_zero (map snd (map_to_list ff))) /\
  cell_length (Cell_init t p (Some b) ff) = cell_length b + 1 /\
  score (Cell_init t p None ff) = f_zero /\
  cell_length (Cell_init t p None ff) = 0 /\
  backpointer start_cell = None /\
  score start_cell = f_zero /\ cell_length start_cell = 0.
Proof.
  repeat split. simpl. f_equal. unfold sum_values.
  generalize f_zero. induction (map_to_list ff) as [|kv l IH]; intros acc.
  - reflexivity.
  - simpl. apply IH.
Qed.

(** C8. The command of a constructed cell of length N is N tokens joined
    by single spaces: the terms of the chain from the cell after the root
    down to the cell itself, in that order, each term that is the hole
    symbol replaced by the marker. *)
Theorem genCommand_tokens_of_chain (c : Cell) :
  constructed c ->
  genCommand c = String.concat " " (genCommand_tokens c) /\
  genCommand_tokens c
  = map (fun t => if String.eqb t HOLE then "*" else t)
        (map term (List.tail (rev (chain c)))) /\
  Z.of_nat (length (genCommand_tokens c)) = cell_length c.
Proof.
  intros Hc. split; [reflexivity|].
  assert (Htok : genCommand_tokens c
                 = map render (map term (List.tail (rev (chain c))))).
  { rewrite genCommand_tokens_chain.
    destruct (rev (chain c)); reflexivity. }
  split; [exact Htok|].
  rewrite Htok, !length_map, (constructed_length c Hc).
  assert (Hlen : length (List.tail (rev (chain c)))
                 = (length (chain c) - 1)%nat).
  { rewrite <- (length_rev (chain c)). destruct (rev (chain c)); simpl; lia. }
  rewrite Hlen, (chain_unfold c). simpl. lia.
Qed.

End CellConstruction.

Example genCommand_ls_l :
  @genCommand Fixed5.ops Examples.E
    (Cell_init "-l" None (Some (Cell_init "ls" None (Some start_cell) ∅)) ∅)
  = "ls -l".
Proof. vm_compute. reflexivity. Qed.

Example genCommand_hole :
  @genCommand Fixed5.ops Examples.E
    (Cell_init "<HOLE>" None
       (Some (Cell_init "cp" None (Some start_cell) ∅)) ∅)
  = "cp *".
Proof. vm_compute. reflexivity. Qed.

Lemma genCommand_tokens_of_chain_witness :
  constructed
    (Cell_init (FO := Fixed5.ops) "-l" None
       (Some (Cell_init "ls" None (Some start_cell) ∅)) ∅) /\
  Z.of_nat
    (length
       (@genCommand_tokens Fixed5.ops Examples.E
          (Cell_init "-l" None
             (Some (Cell_init "ls" None (Some start_cell) ∅)) ∅)))
  = cell_length
      (Cell_init (FO := Fixed5.ops) "-l" None
         (Some (Cell_init "ls" None (Some start_cell) ∅)) ∅).
Proof.
  assert (H : constructed
    (Cell_init (FO := Fixed5.ops) "-l" None
       (Some (Cell_init "ls" None (Some start_cell) ∅)) ∅)).
  { apply constructed_next. apply constructed_next.
    apply constructed_start. }
  split; [exact H|].
  exact (proj2 (proj2 (genCommand_tokens_of_chain (EN := Examples.E) _ H))).
Defined.

Section Ranking.
Context `{FO : FloatOps} `{EN : Enumerator}.



End Ranking.

Lemma returned_in_world `{FO : FloatOps} `{EN : Enumerator} {A : Type}
    (o : Outcome A) (w : World) :
  outcome_world o = Some w -> is_returned o = true ->
  exists a, o = Returned a w.
Proof.
  destruct o as [a w0| | |]; simpl; intros Hw Hr; try discriminate Hr.
  injection Hw as ->. exists a. reflexivity.
Defined.

(** The ranking of the example: three commands were recorded, in the
    order [ls -a], [ls -l], [ls -l -a]. *)
Example example_ranking :
  map (fun r => (row_command r, row_score r, row_length r))
      (rows_of (parse 5 Examples.P Examples.sentence 50))
  = [("ls -l -a", 120000, 3); ("ls -l", 80000, 2); ("ls -a", 70000, 2)].
Proof. vm_compute. reflexivity. Qed.

Example example_ranking_top_2 :
  map row_command (rows_of (parse 5 Examples.P Examples.sentence 2))
  = ["ls -l -a"; "ls -l"].
Proof. vm_compute. reflexivity. Qed.

Section PhraseTable.
Context `{FO : FloatOps} `{EN : Enumerator}.

Lemma lookup2_store (k1 k2 k1' k2' : string) (v : float)
    (d : gmap string (gmap string float)) :
  lookup2 k1 k2 (store k1' k2' v d)
  = if decide (k1 = k1' /\ k2 = k2') then Some v else lookup2 k1 k2 d.
Proof.
  unfold lookup2, store. destruct (decide (k1 = k1')) as [->|Hk1].
  - rewrite lookup_insert_eq. simpl.
    destruct (decide (k2 = k2')) as [->|Hk2].
    + rewrite lookup_insert_eq. rewrite decide_True; auto.
    + rewrite lookup_insert_ne by auto.
      rewrite decide_False by tauto.
      destruct (d !! k1'); simpl; [reflexivity|apply lookup_empty].
  - rewrite lookup_insert_ne by auto. rewrite decide_False by tauto.
    reflexivity.
Qed.

Lemma read_record_well_formed (line p0 p1 p2 : string) (more : list string)
    (s1 s2 s3 s4 : float) :
  split_bars (strip line) = p0 :: p1 :: p2 :: more ->
  floats_of (split_ws p2) = Some [s1; s2; s3; s4] ->
  read_record line = inr (strip p0, strip p1, s4).
Proof. unfold read_record. intros -> Hf. simpl. rewrite Hf. reflexivity. Qed.

Lemma read_record_fails_iff (line : string) :
  (exists e, read_record line = inl e) <-> malformed line.
Proof.
  unfold read_record, malformed, four_floats.
  destruct (split_bars (strip line)) as [|p0 [|p1 [|p2 more]]]; simpl;
    try (split; [auto|intros _; eexists; reflexivity]).
  destruct (floats_of (split_ws p2)) as [[|a [|b [|c [|d [|e l]]]]]|];
    (split;
     [intros [x Hx] (a' & b' & c' & d' & H); discriminate
     |intros H; try (eexists; reflexivity)]).
  exfalso. apply H. eauto.
Qed.

(** Records stored earlier stay unless a later line has the same phrase
    and snippet. *)
Lemma load_lines_keeps (ph sn : string) (v : float) (post : list string) :
  forall p2t t2p p2t' t2p',
    load_lines post p2t t2p = (p2t', t2p', None) ->
    (forall l ph' sn' v', l ∈ post -> read_record l = inr (ph', sn', v') ->
                          (ph', sn') <> (ph, sn)) ->
    lookup2 ph sn p2t = Some v -> lookup2 sn ph t2p = Some v ->
    lookup2 ph sn p2t' = Some v /\ lookup2 sn ph t2p' = Some v.
Proof.
  induction post as [|l post IH]; intros p2t t2p p2t' t2p' Hload Hlater H1 H2;
    simpl in Hload.
  - injection Hload as <- <-. auto.
  - destruct (read_record l) as [e|[[ph' sn'] v']] eqn:Hl; [discriminate|].
    assert (Hne : (ph', sn') <> (ph, sn))
      by (eapply Hlater; [apply elem_of_cons; left; reflexivity|exact Hl]).
    eapply IH; [exact Hload| | |].
    + intros l0 ph0 sn0 v0 Hin. apply Hlater. apply elem_of_cons. auto.
    + rewrite lookup2_store, decide_False; [assumption|].
      intros [-> ->]. apply Hne. reflexivity.
    + rewrite lookup2_store, decide_False; [assumption|].
      intros [-> ->]. apply Hne. reflexivity.
Qed.

Lemma load_lines_last (ph sn : string) (v : float) (line : string)
    (post pre : list string) :
  forall p2t t2p p2t' t2p',
    load_lines (pre ++ line :: post) p2t t2p = (p2t', t2p', None) ->
    read_record line = inr (ph, sn, v) ->
    (forall l ph' sn' v', l ∈ post -> read_record l = inr (ph', sn', v') ->
                          (ph', sn') <> (ph, sn)) ->
    lookup2 ph sn p2t' = Some v /\ lookup2 sn ph t2p' = Some v.
Proof.
  induction pre as [|l pre IH]; intros p2t t2p p2t' t2p' Hload Hline Hlater;
    simpl in Hload.
  - rewrite Hline in Hload.
    eapply load_lines_keeps; [exact Hload|exact Hlater| |];
      rewrite lookup2_store, decide_True; auto.
  - destruct (read_record l) as [e|[[ph' sn'] v']]; [discriminate|].
    eapply IH; eauto.
Qed.

(** The loader stops with an exception exactly when a line is malformed,
    and then at the first such line, with the tables of the lines before
    it. *)
Lemma load_lines_fails (lines : list string) :
  forall p2t t2p p2t' t2p' r,
    load_lines lines p2t t2p = (p2t', t2p', r) ->
    match r with
    | None => Forall (fun l => ~ malformed l) lines
    | Some e =>
        exists pre line post,
          lines = (pre ++ line :: post)%list /\ malformed line /\
          read_record line = inl e /\
          Forall (fun l => ~ malformed l) pre /\
          load_lines pre p2t t2p = (p2t', t2p', None)
    end.
Proof.
  induction lines as [|l lines IH]; intros p2t t2p p2t' t2p' r Hload;
    simpl in Hload.
  - injection Hload as <- <- <-. constructor.
  - destruct (read_record l) as [e|[[ph sn] v]] eqn:Hl.
    + injection Hload as <- <- <-. exists [], l, lines.
      split; [reflexivity|]. split; [apply read_record_fails_iff; eauto|].
      split; [assumption|]. split; [constructor|reflexivity].
    + assert (Hok : ~ malformed l).
      { intros Hm. apply read_record_fails_iff in Hm as [e He]. congruence. }
      specialize (IH _ _ _ _ _ Hload). destruct r as [e|].
      * destruct IH as (pre & line & post & -> & Hm & Hr & Hpre & Hl').
        exists (l :: pre), line, post. split; [reflexivity|].
        split; [assumption|]. split; [assumption|].
        split; [constructor; assumption|]. simpl. rewrite Hl. assumption.
      * constructor; assumption.
Qed.

Lemma make_phrase_table_load (self : Parser) (lines : list string) :
  P2TScores (fst (make_phrase_table self lines))
    = Some (fst (fst (load_lines lines ∅ ∅))) /\
  T2PScores (fst (make_phrase_table self lines))
    = Some (snd (fst (load_lines lines ∅ ∅))) /\
  snd (make_phrase_table self lines) = snd (load_lines lines ∅ ∅).
Proof.
  unfold make_phrase_table.
  destruct (load_lines lines ∅ ∅) as [[p2t t2p] r]. auto.
Qed.

(** C1 (as the code has it). For a line whose first three parts are a
    phrase, a snippet and four floats, [make_phrase_table] stores the
    fourth float, under the phrase and the snippet stripped of whitespace,
    in both tables; it is the weight found there when the load has
    succeeded, unless a later line has the same phrase and snippet. *)
Theorem phrase_table_stores_fourth_weight
    (self self' : Parser) (pre post : list string)
    (line p0 p1 p2 : string) (more : list string) (s1 s2 s3 s4 : float) :
  split_bars (strip line) = p0 :: p1 :: p2 :: more ->
  floats_of (split_ws p2) = Some [s1; s2; s3; s4] ->
  (forall l ph sn v, l ∈ post -> read_record l = inr (ph, sn, v) ->
                     (ph, sn) <> (strip p0, strip p1)) ->
  make_phrase_table self (pre ++ line :: post) = (self', None) ->
  P2T_weight self' (strip p0) (strip p1) = Some s4 /\
  T2P_weight self' (strip p1) (strip p0) = Some s4.
Proof.
  intros Hparts Hfloats Hlater Hmake.
  pose proof (read_record_well_formed _ _ _ _ _ _ _ _ _ Hparts Hfloats)
    as Hline.
  destruct (make_phrase_table_load self (pre ++ line :: post))
    as (HP & HT & Hr).
  rewrite Hmake in HP, HT, Hr. simpl in HP, HT, Hr.
  destruct (load_lines (pre ++ line :: post) ∅ ∅) as [[p2t t2p] r] eqn:Hload.
  simpl in HP, HT, Hr. subst r.
  destruct (load_lines_last _ _ _ _ _ _ _ _ _ _ Hload Hline Hlater)
    as [H1 H2].
  unfold P2T_weight, T2P_weight. rewrite HP, HT. simpl. auto.
Qed.

(** C7 (as the code has it). [make_phrase_table] raises exactly when some
    line has fewer than three parts or a third part that is not four
    floats; parts after the third are not looked at.  It raises at the
    first such line: no later line is read and nothing is returned, and the
    parser then holds the tables of the lines before that one. *)
Theorem make_phrase_table_fails_when_malformed
    (self : Parser) (lines : list string) :
  ((exists line, line ∈ lines /\ malformed line) <->
   (exists e, snd (make_phrase_table self lines) = Some e)) /\
  (forall e, snd (make_phrase_table self lines) = Some e ->
     exists pre line post,
       lines = (pre ++ line :: post)%list /\ malformed line /\
       read_record line = inl e /\
       Forall (fun l => ~ malformed l) pre /\
       make_phrase_table self pre
       = (fst (make_phrase_table self lines), None)).
Proof.
  destruct (make_phrase_table_load self lines) as (HP & HT & Hr).
  destruct (load_lines lines ∅ ∅) as [[p2t t2p] r] eqn:Hload.
  simpl in HP, HT, Hr. pose proof (load_lines_fails _ _ _ _ _ _ Hload) as Hf.
  split.
  - rewrite Hr. split.
    + intros (line & Hin & Hm). destruct r as [e|]; [eauto|].
      rewrite Forall_forall in Hf. exfalso. exact (Hf _ Hin Hm).
    + intros [e ->]. destruct Hf as (pre & line & post & -> & Hm & _).
      exists line. split; [|assumption].
      apply elem_of_app. right. apply elem_of_cons. auto.
  - intros e He. rewrite Hr in He. rewrite He in Hf, Hload.
    destruct Hf as (pre & line & post & -> & Hm & Hrec & Hpre & Hl).
    exists pre, line, post. split; [reflexivity|].
    split; [assumption|]. split; [assumption|]. split; [assumption|].
    unfold make_phrase_table. rewrite Hl, Hload. reflexivity.
Qed.

End PhraseTable.

Lemma pair_with_snd {A B : Type} (x : A * B) (b : B) :
  snd x = b -> x = (fst x, b).
Proof. destruct x. simpl. intros ->. reflexivity. Defined.

(** The record of the specification's example: the weight stored is 0.3,
    the fourth float, not 0.9, the third. *)
Lemma third_weight_is_not_stored :
  snd (make_phrase_table Examples.P0 [Examples.record_line]) = None /\
  P2T_weight (fst (make_phrase_table Examples.P0 [Examples.record_line]))
             "copy file" "cp"
  = float_of_string "0.3" /\
  P2T_weight (fst (make_phrase_table Examples.P0 [Examples.record_line]))
             "copy file" "cp"
  <> float_of_string "0.9" /\
  T2P_weight (fst (make_phrase_table Examples.P0 [Examples.record_line]))
             "cp" "copy file"
  <> float_of_string "0.9".
Proof.
  split; [vm_compute; reflexivity|].
  split; [vm_compute; reflexivity|].
  split; vm_compute; intros H; discriminate H.
Qed.

Lemma phrase_table_stores_fourth_weight_witness :
  make_phrase_table Examples.P0
    ([] ++ Examples.record_line :: ["long ||| -l ||| 0.1 0.2 0.9 0.5"])
  = (fst (make_phrase_table Examples.P0
            ([] ++ Examples.record_line
                :: ["long ||| -l ||| 0.1 0.2 0.9 0.5"])), None) /\
  P2T_weight
    (fst (make_phrase_table Examples.P0
            ([] ++ Examples.record_line
                :: ["long ||| -l ||| 0.1 0.2 0.9 0.5"])))
    (strip "copy file ") (strip " cp ")
  = Some 30000.
Proof.
  assert (H1 : split_bars (strip Examples.record_line)
               = ["copy file "; " cp "; " 0.1 0.2 0.9 0.3"])
    by (vm_compute; reflexivity).
  assert (H2 : floats_of (FO := Fixed5.ops) (split_ws " 0.1 0.2 0.9 0.3")
               = Some [10000; 20000; 90000; 30000])
    by (vm_compute; reflexivity).
  assert (H3 : forall l ph sn (v : @float Fixed5.ops),
            l ∈ ["long ||| -l ||| 0.1 0.2 0.9 0.5"] ->
            read_record l = inr (ph, sn, v) ->
            (ph, sn) <> (strip "copy file ", strip " cp ")).
  { intros l ph sn v Hl Hr. apply list_elem_of_singleton in Hl. subst l.
    vm_compute in Hr. injection Hr as <- <- <-.
    vm_compute. intros H. discriminate H. }
  assert (H4 : make_phrase_table Examples.P0
                 ([] ++ Examples.record_line
                     :: ["long ||| -l ||| 0.1 0.2 0.9 0.5"])
               = (fst (make_phrase_table Examples.P0
                         ([] ++ Examples.record_line
                             :: ["long ||| -l ||| 0.1 0.2 0.9 0.5"])), None))
    by (apply pair_with_snd; vm_compute; reflexivity).
  split; [exact H4|].
  exact (proj1 (phrase_table_stores_fourth_weight
                  (FO := Fixed5.ops) (EN := Examples.E)
                  Examples.P0 _ [] ["long ||| -l ||| 0.1 0.2 0.9 0.5"]
                  Examples.record_line "copy file " " cp "
                  " 0.1 0.2 0.9 0.3" []
                  10000 20000 90000 30000 H1 H2 H3 H4)).
Defined.

(** A line with five parts does not split into exactly three, and loads
    without an exception: the parts after the third are ignored. *)
Lemma extra_parts_are_accepted :
  length (split_bars (strip Examples.long_record_line)) = 5%nat /\
  snd (make_phrase_table Examples.P0 [Examples.long_record_line]) = None /\
  P2T_weight
    (fst (make_phrase_table Examples.P0 [Examples.long_record_line]))
    "copy file" "cp"
  = float_of_string "0.3".
Proof. repeat split; vm_compute; reflexivity. Qed.

(** A failing load leaves the earlier records in the parser. *)
Example tables_before_failure_remain :
  snd (make_phrase_table Examples.P0 [Examples.record_line; "ls ||| list"])
  = Some IndexError /\
  P2T_weight
    (fst (make_phrase_table Examples.P0
            [Examples.record_line; "ls ||| list"]))
    "copy file" "cp"
  = float_of_string "0.3".
Proof. split; vm_compute; reflexivity. Qed.

Lemma make_phrase_table_fails_when_malformed_witness :
  exists e,
    snd (make_phrase_table Examples.P0 [Examples.record_line; "ls ||| list"])
    = Some e.
Proof.
  apply (proj1 (make_phrase_table_fails_when_malformed
                  (FO := Fixed5.ops) (EN := Examples.E) Examples.P0
                  [Examples.record_line; "ls ||| list"])).
  exists "ls ||| list". split.
  - apply elem_of_cons. right. apply elem_of_cons. left. reflexivity.
  - vm_compute. exact I.
Defined.

(** * Further properties *)

Section StringFacts.

Lemma rstrip_idempotent (s : string) : rstrip (rstrip s) = rstrip s.
Proof.
  induction s as [|c s IH]; simpl; [reflexivity|].
  destruct (is_space c && String.eqb (rstrip s) "") eqn:Hc; [reflexivity|].
  simpl. rewrite IH, Hc. reflexivity.
Qed.

Lemma lstrip_rstrip_lstrip (s : string) :
  lstrip (rstrip (lstrip s)) = rstrip (lstrip s).
Proof.
  induction s as [|c s IH]; simpl; [reflexivity|].
  destruct (is_space c) eqn:Hc; [exact IH|].
  simpl. rewrite Hc. simpl. rewrite Hc. reflexivity.
Qed.

(** Stripping twice is stripping once. *)
Lemma strip_idempotent (s : string) : strip (strip s) = strip s.
Proof.
  unfold strip. rewrite lstrip_rstrip_lstrip. apply rstrip_idempotent.
Qed.

Lemma has_space_app (a b : string) :
  has_space (a ++ b) = has_space a || has_space b.
Proof.
  induction a as [|c a IH]; simpl; [reflexivity|].
  rewrite IH. apply orb_assoc.
Qed.

Lemma append_not_empty (a : string) (c : ascii) : a ++ String c "" <> "".
Proof. destruct a; discriminate. Qed.

Lemma split_ws_from_tokens (s : string) :
  forall cur x,
    has_space cur = false -> x ∈ split_ws_from s cur ->
    x <> "" /\ has_space x = false.
Proof.
  induction s as [|c s IH]; intros cur x Hcur Hx; simpl in Hx.
  - destruct (String.eqb_spec cur ""); [apply elem_of_nil in Hx; contradiction|].
    apply list_elem_of_singleton in Hx. subst. auto.
  - destruct (is_space c) eqn:Hc.
    + destruct (String.eqb_spec cur "").
      * eapply IH; [|exact Hx]. reflexivity.
      * apply elem_of_cons in Hx as [->|Hx]; [auto|].
        eapply IH; [|exact Hx]. reflexivity.
    + eapply IH; [|exact Hx].
      rewrite has_space_app. simpl. rewrite Hcur, Hc. reflexivity.
Qed.

(** The words [str.split()] gives are not empty and hold no whitespace. *)
Lemma split_ws_tokens (s x : string) :
  x ∈ split_ws s -> x <> "" /\ has_space x = false.
Proof. apply split_ws_from_tokens. reflexivity. Qed.

End StringFacts.

Section PhraseTableMore.
Context `{FO : FloatOps} `{EN : Enumerator}.

Lemma load_lines_transposed (lines : list string) :
  forall p2t t2p p2t' t2p' r,
    load_lines lines p2t t2p = (p2t', t2p', r) ->
    (forall a b, lookup2 a b p2t = lookup2 b a t2p) ->
    forall a b, lookup2 a b p2t' = lookup2 b a t2p'.
Proof.
  induction lines as [|l lines IH]; intros p2t t2p p2t' t2p' r Hload Hsym;
    simpl in Hload.
  - injection Hload as <- <- _. exact Hsym.
  - destruct (read_record l) as [e|[[ph sn] v]].
    + injection Hload as <- <- _. exact Hsym.
    + eapply IH; [exact Hload|]. intros a b.
      rewrite !lookup2_store, Hsym.
      destruct (decide (a = ph /\ b = sn)) as [[-> ->]|Hne].
      * rewrite decide_True; auto.
      * rewrite decide_False; [reflexivity|tauto].
Qed.

Lemma lookup2_empty (a b : string) :
  lookup2 a b (∅ : gmap string (gmap string float)) = None.
Proof. unfold lookup2. rewrite lookup_empty. reflexivity. Qed.

Lemma tables_transposed (self : Parser) (lines : list string)
    (phrase snippet : string) :
  P2T_weight (fst (make_phrase_table self lines)) phrase snippet
  = T2P_weight (fst (make_phrase_table self lines)) snippet phrase.
Proof.
  destruct (make_phrase_table_load self lines) as (HP & HT & _).
  unfold P2T_weight, T2P_weight. rewrite HP, HT. simpl.
  destruct (load_lines lines ∅ ∅) as [[p2t t2p] r] eqn:Hload. simpl.
  eapply load_lines_transposed; [exact Hload|].
  intros a b. rewrite !lookup2_empty. reflexivity.
Qed.

(** The two tables [make_phrase_table] leaves in the parser are each
    other's transpose, whether the load succeeded or not: the weight of
    a snippet under a phrase is the weight of the phrase under the
    snippet. *)
Theorem phrase_tables_are_transposed
    (self : Parser) (lines : list string) (phrase snippet : string) :
  P2T_weight (fst (make_phrase_table self lines)) phrase snippet
  = T2P_weight (fst (make_phrase_table self lines)) snippet phrase.
Proof. apply tables_transposed. Qed.

Lemma read_record_stripped (line ph sn : string) (v : float) :
  read_record line = inr (ph, sn, v) -> strip ph = ph /\ strip sn = sn.
Proof.
  unfold read_record.
  destruct (split_bars (strip line)) as [|p0 [|p1 [|p2 more]]]; simpl;
    try discriminate.
  destruct (floats_of (split_ws p2)) as [[|a [|b [|c [|d [|e l]]]]]|];
    try discriminate.
  intros [= <- <- _]. split; apply strip_idempotent.
Qed.

Lemma load_lines_origin (ph sn : string) (v : float) (lines : list string) :
  forall p2t t2p p2t' t2p' r,
    load_lines lines p2t t2p = (p2t', t2p', r) ->
    lookup2 ph sn p2t' = Some v ->
    lookup2 ph sn p2t = Some v \/
    exists line, line ∈ lines /\ read_record line = inr (ph, sn, v).
Proof.
  induction lines as [|l lines IH]; intros p2t t2p p2t' t2p' r Hload Hv;
    simpl in Hload.
  - injection Hload as <- _ _. auto.
  - destruct (read_record l) as [e|[[ph' sn'] v']] eqn:Hl.
    + injection Hload as <- _ _. auto.
    + destruct (IH _ _ _ _ _ Hload Hv) as [Hold|(line & Hin & Hline)].
      * rewrite lookup2_store in Hold.
        destruct (decide (ph = ph' /\ sn = sn')) as [[-> ->]|Hne]; [|auto].
        injection Hold as ->. right. exists l.
        split; [apply elem_of_cons; auto|assumption].
      * right. exists line. split; [apply elem_of_cons; auto|assumption].
Qed.

(** Nothing is in the phrase table that is not in the file: a weight the
    parser holds for a phrase and a snippet after [make_phrase_table] is
    the one a line of the input gives them, and both keys are free of
    surrounding whitespace. *)
Theorem phrase_table_entries_come_from_lines
    (self : Parser) (lines : list string) (phrase snippet : string)
    (v : float) :
  P2T_weight (fst (make_phrase_table self lines)) phrase snippet = Some v ->
  (exists line, line ∈ lines /\ read_record line = inr (phrase, snippet, v))
  /\ strip phrase = phrase /\ strip snippet = snippet.
Proof.
  destruct (make_phrase_table_load self lines) as (HP & _ & _).
  unfold P2T_weight. rewrite HP. simpl.
  destruct (load_lines lines ∅ ∅) as [[p2t t2p] r] eqn:Hload. simpl.
  intros Hv.
  destruct (load_lines_origin _ _ _ _ _ _ _ _ _ Hload Hv)
    as [Hold|(line & Hin & Hline)].
  - rewrite lookup2_empty in Hold. discriminate.
  - split; [eauto|]. eapply read_record_stripped. exact Hline.
Qed.

End PhraseTableMore.

Lemma phrase_table_entries_come_from_lines_witness :
  P2T_weight (fst (make_phrase_table Examples.P0 Examples.table_lines))
             "long" "-l" = Some 50000 /\
  exists line,
    line ∈ Examples.table_lines /\
    read_record (FO := Fixed5.ops) line = inr ("long", "-l", 50000).
Proof.
  assert (H : P2T_weight
                (fst (make_phrase_table Examples.P0 Examples.table_lines))
                "long" "-l" = Some 50000) by (vm_compute; reflexivity).
  split; [exact H|].
  exact (proj1 (phrase_table_entries_come_from_lines
                  (FO := Fixed5.ops) (EN := Examples.E)
                  Examples.P0 Examples.table_lines "long" "-l" 50000 H)).
Defined.

Section LocalScore.
Context `{FO : FloatOps} `{EN : Enumerator}.

Lemma fire_lookup (row : gmap string float) (words : list string) :
  forall (acc : gmap string float) (w : string),
    fire row words acc !! w
    = match (if bool_decide (w ∈ words) then row !! w else None) with
      | Some v => Some v
      | None => acc !! w
      end.
Proof.
  induction words as [|word rest IH]; intros acc w; cbn [fire].
  - case_bool_decide as Hin; [apply elem_of_nil in Hin; contradiction|].
    reflexivity.
  - destruct (decide (w = word)) as [->|Hne].
    + case_bool_decide as Hin; [|exfalso; apply Hin, elem_of_cons; auto].
      destruct (row !! word) as [v|] eqn:Hrow; rewrite IH, Hrow.
      * case_bool_decide; [reflexivity|]. apply lookup_insert_eq.
      * case_bool_decide; reflexivity.
    + assert (Hiff : bool_decide (w ∈ word :: rest) = bool_decide (w ∈ rest)).
      { apply bool_decide_ext. rewrite elem_of_cons. tauto. }
      rewrite Hiff.
      destruct (row !! word) as [v|]; rewrite IH; [|reflexivity].
      rewrite lookup_insert_ne by auto. reflexivity.
Qed.

Lemma local_score_lookup (self : Parser) (t : string) (words : list string) :
  match local_score self t words with
  | inl e => e = TypeError /\ T2PScores self = None
  | inr ff =>
      T2PScores self <> None /\
      forall w, ff !! w = if bool_decide (w ∈ words)
                          then T2P_weight self t w else None
  end.
Proof.
  unfold local_score, T2P_weight, lookup2.
  destruct (T2PScores self) as [t2p|]; [|auto]. simpl.
  destruct (t2p !! t) as [row|]; simpl; (split; [discriminate|]); intros w.
  - rewrite fire_lookup, lookup_empty.
    destruct (bool_decide (w ∈ words)); [|reflexivity].
    destruct (row !! w); reflexivity.
  - rewrite lookup_empty. destruct (bool_decide (w ∈ words)); reflexivity.
Qed.

(** What fires is a set of input words. *)
Lemma local_score_dom (self : Parser) (t : string) (words : list string)
    (ff : gmap string float) :
  local_score self t words = inr ff ->
  dom ff ⊆ (list_to_set words : gset string).
Proof.
  intros Hls. pose proof (local_score_lookup self t words) as H.
  rewrite Hls in H. destruct H as [_ H]. intros w Hw.
  apply elem_of_dom in Hw as [v Hv]. rewrite H in Hv.
  case_bool_decide as Hin; [|discriminate].
  apply elem_of_list_to_set. assumption.
Qed.

(** [local_score] raises (TypeError) exactly when no table was loaded.
    Otherwise the mapping it returns gives each word of the input the
    weight the snippet-to-phrase table has for it under the term, and
    holds no other key: nothing for a word the table does not have under
    the term, and nothing at all for a term the table does not have. *)
Theorem local_score_fires_input_words
    (self : Parser) (t : string) (words : list string) :
  match local_score self t words with
  | inl e => e = TypeError /\ T2PScores self = None
  | inr ff =>
      T2PScores self <> None /\
      forall w, ff !! w = if bool_decide (w ∈ words)
                          then T2P_weight self t w else None
  end.
Proof. apply local_score_lookup. Qed.

(** After [make_phrase_table], failed or not, [local_score] does not
    raise, and what fires for a term is, for each word of the input, the
    weight the file gave the word as a phrase with the term as snippet. *)
Theorem local_score_after_loading
    (self : Parser) (lines : list string) (t : string) (words : list string) :
  exists ff,
    local_score (fst (make_phrase_table self lines)) t words = inr ff /\
    forall w,
      ff !! w = if bool_decide (w ∈ words)
                then P2T_weight (fst (make_phrase_table self lines)) w t
                else None.
Proof.
  pose proof (local_score_lookup
                (fst (make_phrase_table self lines)) t words) as H.
  destruct (local_score (fst (make_phrase_table self lines)) t words)
    as [e|ff].
  - destruct H as [_ Hnone].
    destruct (make_phrase_table_load self lines) as (_ & HT & _).
    rewrite HT in Hnone. discriminate.
  - destruct H as [_ Hff]. exists ff. split; [reflexivity|].
    intros w. rewrite Hff, tables_transposed. reflexivity.
Qed.

End LocalScore.

Section ChainFacts.
Context `{FO : FloatOps}.

Lemma cnl_words_loop_unfold (b : Cell) (acc : gset string) :
  cnl_words_loop b acc =
  match backpointer b with
  | Some b' => cnl_words_loop b' (acc ∪ covered_words b)
  | None => acc ∪ covered_words b
  end.
Proof. destruct b; reflexivity. Qed.

Lemma elem_of_cnl_words_loop (b : Cell) :
  forall acc w,
    w ∈ cnl_words_loop b acc <->
    w ∈ acc \/ exists a, a ∈ chain b /\ w ∈ covered_words a.
Proof.
  induction b as [b IH] using Cell_chain_ind. intros acc w.
  rewrite cnl_words_loop_unfold, (chain_unfold b).
  destruct (backpointer b) as [b'|] eqn:Hb.
  - rewrite (IH b' eq_refl), elem_of_union. split.
    + intros [[Hacc|Hb0]|(a & Ha & Hw)]; [auto| |].
      * right. exists b. split; [apply elem_of_cons; auto|assumption].
      * right. exists a. split; [apply elem_of_cons; auto|assumption].
    + intros [Hacc|(a & Ha & Hw)]; [auto|].
      apply elem_of_cons in Ha as [->|Ha]; [auto|]. right. eauto.
  - rewrite elem_of_union. split.
    + intros [Hacc|Hb0]; [auto|]. right. exists b.
      split; [apply elem_of_cons; auto|assumption].
    + intros [Hacc|(a & Ha & Hw)]; [auto|].
      apply elem_of_cons in Ha as [->|Ha]; [auto|].
      apply elem_of_nil in Ha. contradiction.
Qed.

Lemma elem_of_cnl_words (c : Cell) (w : string) :
  w ∈ cnl_words c <-> exists a, a ∈ chain c /\ w ∈ covered_words a.
Proof.
  unfold cnl_words. rewrite (chain_unfold c).
  destruct (backpointer c) as [b|].
  - rewrite elem_of_cnl_words_loop. split.
    + intros [Hc|(a & Ha & Hw)].
      * exists c. split; [apply elem_of_cons; auto|assumption].
      * exists a. split; [apply elem_of_cons; auto|assumption].
    + intros (a & Ha & Hw).
      apply elem_of_cons in Ha as [->|Ha]; [auto|]. right. eauto.
  - split.
    + intros Hc. exists c. split; [apply elem_of_cons; auto|assumption].
    + intros (a & Ha & Hw).
      apply elem_of_cons in Ha as [->|Ha]; [assumption|].
      apply elem_of_nil in Ha. contradiction.
Qed.

Lemma cnl_words_extend (c : Cell) t p (ff : gmap string float) :
  cnl_words (Cell_init t p (Some c) ff) = dom ff ∪ cnl_words c.
Proof.
  apply set_eq. intros w. rewrite elem_of_union, !elem_of_cnl_words.
  rewrite (chain_unfold (Cell_init t p (Some c) ff)). simpl. split.
  - intros (a & Ha & Hw). apply elem_of_cons in Ha as [->|Ha]; [auto|].
    right. eauto.
  - intros [Hw|(a & Ha & Hw)].
    + eexists. split; [apply elem_of_cons; left; reflexivity|exact Hw].
    + exists a. split; [apply elem_of_cons; auto|assumption].
Qed.

Lemma cnl_words_set_score v (c : Cell) :
  cnl_words (set_score v c) = cnl_words c.
Proof. reflexivity. Qed.

(** [cnl_words] collects the covered words of the whole chain, whatever its
    depth: a word is in it exactly when some cell from this one back to
    the root covers it.  Hence extending a cell only adds words: the
    child's set is its own fired words together with the parent's set. *)
Theorem cnl_words_of_chain (c : Cell) :
  (forall w, w ∈ cnl_words c <->
             exists a, a ∈ chain c /\ w ∈ covered_words a) /\
  (forall t p ff,
     cnl_words (Cell_init t p (Some c) ff) = dom ff ∪ cnl_words c /\
     cnl_words c ⊆ cnl_words (Cell_init t p (Some c) ff)).
Proof.
  split; [apply elem_of_cnl_words|]. intros t p ff.
  split; [apply cnl_words_extend|].
  rewrite cnl_words_extend. apply union_subseteq_r.
Qed.

End ChainFacts.

Section FeatureFacts.
Context `{FO : FloatOps}.

Lemma string_length_app (a b : string) :
  String.length (a ++ b) = (String.length a + String.length b)%nat.
Proof. induction a as [|c a IH]; simpl; [reflexivity|]. rewrite IH. reflexivity. Qed.

Lemma string_app_cancel_r (a b s : string) : a ++ s = b ++ s -> a = b.
Proof.
  revert b. induction a as [|c a IH]; intros [|d b] H; simpl in H.
  - reflexivity.
  - apply (f_equal String.length) in H.
    rewrite !string_length_app in H. simpl in H.
    rewrite ?string_length_app in H. lia.
  - apply (f_equal String.length) in H.
    rewrite !string_length_app in H. simpl in H.
    rewrite ?string_length_app in H. lia.
  - injection H as -> H. f_equal. apply IH. assumption.
Qed.

(** Two words have the same feature name under a term only if they are
    the same word. *)
Lemma feature_name_inj (t w w' : string) :
  feature_name w t = feature_name w' t -> w = w'.
Proof. unfold feature_name. apply string_app_cancel_r. Qed.

Lemma foldl_features_other (t k : string) (l : list (string * float)) :
  forall acc : gmap string float,
    (forall w v, (w, v) ∈ l -> feature_name w t <> k) ->
    foldl (fun acc kv => <[feature_name (fst kv) t := snd kv]> acc) acc l !! k
    = acc !! k.
Proof.
  induction l as [|[w0 v0] l IH]; intros acc Hk; simpl; [reflexivity|].
  rewrite IH.
  - apply lookup_insert_ne. apply (Hk w0 v0). apply elem_of_cons. auto.
  - intros w v Hin. apply (Hk w v). apply elem_of_cons. auto.
Qed.

Lemma foldl_features_member (t w : string) (v : float)
    (l : list (string * float)) :
  forall acc : gmap string float,
    NoDup (fst <$> l) -> (w, v) ∈ l ->
    foldl (fun acc kv => <[feature_name (fst kv) t := snd kv]> acc) acc l
      !! feature_name w t
    = Some v.
Proof.
  induction l as [|[w0 v0] l IH]; intros acc Hnd Hin; simpl.
  - apply elem_of_nil in Hin. contradiction.
  - apply NoDup_cons in Hnd as [Hw0 Hnd].
    apply elem_of_cons in Hin as [[= -> ->]|Hin]; [|apply IH; assumption].
    rewrite foldl_features_other; [apply lookup_insert_eq|].
    intros w' v' Hin' Heq. apply feature_name_inj in Heq. subst w'.
    apply Hw0. apply list_elem_of_fmap. exists (w0, v'). auto.
Qed.

Lemma foldl_features_origin (t k : string) (v : float)
    (l : list (string * float)) :
  forall acc : gmap string float,
    foldl (fun acc kv => <[feature_name (fst kv) t := snd kv]> acc) acc l !! k
    = Some v ->
    acc !! k = Some v \/ exists w v', (w, v') ∈ l /\ k = feature_name w t.
Proof.
  induction l as [|[w0 v0] l IH]; intros acc Hk; simpl in Hk; [auto|].
  destruct (IH _ Hk) as [Hacc|(w & v' & Hin & ->)].
  - destruct (decide (feature_name w0 t = k)) as [<-|Hne].
    + right. exists w0, v0. split; [apply elem_of_cons; auto|reflexivity].
    + rewrite lookup_insert_ne in Hacc by assumption. auto.
  - right. exists w, v'. split; [apply elem_of_cons; auto|reflexivity].
Qed.

(** The features a cell stores are its fired features under new names:
    the weight of word [w] is found under ["w->term"], and every key is
    such a name of a fired word. *)
Theorem features_of_fired
    (t : string) (p bp : option Cell) (ff : gmap string float) :
  (forall w, features (Cell_init t p bp ff) !! feature_name w t = ff !! w) /\
  (forall k v, features (Cell_init t p bp ff) !! k = Some v ->
     exists w, k = feature_name w t /\ ff !! w = Some v).
Proof.
  cbn [features Cell_init]. split.
  - intros w. destruct (ff !! w) as [v|] eqn:Hw.
    + apply foldl_features_member; [apply NoDup_fst_map_to_list|].
      apply elem_of_map_to_list. assumption.
    + rewrite foldl_features_other; [apply lookup_empty|].
      intros w' v' Hin Heq. apply feature_name_inj in Heq. subst w'.
      apply elem_of_map_to_list in Hin. congruence.
  - intros k v Hk.
    destruct (foldl_features_origin _ _ _ _ _ Hk)
      as [Hempty|(w & v' & Hin & ->)].
    + rewrite lookup_empty in Hempty. discriminate.
    + exists w. split; [reflexivity|].
      apply elem_of_map_to_list in Hin.
      rewrite foldl_features_member with (v := v') in Hk;
        [congruence|apply NoDup_fst_map_to_list|].
      apply elem_of_map_to_list. assumption.
Qed.

End FeatureFacts.

Section FeatureSetFacts.
Context `{FO : FloatOps}.

Lemma featureSet_loop_unfold (b : Cell) (acc : gmap string float) :
  featureSet_loop b acc =
  match backpointer b with
  | Some b' => featureSet_loop b' (features b ∪ acc)
  | None => features b ∪ acc
  end.
Proof. destruct b; reflexivity. Qed.

Lemma featureSet_loop_acc (b : Cell) :
  forall acc, featureSet_loop b acc = featureSet_loop b ∅ ∪ acc.
Proof.
  induction b as [b IH] using Cell_chain_ind. intros acc.
  rewrite !(featureSet_loop_unfold b).
  destruct (backpointer b) as [b'|] eqn:Hb.
  - rewrite (IH b' eq_refl (features b ∪ acc)),
            (IH b' eq_refl (features b ∪ ∅)).
    rewrite (right_id_L ∅ (∪)), (assoc_L (∪)). reflexivity.
  - rewrite (right_id_L ∅ (∪)). reflexivity.
Qed.

Lemma featureSet_loop_empty (b : Cell) : featureSet_loop b ∅ = featureSet b.
Proof.
  rewrite featureSet_loop_unfold. unfold featureSet.
  rewrite (right_id_L ∅ (∪)). reflexivity.
Qed.

(** [featureSet] merges the stored features of the chain, the cells
    nearer the root overriding: the feature set of a cell is that of its
    backpointer, completed by the cell's own features for the keys the
    backpointer's set does not have.  Its keys are the keys of the cells
    of the chain. *)
Theorem featureSet_of_chain (c : Cell) :
  (forall b, backpointer c = Some b ->
             featureSet c = featureSet b ∪ features c) /\
  (backpointer c = None -> featureSet c = features c) /\
  (forall k, is_Some (featureSet c !! k) <->
             exists a, a ∈ chain c /\ is_Some (features a !! k)).
Proof.
  assert (Hstep : forall c b : Cell, backpointer c = Some b ->
                    featureSet c = featureSet b ∪ features c).
  { intros c0 b Hb. unfold featureSet at 1. rewrite Hb.
    rewrite featureSet_loop_acc, featureSet_loop_empty. reflexivity. }
  assert (Hroot : forall c : Cell, backpointer c = None ->
                    featureSet c = features c).
  { intros c0 Hb. unfold featureSet. rewrite Hb. reflexivity. }
  split; [apply Hstep|]. split; [apply Hroot|].
  induction c as [c IH] using Cell_chain_ind. intros k.
  rewrite (chain_unfold c). destruct (backpointer c) as [b|] eqn:Hb.
  - rewrite (Hstep c b Hb), lookup_union_is_Some, (IH b eq_refl). split.
    + intros [(a & Ha & Hk)|Hk].
      * exists a. split; [apply elem_of_cons; auto|assumption].
      * exists c. split; [apply elem_of_cons; auto|assumption].
    + intros (a & Ha & Hk).
      apply elem_of_cons in Ha as [->|Ha]; [auto|]. left. eauto.
  - rewrite (Hroot c Hb). split.
    + intros Hk. exists c. split; [apply elem_of_cons; auto|assumption].
    + intros (a & Ha & Hk).
      apply elem_of_cons in Ha as [->|Ha]; [assumption|].
      apply elem_of_nil in Ha. contradiction.
Qed.

End FeatureSetFacts.

Section TraversalOfWords.
Context `{FO : FloatOps} `{EN : Enumerator}.

(** The invariant of the traversal again, for properties of a cell that
    depend on what may fire: child cells are built on the mappings
    [local_score] returns for the words of the sentence, so a property
    need only be inherited for those. *)
Lemma dfs_good_fired (Pc : Cell -> Prop) (Pff : gmap string float -> Prop)
    (mn mx : Z) (words : list string) :
  (forall p t ff, local_score p t words = inr ff -> Pff ff) ->
  (forall b t ff, Pc b -> expandable mx b -> Pff ff ->
                  Pc (Cell_init t None (Some b) ff)) ->
  forall fuel cell w,
    cfg mn mx w -> Pc cell -> good Pc mn mx w (dfs fuel cell words w).
Proof.
  intros Hfired Hclosed.
  induction fuel as [|fuel IH]; intros cell w Hcfg HPc.
  - intros w' Hw'. discriminate.
  - cbn [dfs].
    destruct (String.eqb_spec (term cell) EOF) as [|He];
      [apply good_returned|].
    destruct (String.eqb_spec (term cell) PIPE) as [|Hp];
      [apply good_returned|].
    destruct (yield_run Pc mn mx cell w Hcfg HPc He Hp)
      as (evs1 & Hrun1 & Hok1 & Hnr1).
    set (w1 := if (_ <? _)%Z && _ then _ else _) in *.
    assert (Hcfg1 : cfg mn mx w1) by (eapply run_cfg; eauto).
    eapply good_after; eauto.
    destruct (Z.eqb_spec (cell_length cell) (max_command_length (self w1)))
      as [|Hmax]; [apply good_returned|].
    assert (Hexp : expandable mx cell).
    { destruct Hcfg1 as [_ <-]. repeat split; assumption. }
    pose proof Hexp as (_ & _ & Hmx).
    set (body := fun t w' =>
           match local_score (self w') t words with
           | inl e => Raised e w'
           | inr fired_features =>
               dfs fuel (Cell_init t None (Some cell) fired_features) words
                 (emit (EvExtend cell
                          (Cell_init t None (Some cell) fired_features)) w')
           end).
    assert (Hloop : forall w2, cfg mn mx w2 ->
      good Pc mn mx w2
        (match for_each body (legal_tokens (enum (self w2))) w2 with
         | Returned _ w3 =>
             if negb (String.eqb
                        (List.last (legal_tokens (enum (self w2)))
                                   (term cell))
                        START_SYMBOL)
             then Returned tt (do_pop cell w3)
             else Returned tt w3
         | o => o
         end)).
    { intros w2 Hcfg2.
      assert (Hfe : good Pc mn mx w2
                      (for_each body (legal_tokens (enum (self w2))) w2)).
      { apply for_each_good; [|assumption].
        intros t w' Hcfg'. unfold body.
        destruct (local_score (self w') t words) as [e|ff] eqn:Hls;
          [apply good_raised|].
        eapply good_after
          with (evs := [EvExtend cell (Cell_init t None (Some cell) ff)]).
        - apply run_emit. reflexivity.
        - one_event_ok.
        - repeat constructor.
        - apply IH; [|apply Hclosed; eauto].
          eapply run_cfg; [apply run_emit; reflexivity|assumption]. }
      destruct (for_each body _ w2) as [[] w3| | |]; try exact Hfe.
      destruct (Hfe w3 eq_refl) as (evs3 & Hrun3 & Hok3 & Hnr3).
      match goal with |- good _ _ _ _ (if ?b then _ else _) => destruct b end.
      - eapply good_after; eauto.
        eapply good_after; [apply run_pop| | |apply good_returned].
        + one_event_ok.
        + repeat constructor.
      - eapply good_after; eauto. apply good_returned. }
    destruct (String.eqb_spec (term cell) START_SYMBOL) as [Hs|Hs]; simpl.
    + apply Hloop. assumption.
    + destruct (allows (enum (self w1)) (term cell)).
      * eapply good_after; [apply run_push| | |].
        -- one_event_ok.
        -- repeat constructor.
        -- apply Hloop. eapply run_cfg; [apply run_push|assumption].
      * intros w' [= <-]. exists [EvReject cell].
        split; [apply run_emit; reflexivity|].
        split; [one_event_ok|].
        split; [reflexivity|]. exists [], cell. split; [reflexivity|constructor].
Qed.

(** What holds of every cell the traversal of [parse] records: it was
    built by [Cell.__init__] on the start cell's chain, and the words it
    covers are words of the sentence. *)
Lemma recorded_cells_well_formed fuel (p : Parser) (words : list string)
    (w : World) :
  outcome_world (dfs fuel start_cell words (initial_world p)) = Some w ->
  forall c, c ∈ final_cells w ->
    constructed c /\
    cnl_words c ⊆ (list_to_set words : gset string) /\
    min_command_length p < cell_length c /\
    (0 <= max_command_length p -> cell_length c <= max_command_length p).
Proof.
  intros Hw.
  set (Pc := fun c : Cell =>
               constructed c /\
               cnl_words c ⊆ (list_to_set words : gset string) /\
               (0 <= max_command_length p ->
                cell_length c <= max_command_length p)).
  set (Pff := fun ff : gmap string float =>
                dom ff ⊆ (list_to_set words : gset string)).
  assert (Hfired : forall q t ff, local_score q t words = inr ff -> Pff ff).
  { intros q t ff. apply local_score_dom. }
  assert (Hclosed : forall b t ff, Pc b ->
            expandable (max_command_length p) b -> Pff ff ->
            Pc (Cell_init t None (Some b) ff)).
  { unfold Pc, Pff. intros b t ff (Hb & Hcov & Hlen) (_ & _ & Hne) Hff.
    split; [apply constructed_next; assumption|].
    split; [rewrite cnl_words_extend; apply union_least; assumption|].
    intros Hmax. specialize (Hlen Hmax). simpl. lia. }
  assert (Hstart : Pc start_cell).
  { unfold Pc. split; [apply constructed_start|].
    split; [|simpl; lia].
    intros x Hx. unfold start_cell, cnl_words in Hx. simpl in Hx.
    rewrite dom_empty_L in Hx. apply elem_of_empty in Hx. contradiction. }
  destruct (dfs_good_fired Pc Pff (min_command_length p)
              (max_command_length p) words Hfired Hclosed fuel start_cell
              (initial_world p) (conj eq_refl eq_refl) Hstart w Hw)
    as (evs & Hrun & Hok & _).
  apply run_initial in Hrun as [_ Hfc]. rewrite Forall_forall in Hok.
  intros c Hc. rewrite Hfc in Hc. apply elem_of_recorded in Hc.
  destruct (Hok _ Hc) as ((Hcons & Hcov & Hlen) & _ & _ & Hmin). auto.
Qed.

Lemma ranking_cells fuel (p : Parser) (sent : string) (top_K : Z)
    (rows : list Row) (w : World) (r : Row) :
  parse fuel p sent top_K = Returned rows w -> r ∈ rows ->
  exists c v,
    c ∈ final_cells w /\
    r = report (list_to_set (split_ws sent)) (set_score v c).
Proof.
  intros Hparse Hr. apply parse_returned in Hparse as [_ ->].
  apply list_elem_of_fmap in Hr as (c' & -> & Hc').
  apply elem_of_ranking in Hc' as (c & Hc & ->).
  exists c. eexists. split; [exact Hc|reflexivity].
Qed.

Lemma genCommand_tokens_length (c : Cell) :
  constructed c -> Z.of_nat (length (genCommand_tokens c)) = cell_length c.
Proof.
  intros Hc. rewrite genCommand_tokens_chain, (constructed_length c Hc).
  assert (Hlen : length (List.tail (map render (map term (rev (chain c)))))
                 = (length (chain c) - 1)%nat).
  { rewrite <- (length_rev (chain c)).
    destruct (rev (chain c)); simpl; rewrite ?length_map; lia. }
  rewrite Hlen, (chain_unfold c). simpl. lia.
Qed.

(** The words printed as covered are words of the sentence, so each is
    free of whitespace and not empty: a phrase of several words in the
    table never fires.  Covered and uncovered words split the words of
    the sentence between them. *)
Theorem printed_words_split_the_sentence
    (fuel : nat) (p : Parser) (sent : string) (top_K : Z)
    (rows : list Row) (w : World) :
  parse fuel p sent top_K = Returned rows w ->
  Forall
    (fun r =>
       (forall x, x ∈ row_covered r ->
                  x ∈ split_ws sent /\ x <> "" /\ has_space x = false) /\
       row_covered r ∪ row_uncovered r
       = (list_to_set (split_ws sent) : gset string) /\
       row_covered r ## row_uncovered r /\
       (size (row_covered r) + size (row_uncovered r)
        = size (list_to_set (split_ws sent) : gset string))%nat)
    rows.
Proof.
  intros Hparse. apply Forall_forall. intros r Hr.
  destruct (ranking_cells _ _ _ _ _ _ _ Hparse Hr) as (c & v & Hc & ->).
  apply parse_returned in Hparse as [Hdfs _].
  destruct (recorded_cells_well_formed fuel p (split_ws sent) w
              ltac:(rewrite Hdfs; reflexivity) c Hc)
    as (_ & Hcov & _ & _).
  cbn [row_covered row_uncovered report]. rewrite cnl_words_set_score.
  assert (Hunion : cnl_words c ∪ (list_to_set (split_ws sent) ∖ cnl_words c)
                   = (list_to_set (split_ws sent) : gset string)).
  { apply set_eq. intros x. rewrite elem_of_union, elem_of_difference.
    split; [intros [Hx|[Hx _]]; auto|].
    intros Hx. destruct (decide (x ∈ cnl_words c)); auto. }
  assert (Hdisj : cnl_words c ## list_to_set (split_ws sent) ∖ cnl_words c).
  { intros x Hx Hx'. apply elem_of_difference in Hx' as [_ Hx']. auto. }
  split; [|split; [exact Hunion|split; [exact Hdisj|]]].
  - intros x Hx. apply Hcov in Hx. apply elem_of_list_to_set in Hx.
    split; [assumption|]. apply split_ws_tokens with (s := sent). assumption.
  - rewrite <- size_union by exact Hdisj. rewrite Hunion. reflexivity.
Qed.

End TraversalOfWords.

Lemma example_parse_rows :
  exists rows,
    parse 5 Examples.P Examples.sentence 50
    = Returned rows Examples.final_world.
Proof.
  assert (Hr : is_returned (parse 5 Examples.P Examples.sentence 50) = true)
    by (vm_compute; reflexivity).
  exact (returned_in_world _ _ example_parse_returns Hr).
Defined.

Lemma printed_words_split_the_sentence_witness :
  exists rows,
    parse 5 Examples.P Examples.sentence 50
    = Returned rows Examples.final_world /\
    Forall (fun r => row_covered r ## row_uncovered r) rows.
Proof.
  destruct example_parse_rows as [rows Hparse]. exists rows.
  split; [exact Hparse|].
  eapply Forall_impl;
    [exact (printed_words_split_the_sentence
              (FO := Fixed5.ops) (EN := Examples.E)
              5 Examples.P Examples.sentence 50 rows Examples.final_world
              Hparse)|].
  intros r (_ & _ & Hdisj & _). exact Hdisj.
Defined.

Section StackDiscipline.
Context `{FO : FloatOps} `{EN : Enumerator}.

Lemma last_elem_or_default (l : list string) (d : string) :
  (l = [] /\ List.last l d = d) \/ List.last l d ∈ l.
Proof.
  induction l as [|x l IH]; [auto|]. right.
  destruct l as [|y l]; [apply elem_of_cons; auto|].
  destruct IH as [[Hnil _]|Hin]; [discriminate|].
  apply elem_of_cons. right. exact Hin.
Qed.

(** A loop whose iterations each leave something of the world as it was
    leaves it as it was. *)
Lemma for_each_preserves {A : Type} (f : World -> A)
    (body : string -> World -> Outcome unit) (items : list string) :
  (forall x wa wb, x ∈ items -> body x wa = Returned tt wb -> f wb = f wa) ->
  forall w w', for_each body items w = Returned tt w' -> f w' = f w.
Proof.
  induction items as [|x rest IH]; intros Hbody w w' Hfe; simpl in Hfe.
  - injection Hfe as <-. reflexivity.
  - destruct (body x w) as [[] w1| | |] eqn:Hb; try discriminate.
    rewrite (IH (fun y wa wb Hy => Hbody y wa wb
                   (proj2 (elem_of_cons rest y x) (or_intror Hy)))
                w1 w' Hfe).
    eapply Hbody; [apply elem_of_cons; left; reflexivity|exact Hb].
Qed.

Lemma dfs_restores_stack :
  pop_undoes_push -> never_offers_start ->
  forall fuel cell words w w',
    dfs fuel cell words w = Returned tt w' ->
    term cell <> START_SYMBOL ->
    enum (self w') = enum (self w).
Proof.
  intros Hpop Hnostart.
  induction fuel as [|fuel IH]; intros cell words w w' Hdfs Hterm;
    [discriminate|].
  cbn [dfs] in Hdfs.
  destruct (String.eqb (term cell) EOF); [injection Hdfs as <-; reflexivity|].
  destruct (String.eqb (term cell) PIPE);
    [injection Hdfs as <-; reflexivity|].
  set (w1 := if (_ <? _)%Z && _ then _ else _) in *.
  assert (Hself1 : self w1 = self w)
    by (subst w1; destruct (_ && _); reflexivity).
  destruct (_ =? _)%Z; [injection Hdfs as <-; rewrite Hself1; reflexivity|].
  destruct (String.eqb_spec (term cell) START_SYMBOL) as [|_];
    [contradiction|]. simpl in Hdfs.
  destruct (allows (enum (self w1)) (term cell)); [|discriminate].
  set (w2 := do_push cell (term cell) w1) in *.
  destruct (for_each _ (legal_tokens (enum (self w2))) w2)
    as [[] w3| | |] eqn:Hfe; try discriminate.
  assert (H3 : enum (self w3) = enum (self w2)).
  { eapply (for_each_preserves (fun w0 => enum (self w0))); [|exact Hfe].
    intros t wa wb Ht Hb. simpl in Hb.
    destruct (local_score (self wa) t words) as [e|ff]; [discriminate|].
    apply IH in Hb; [exact Hb|]. simpl. intros ->.
    exact (Hnostart _ Ht). }
  assert (Hlast : List.last (legal_tokens (enum (self w2))) (term cell)
                  <> START_SYMBOL).
  { destruct (last_elem_or_default (legal_tokens (enum (self w2)))
                (term cell)) as [[_ ->]|Hin]; [assumption|].
    intros Heq. rewrite Heq in Hin. exact (Hnostart _ Hin). }
  destruct (String.eqb_spec
              (List.last (legal_tokens (enum (self w2))) (term cell))
              START_SYMBOL); [contradiction|].
  simpl in Hdfs. injection Hdfs as <-. simpl. rewrite H3. subst w2. simpl.
  rewrite Hpop, Hself1. reflexivity.
Qed.

(** With an enumerator whose pop undoes a push and which never offers the
    start symbol as a token, [dfs] keeps the stack discipline on every
    cell but the start cell: when it returns from a cell that is not the
    start cell, the enumerator is in the state it was entered with. *)
Theorem dfs_leaves_enumerator_as_found
    (fuel : nat) (cell : Cell) (words : list string) (w w' : World) :
  pop_undoes_push -> never_offers_start ->
  dfs fuel cell words w = Returned tt w' ->
  term cell <> START_SYMBOL ->
  enum (self w') = enum (self w).
Proof. intros Hpop Hns. apply dfs_restores_stack; assumption. Qed.

(** The start cell is the exception.  When [parse] returns and there was a
    token to look at from the start (the maximum length is not 0, the
    end-of-input sentinel is not the start symbol), the parser's
    enumerator ends one pop behind the state it started in. *)
Theorem parse_leaves_enumerator_popped
    (fuel : nat) (p : Parser) (sent : string) (top_K : Z)
    (rows : list Row) (w : World) :
  pop_undoes_push -> never_offers_start ->
  parse fuel p sent top_K = Returned rows w ->
  EOF <> START_SYMBOL ->
  max_command_length p <> 0 ->
  legal_tokens (enum p) <> [] ->
  enum (self w) = pop (enum p).
Proof.
  intros Hpop Hnostart Hparse Heof Hmax Htokens.
  apply parse_returned in Hparse as [Hdfs _].
  destruct fuel as [|fuel]; [discriminate|]. cbn [dfs] in Hdfs.
  change (term start_cell) with START_SYMBOL in Hdfs.
  destruct (String.eqb_spec START_SYMBOL EOF); [congruence|].
  simpl String.eqb in Hdfs. cbv iota in Hdfs.
  set (w1 := if (_ <? _)%Z && _ then _ else _) in *.
  assert (Hself : self w1 = p) by (subst w1; destruct (_ && _); reflexivity).
  rewrite Hself in Hdfs. change (cell_length start_cell) with 0 in Hdfs.
  destruct (Z.eqb_spec 0 (max_command_length p)); [congruence|].
  simpl negb in Hdfs. cbv iota in Hdfs. rewrite Hself in Hdfs.
  destruct (for_each _ (legal_tokens (enum p)) w1) as [[] w3| | |] eqn:Hfe;
    try discriminate.
  assert (H3 : enum (self w3) = enum (self w1)).
  { eapply (for_each_preserves (fun w0 => enum (self w0))); [|exact Hfe].
    intros t wa wb Ht Hb. simpl in Hb.
    destruct (local_score (self wa) t (split_ws sent)) as [e|ff];
      [discriminate|].
    apply (dfs_restores_stack Hpop Hnostart) in Hb; [exact Hb|].
    simpl. intros ->. exact (Hnostart _ Ht). }
  assert (Hlast : List.last (legal_tokens (enum p)) START_SYMBOL
                  <> START_SYMBOL).
  { destruct (last_elem_or_default (legal_tokens (enum p)) START_SYMBOL)
      as [[Hnil _]|Hin]; [contradiction|].
    intros Heq. rewrite Heq in Hin. exact (Hnostart _ Hin). }
  destruct (String.eqb_spec
              (List.last (legal_tokens (enum p)) START_SYMBOL)
              START_SYMBOL); [contradiction|].
  simpl in Hdfs. injection Hdfs as <-. simpl. rewrite H3, Hself.
  reflexivity.
Qed.

End StackDiscipline.

Section ListGrammarLaws.

Lemma mem_elem_of (x : string) (l : list string) :
  ListGrammar.mem x l = true <-> x ∈ l.
Proof.
  induction l as [|y l IH]; simpl.
  - split; [discriminate|]. intros H. apply elem_of_nil in H. contradiction.
  - rewrite orb_true_iff, IH, elem_of_cons.
    destruct (String.eqb_spec x y); split; intros [H|H]; auto; discriminate.
Qed.

Lemma nodup_elem_of (x : string) (l : list string) :
  x ∈ ListGrammar.nodup l -> x ∈ l.
Proof.
  induction l as [|y l IH]; simpl; [auto|].
  destruct (ListGrammar.mem y l).
  - intros H. apply elem_of_cons. auto.
  - intros H. apply elem_of_cons in H as [->|H]; apply elem_of_cons; auto.
Qed.

(** A token the list grammar offers is the end-of-input token or a token
    of one of its commands. *)
Lemma next_tokens_sound (g : list (list string)) (st : list string)
    (t : string) :
  t ∈ ListGrammar.next_tokens g st ->
  t = ListGrammar.eof_token \/ exists cmd, cmd ∈ g /\ t ∈ cmd.
Proof.
  unfold ListGrammar.next_tokens. intros H.
  apply elem_of_app in H as [H|H].
  - right. apply nodup_elem_of in H.
    apply list_elem_of_omap in H as (cmd & Hcmd & Hnth).
    exists cmd. split; [assumption|].
    destruct (ListGrammar.starts_with st cmd); [|discriminate].
    eapply list_elem_of_lookup_2. exact Hnth.
  - left. destruct (ListGrammar.complete g st).
    + apply list_elem_of_singleton in H. assumption.
    + apply elem_of_nil in H. contradiction.
Qed.

Lemma list_grammar_pop_undoes_push (g : list (list string)) :
  @pop_undoes_push (ListGrammar.enumerator g).
Proof. intros st t. simpl. apply removelast_last. Qed.

Lemma list_grammar_allows_what_it_offers (g : list (list string)) :
  @allows_what_it_offers (ListGrammar.enumerator g).
Proof. intros st t Ht. simpl in *. apply mem_elem_of. assumption. Qed.

Lemma list_grammar_never_offers_start (g : list (list string)) :
  forallb (fun cmd => negb (ListGrammar.mem START_SYMBOL cmd)) g = true ->
  @never_offers_start (ListGrammar.enumerator g).
Proof.
  intros Hg st Hin. simpl in Hin.
  apply next_tokens_sound in Hin as [Heof|(cmd & Hcmd & Ht)];
    [discriminate|].
  rewrite forallb_forall in Hg. apply list_elem_of_In in Hcmd.
  specialize (Hg cmd Hcmd). apply negb_true_iff in Hg.
  apply mem_elem_of in Ht. congruence.
Qed.

Lemma example_never_offers_start : @never_offers_start Examples.E.
Proof. apply list_grammar_never_offers_start. vm_compute. reflexivity. Qed.

End ListGrammarLaws.

Lemma example_parse_rows_dfs :
  dfs 5 start_cell (split_ws Examples.sentence) (initial_world Examples.P)
  = Returned tt Examples.final_world.
Proof.
  assert (Hr : is_returned
                 (dfs 5 start_cell (split_ws Examples.sentence)
                      (initial_world Examples.P)) = true)
    by (vm_compute; reflexivity).
  destruct (returned_in_world _ _ example_traversal_returns Hr) as [[] H].
  exact H.
Defined.

Lemma dfs_leaves_enumerator_as_found_witness :
  exists w w' : @World Fixed5.ops Examples.E,
    dfs 3 (Cell_init "cp" None (Some start_cell) ∅)
        (split_ws Examples.sentence) w = Returned tt w' /\
    enum (self w') = enum (self w).
Proof.
  assert (Hr : is_returned
                 (dfs 3 (Cell_init "cp" None (Some start_cell) ∅)
                      (split_ws Examples.sentence)
                      (initial_world Examples.P)) = true)
    by (vm_compute; reflexivity).
  destruct (dfs 3 (Cell_init "cp" None (Some start_cell) ∅)
                (split_ws Examples.sentence) (initial_world Examples.P))
    as [[] w'| | |] eqn:Hdfs; try discriminate Hr.
  exists (initial_world Examples.P), w'. split; [exact Hdfs|].
  apply (dfs_leaves_enumerator_as_found
           (FO := Fixed5.ops) (EN := Examples.E)
           3 (Cell_init "cp" None (Some start_cell) ∅)
           (split_ws Examples.sentence) (initial_world Examples.P) w'
           (list_grammar_pop_undoes_push _) example_never_offers_start Hdfs).
  discriminate.
Defined.

Lemma parse_leaves_enumerator_popped_witness :
  exists rows,
    parse 5 Examples.P Examples.sentence 50
    = Returned rows Examples.final_world /\
    enum (self Examples.final_world) = pop (enum Examples.P).
Proof.
  destruct example_parse_rows as [rows Hparse]. exists rows.
  split; [exact Hparse|].
  apply (parse_leaves_enumerator_popped
           (FO := Fixed5.ops) (EN := Examples.E)
           5 Examples.P Examples.sentence 50 rows Examples.final_world
           (list_grammar_pop_undoes_push _) example_never_offers_start
           Hparse).
  - discriminate.
  - vm_compute. discriminate.
  - vm_compute. discriminate.
Defined.

Section ParseEnds.
Context `{FO : FloatOps} `{EN : Enumerator}.

Lemma dfs_keeps_config fuel cell words (w w' : World) :
  outcome_world (dfs fuel cell words w) = Some w' ->
  T2PScores (self w') = T2PScores (self w) /\
  max_command_length (self w') = max_command_length (self w).
Proof.
  intros Hw.
  destruct (dfs_good (fun _ => True)
              (min_command_length (self w)) (max_command_length (self w))
              (fun _ _ _ _ _ => I) fuel cell words w (conj eq_refl eq_refl)
              I w' Hw) as (evs & Hrun & _).
  split; [apply (run_tables _ _ _ Hrun)|].
  apply (run_cfg _ _ _ _ _ Hrun (conj eq_refl eq_refl)).
Qed.

Lemma for_each_returns (Inv : World -> Prop)
    (body : string -> World -> Outcome unit) (items : list string) :
  (forall x wa, x ∈ items -> Inv wa ->
                exists wb, body x wa = Returned tt wb /\ Inv wb) ->
  forall w, Inv w ->
    exists w', for_each body items w = Returned tt w' /\ Inv w'.
Proof.
  induction items as [|x rest IH]; intros Hbody w Hw; simpl.
  - exists w. auto.
  - destruct (Hbody x w) as (w1 & Hb & H1);
      [apply elem_of_cons; auto|assumption|].
    rewrite Hb. apply IH; [|assumption].
    intros y wa Hy. apply Hbody. apply elem_of_cons. auto.
Qed.

Lemma dfs_returns_lawful :
  pop_undoes_push -> never_offers_start -> allows_what_it_offers ->
  forall fuel cell words w,
    T2PScores (self w) <> None ->
    cell_length cell <= max_command_length (self w) ->
    (Z.to_nat (max_command_length (self w) - cell_length cell) < fuel)%nat ->
    term cell = START_SYMBOL \/ allows (enum (self w)) (term cell) = true ->
    exists w', dfs fuel cell words w = Returned tt w'.
Proof.
  intros Hpop Hnostart Hallows.
  induction fuel as [|fuel IH]; intros cell words w Htab Hle Hfuel Hterm;
    [lia|].
  cbn [dfs].
  destruct (String.eqb (term cell) EOF); [eauto|].
  destruct (String.eqb (term cell) PIPE); [eauto|].
  set (w1 := if (_ <? _)%Z && _ then _ else _).
  assert (Hself1 : self w1 = self w)
    by (subst w1; destruct (_ && _); reflexivity).
  rewrite Hself1.
  destruct (Z.eqb_spec (cell_length cell) (max_command_length (self w)))
    as [|Hne]; [eauto|].
  set (body := fun t w' =>
         match local_score (self w') t words with
         | inl e => Raised e w'
         | inr fired_features =>
             dfs fuel (Cell_init t None (Some cell) fired_features) words
               (emit (EvExtend cell
                        (Cell_init t None (Some cell) fired_features)) w')
         end).
  assert (Hloop : forall w2,
    T2PScores (self w2) = T2PScores (self w) ->
    max_command_length (self w2) = max_command_length (self w) ->
    exists w3, for_each body (legal_tokens (enum (self w2))) w2
               = Returned tt w3).
  { intros w2 Htab2 Hmax2.
    destruct (for_each_returns
                (fun wa => enum (self wa) = enum (self w2) /\
                           T2PScores (self wa) = T2PScores (self w) /\
                           max_command_length (self wa)
                           = max_command_length (self w))
                body (legal_tokens (enum (self w2)))) with (w := w2)
      as (w3 & Hfe & _); [|auto|eauto].
    intros t wa Ht (Henum & Htaba & Hmaxa). unfold body.
    pose proof (local_score_lookup (self wa) t words) as Hls.
    destruct (local_score (self wa) t words) as [e|ff].
    { destruct Hls as [_ Hnone]. rewrite Htaba in Hnone. contradiction. }
    destruct (IH (Cell_init t None (Some cell) ff) words
                 (emit (EvExtend cell (Cell_init t None (Some cell) ff)) wa))
      as [wb Hb].
    - simpl. rewrite Htaba. assumption.
    - simpl. rewrite Hmaxa. lia.
    - simpl. rewrite Hmaxa. lia.
    - right. simpl. rewrite Henum. apply Hallows. assumption.
    - exists wb. split; [exact Hb|].
      destruct (dfs_keeps_config fuel _ words _ wb
                  ltac:(rewrite Hb; reflexivity)) as [Htabb Hmaxb].
      simpl in Htabb, Hmaxb.
      split; [|split; congruence].
      rewrite (dfs_restores_stack Hpop Hnostart _ _ _ _ _ Hb).
      + exact Henum.
      + simpl. intros ->. exact (Hnostart _ Ht). }
  destruct (String.eqb_spec (term cell) START_SYMBOL) as [Hs|Hs]; simpl.
  - destruct (Hloop w1) as [w3 ->]; [rewrite Hself1; reflexivity..|].
    destruct (negb _); eauto.
  - destruct Hterm as [|Hterm]; [contradiction|]. rewrite Hterm.
    destruct (Hloop (do_push cell (term cell) w1)) as [w3 ->];
      [simpl; rewrite Hself1; reflexivity..|].
    destruct (negb _); eauto.
Qed.

(** With a table loaded, a maximum length that is a number of tokens and
    an enumerator that keeps its own rules (a pop undoes a push, the
    start symbol is never offered, what is offered may be pushed),
    [parse] ends by returning its ranking: it neither exits nor raises,
    and a recursion depth of the maximum length plus one is enough. *)
Theorem parse_returns_with_lawful_enumerator
    (fuel : nat) (p : Parser) (sent : string) (top_K : Z) :
  pop_undoes_push -> never_offers_start -> allows_what_it_offers ->
  T2PScores p <> None ->
  0 <= max_command_length p ->
  (Z.to_nat (max_command_length p) < fuel)%nat ->
  exists rows w, parse fuel p sent top_K = Returned rows w.
Proof.
  intros Hpop Hnostart Hallows Htab Hmax Hfuel.
  destruct (dfs_returns_lawful Hpop Hnostart Hallows fuel start_cell
              (split_ws sent) (initial_world p)) as [w Hdfs];
    [assumption|simpl; lia|simpl; rewrite Z.sub_0_r; assumption|auto|].
  unfold parse. rewrite Hdfs. eauto.
Qed.

Lemma for_each_raised {A : Type} (f : World -> A)
    (body : string -> World -> Outcome unit) (items : list string) :
  (forall x wa wb, body x wa = Returned tt wb -> f wb = f wa) ->
  forall w e w', for_each body items w = Raised e w' ->
    exists x wa, f wa = f w /\ body x wa = Raised e w'.
Proof.
  intros Hbody. induction items as [|x rest IH]; intros w e w' Hfe;
    simpl in Hfe; [discriminate|].
  destruct (body x w) as [[] w1| | |] eqn:Hb; try discriminate.
  - destruct (IH _ _ _ Hfe) as (y & wa & Hf & Hy).
    exists y, wa. split; [|assumption].
    rewrite Hf. eapply Hbody. exact Hb.
  - injection Hfe as <- <-. exists x, w. auto.
Qed.

Lemma dfs_raised_without_table (fuel : nat) :
  forall cell words w e w',
    dfs fuel cell words w = Raised e w' ->
    e = TypeError /\ T2PScores (self w) = None.
Proof.
  induction fuel as [|fuel IH]; intros cell words w e w' Hdfs;
    [discriminate|].
  cbn [dfs] in Hdfs.
  destruct (String.eqb (term cell) EOF); [discriminate|].
  destruct (String.eqb (term cell) PIPE); [discriminate|].
  set (w1 := if (_ <? _)%Z && _ then _ else _) in *.
  assert (Hself1 : self w1 = self w)
    by (subst w1; destruct (_ && _); reflexivity).
  destruct (_ =? _)%Z; [discriminate|].
  set (body := fun t w' =>
         match local_score (self w') t words with
         | inl e => Raised e w'
         | inr fired_features =>
             dfs fuel (Cell_init t None (Some cell) fired_features) words
               (emit (EvExtend cell
                        (Cell_init t None (Some cell) fired_features)) w')
         end) in *.
  assert (Hloop : forall w2,
    T2PScores (self w2) = T2PScores (self w) ->
    match for_each body (legal_tokens (enum (self w2))) w2 with
    | Returned _ w3 =>
        if negb (String.eqb
                   (List.last (legal_tokens (enum (self w2))) (term cell))
                   START_SYMBOL)
        then Returned tt (do_pop cell w3)
        else Returned tt w3
    | o => o
    end = Raised e w' ->
    e = TypeError /\ T2PScores (self w) = None).
  { intros w2 Htab2 H.
    destruct (for_each body _ w2) as [[] w3|c w3|e3 w3|] eqn:Hfe;
      try discriminate.
    { revert H.
      match goal with |- (if ?b then _ else _) = _ -> _ => destruct b end;
        discriminate. }
    injection H as -> ->.
    apply (for_each_raised (fun w0 => T2PScores (self w0))) in Hfe
      as (t & wa & Htaba & Hb).
    - unfold body in Hb.
      pose proof (local_score_lookup (self wa) t words) as Hls.
      destruct (local_score (self wa) t words) as [e0|ff].
      + injection Hb as -> _. destruct Hls as [-> Hnone].
        split; [reflexivity|]. congruence.
      + apply IH in Hb as [-> Hnone]. simpl in Hnone.
        split; [reflexivity|]. congruence.
    - intros t wa wb Hb. unfold body in Hb.
      destruct (local_score (self wa) t words) as [e0|ff]; [discriminate|].
      destruct (dfs_keeps_config fuel _ words _ wb
                  ltac:(rewrite Hb; reflexivity)) as [Htabb _].
      exact Htabb. }
  destruct (negb (String.eqb (term cell) START_SYMBOL)).
  - destruct (allows (enum (self w1)) (term cell)); [|discriminate].
    apply Hloop in Hdfs; [assumption|]. simpl. rewrite Hself1. reflexivity.
  - apply Hloop in Hdfs; [assumption|]. rewrite Hself1. reflexivity.
Qed.

(** The only exception that leaves [parse] is the TypeError of
    [local_score] on a parser without table, and it does leave it as soon
    as there is a first token to score: a parser on which
    [make_phrase_table] was never called cannot parse. *)
Theorem parse_raises_only_without_table
    (fuel : nat) (p : Parser) (sent : string) (top_K : Z) :
  (forall e w, parse fuel p sent top_K = Raised e w ->
               e = TypeError /\ T2PScores p = None) /\
  (T2PScores p = None -> EOF <> START_SYMBOL ->
   max_command_length p <> 0 -> legal_tokens (enum p) <> [] ->
   exists w, parse (S fuel) p sent top_K = Raised TypeError w /\
             enum (self w) = enum p).
Proof.
  split.
  - intros e w Hparse. unfold parse in Hparse.
    destruct (dfs fuel start_cell (split_ws sent) (initial_world p))
      as [[] w0| |e0 w0|] eqn:Hdfs; try discriminate.
    injection Hparse as -> ->.
    apply dfs_raised_without_table in Hdfs. exact Hdfs.
  - intros Htab Heof Hmax Htokens. unfold parse. cbn [dfs].
    change (term start_cell) with START_SYMBOL.
    destruct (String.eqb_spec START_SYMBOL EOF); [congruence|].
    simpl String.eqb. cbv iota.
    set (w1 := if (_ <? _)%Z && _ then _ else _).
    assert (Hself : self w1 = p)
      by (subst w1; destruct (_ && _); reflexivity).
    rewrite Hself. change (cell_length start_cell) with 0.
    destruct (Z.eqb_spec 0 (max_command_length p)); [congruence|].
    simpl negb. cbv iota. rewrite Hself.
    destruct (legal_tokens (enum p)) as [|t rest]; [contradiction|].
    cbn [for_each]. unfold local_score at 1. rewrite Hself, Htab.
    exists w1. rewrite Hself. auto.
Qed.

End ParseEnds.

Lemma example_table_loaded : T2PScores Examples.P <> None.
Proof.
  unfold Examples.P.
  destruct (make_phrase_table_load Examples.P0 Examples.table_lines)
    as (_ & HT & _).
  rewrite HT. discriminate.
Qed.

Lemma parse_returns_with_lawful_enumerator_witness :
  exists rows w,
    parse 5 Examples.P Examples.sentence 50 = Returned rows w.
Proof.
  apply (parse_returns_with_lawful_enumerator
           (FO := Fixed5.ops) (EN := Examples.E)
           5 Examples.P Examples.sentence 50
           (list_grammar_pop_undoes_push _) example_never_offers_start
           (list_grammar_allows_what_it_offers _) example_table_loaded).
  - vm_compute. discriminate.
  - vm_compute. lia.
Defined.

Section DepthAndTopK.
Context `{FO : FloatOps} `{EN : Enumerator}.

(** The recursion of the traversal is never deeper than the maximum
    command length plus one call, whatever the grammar: with that much
    fuel the model of [parse] does not run out, and any larger amount
    gives the same end. *)
Theorem traversal_depth_is_bounded
    (fuel fuel' : nat) (p : Parser) (sent : string) (top_K : Z) :
  0 <= max_command_length p ->
  (Z.to_nat (max_command_length p) < fuel)%nat ->
  (fuel <= fuel')%nat ->
  parse fuel p sent top_K <> OutOfFuel /\
  parse fuel' p sent top_K = parse fuel p sent top_K.
Proof.
  intros Hmax Hfuel Hle.
  assert (Hdfs : dfs fuel start_cell (split_ws sent) (initial_world p)
                 <> OutOfFuel).
  { apply dfs_enough_fuel; simpl; [lia|]. rewrite Z.sub_0_r. assumption. }
  unfold parse. rewrite (dfs_fuel_mono fuel fuel' _ _ _ Hle Hdfs).
  split; [|reflexivity].
  destruct (dfs fuel start_cell (split_ws sent) (initial_world p));
    congruence.
Qed.

Lemma length_slice_to {A : Type} (k : Z) (l : list A) :
  Z.of_nat (length (slice_to k l))
  = if (0 <=? k)%Z then Z.min k (Z.of_nat (length l))
    else Z.max 0 (Z.of_nat (length l) + k).
Proof.
  unfold slice_to. destruct (Z.leb_spec 0 k); rewrite length_take; lia.
Qed.

(** How many lines [parse] prints for any [top_K], negative ones
    included, when [n] cells were recorded: the smaller of [top_K] and
    [n] if [top_K] is not negative, and otherwise [n + top_K] (all but
    the last [-top_K]), or none if that is negative.  And the lines for a
    [top_K] that is not negative are the first [top_K] of the lines for
    any larger one. *)
Theorem printed_lines_for_any_top_K
    (fuel : nat) (p : Parser) (sent : string) (top_K : Z)
    (rows : list Row) (w : World) :
  parse fuel p sent top_K = Returned rows w ->
  Z.of_nat (length rows)
  = (if (0 <=? top_K)%Z
     then Z.min top_K (Z.of_nat (length (final_cells w)))
     else Z.max 0 (Z.of_nat (length (final_cells w)) + top_K)) /\
  (forall top_K', 0 <= top_K <= top_K' ->
     exists rows',
       parse fuel p sent top_K' = Returned rows' w /\
       rows = take (Z.to_nat top_K) rows').
Proof.
  intros Hparse. apply parse_returned in Hparse as [Hdfs ->]. split.
  - rewrite length_map. unfold ranking.
    rewrite length_slice_to, sorted_desc_length.
    unfold apply_final_scores. rewrite length_map. reflexivity.
  - intros top_K' [H0 Hle]. unfold parse. rewrite Hdfs.
    eexists. split; [reflexivity|].
    unfold ranking. rewrite !slice_to_nonneg by lia.
    rewrite <- fmap_take. f_equal.
    rewrite take_take. f_equal. lia.
Qed.

End DepthAndTopK.

Lemma traversal_depth_is_bounded_witness :
  parse 4 Examples.P Examples.sentence 50 <> OutOfFuel /\
  parse 5 Examples.P Examples.sentence 50
  = parse 4 Examples.P Examples.sentence 50.
Proof.
  apply (traversal_depth_is_bounded (FO := Fixed5.ops) (EN := Examples.E)
           4 5 Examples.P Examples.sentence 50).
  - vm_compute. discriminate.
  - vm_compute. lia.
  - lia.
Defined.

Lemma printed_lines_for_any_top_K_witness :
  exists rows,
    parse 5 Examples.P Examples.sentence 50
    = Returned rows Examples.final_world /\
    Z.of_nat (length rows)
    = Z.min 50 (Z.of_nat (length (final_cells Examples.final_world))).
Proof.
  destruct example_parse_rows as [rows Hparse]. exists rows.
  split; [exact Hparse|].
  exact (proj1 (printed_lines_for_any_top_K
                  (FO := Fixed5.ops) (EN := Examples.E)
                  5 Examples.P Examples.sentence 50 rows
                  Examples.final_world Hparse)).
Defined.

(** With [top_K = -1] the last of the three commands of the example is
    dropped. *)
Example example_ranking_negative_top_K :
  map row_command (rows_of (parse 5 Examples.P Examples.sentence (-1)))
  = ["ls -l -a"; "ls -l"].
Proof. vm_compute. reflexivity. Qed.

(** * The rewrite store *)

Section StoreFacts.

Lemma select_s1_elem (s1 : string) (rows : list (string * string))
    (row : string * string) :
  row ∈ select_s1 s1 rows <-> row ∈ rows /\ fst row = s1.
Proof.
  unfold select_s1. rewrite !list_elem_of_In, filter_In.
  rewrite String.eqb_eq. reflexivity.
Qed.

Lemma exists_row (s1 s2 : string) (rows : list (string * string)) :
  existsb (fun row => String.eqb (fst row) s1 && String.eqb (snd row) s2) rows
  = true <-> (s1, s2) ∈ rows.
Proof.
  rewrite existsb_exists. split.
  - intros [[a b] [Hin Heq]]. apply andb_true_iff in Heq as [Ha Hb].
    apply String.eqb_eq in Ha, Hb. simpl in Ha, Hb. subst.
    apply list_elem_of_In. exact Hin.
  - intros Hin. exists (s1, s2). split; [apply list_elem_of_In; exact Hin|].
    simpl. rewrite !String.eqb_refl. reflexivity.
Qed.

Lemma exist_rewrite_open (rows : list (string * string)) (c : bool)
    (pair : string * string) (b : bool) :
  exist_rewrite {| Rewrites := Some rows; closed := c |} pair = inr b ->
  (b = true <-> pair ∈ rows).
Proof.
  destruct pair as [s1 s2]. unfold exist_rewrite. simpl.
  destruct c; [discriminate|]. intros [= <-]. apply exists_row.
Qed.

Lemma exist_rewrite_true (d : DBConnection) (pair : string * string) :
  exist_rewrite d pair = inr true <->
  closed d = false /\ exists rows, Rewrites d = Some rows /\ pair ∈ rows.
Proof.
  destruct pair as [s1 s2], d as [file c]. unfold exist_rewrite. simpl.
  destruct c.
  { split; [discriminate|]. intros [Hc _]. discriminate Hc. }
  destruct file as [rows|].
  - split.
    + intros Hex. injection Hex as Hex. apply exists_row in Hex. eauto.
    + intros [_ (rows' & Hrows & Hin)]. injection Hrows as <-.
      f_equal. apply exists_row. exact Hin.
  - split; [discriminate|]. intros [_ (rows' & Hrows & _)].
    discriminate Hrows.
Qed.

(** On any connection that is open, [create_schema] followed by
    [add_rewrite] succeeds; afterwards [exist_rewrite] finds the pair
    added and answers as before for every other pair, and the table holds
    the rows it held, in their order, followed by the new one. *)
Theorem added_rewrite_exists (d : DBConnection) (pair : string * string)
    (Hopen : closed d = false) :
  exists d1 d2,
    create_schema d = inr d1 /\
    add_rewrite d1 pair = inr d2 /\
    exist_rewrite d2 pair = inr true /\
    (forall other, other <> pair ->
       exist_rewrite d2 other = exist_rewrite d1 other) /\
    (forall rows, Rewrites d = Some rows ->
       Rewrites d2 = Some (rows ++ [pair])%list).
Proof.
  destruct d as [file c]. simpl in Hopen. subst c. destruct pair as [s1 s2].
  eexists _, _. unfold create_schema, add_rewrite. simpl.
  split; [reflexivity|]. split; [reflexivity|].
  split; [|split].
  - f_equal. apply exists_row. apply elem_of_app. right.
    apply list_elem_of_singleton. reflexivity.
  - intros [a b] Hne. unfold exist_rewrite. simpl. f_equal.
    rewrite existsb_app. simpl. rewrite orb_false_r.
    replace (String.eqb s1 a && String.eqb s2 b) with false;
      [apply orb_false_r|].
    symmetry. apply andb_false_iff.
    destruct (String.eqb_spec s1 a), (String.eqb_spec s2 b); auto.
    subst. contradiction Hne. reflexivity.
  - intros rows [= ->]. reflexivity.
Qed.

Lemma foldl_union_snd (rows : list (string * string)) (acc : gset string)
    (x : string) :
  x ∈ foldl (fun rewrites row => rewrites ∪ {[snd row]}) acc rows <->
  x ∈ acc \/ exists row, row ∈ rows /\ snd row = x.
Proof.
  revert acc. induction rows as [|row rows IH]; intros acc; simpl.
  - split; [auto|]. intros [H|(row & Hin & _)]; [exact H|].
    apply elem_of_nil in Hin. contradiction.
  - rewrite IH, elem_of_union, elem_of_singleton. split.
    + intros [[H| ->]|(row' & Hin & Heq)]; auto.
      * right. exists row. split; [left|reflexivity].
      * right. exists row'. split; [right; exact Hin|exact Heq].
    + intros [H|(row' & Hin & Heq)]; auto.
      apply elem_of_cons in Hin as [->|Hin]; [left; right; auto|].
      right. exists row'. auto.
Qed.

(** What [get_rewrite_templates(s1)] returns, when it returns: [s1]
    itself and exactly the [s2] for which [exist_rewrite((s1, s2))] is
    True. *)
Theorem get_rewrite_templates_members (d : DBConnection) (s1 : string)
    (templates : gset string)
    (Hget : get_rewrite_templates d s1 = inr templates) :
  s1 ∈ templates /\
  forall s2, s2 ∈ templates <->
             s2 = s1 \/ exist_rewrite d (s1, s2) = inr true.
Proof.
  destruct d as [[rows|] c]; unfold get_rewrite_templates in Hget;
    simpl in Hget; destruct c; try discriminate Hget.
  injection Hget as <-.
  assert (Hmem : forall s2,
    s2 ∈ foldl (fun rewrites row => rewrites ∪ {[snd row]})
               ({[s1]} : gset string) (select_s1 s1 rows)
    <-> s2 = s1 \/ (s1, s2) ∈ rows).
  { intros s2. rewrite foldl_union_snd, elem_of_singleton.
    split; (intros [H|H]; [left; exact H|right]).
    - destruct H as ([a b] & Hin & Heq). apply select_s1_elem in Hin.
      simpl in *. destruct Hin as [Hin ->]. subst. exact Hin.
    - exists (s1, s2). split; [|reflexivity]. apply select_s1_elem. auto. }
  split; [apply Hmem; left; reflexivity|].
  intros s2. rewrite Hmem, exist_rewrite_true. simpl.
  split; (intros [H|H]; [left; exact H|right]).
  - split; [reflexivity|]. eauto.
  - destruct H as [_ (rows' & [= <-] & Hin)]. exact Hin.
Qed.

End StoreFacts.

Lemma get_rewrite_templates_members_witness :
  let d := {| Rewrites := Some [("ls", "dir"); ("rm", "del"); ("ls", "ll")];
              closed := false |} in
  get_rewrite_templates d "ls" = inr ({["ls"; "dir"; "ll"]} : gset string) /\
  ("ls" ∈ ({["ls"; "dir"; "ll"]} : gset string) /\
   forall s2, s2 ∈ ({["ls"; "dir"; "ll"]} : gset string) <->
              s2 = "ls" \/ exist_rewrite d ("ls", s2) = inr true).
Proof.
  intros d.
  assert (Hget : get_rewrite_templates d "ls"
                 = inr ({["ls"; "dir"; "ll"]} : gset string)).
  { unfold get_rewrite_templates, d. simpl.
    f_equal; apply set_eq; intros x; set_solver. }
  split; [exact Hget|].
  exact (get_rewrite_templates_members d "ls" _ Hget).
Defined.

Lemma added_rewrite_exists_witness :
  closed (DBConnection_init None) = false /\
  exists d1 d2,
    create_schema (DBConnection_init None) = inr d1 /\
    add_rewrite d1 ("ls", "dir") = inr d2 /\
    exist_rewrite d2 ("ls", "dir") = inr true /\
    (forall other, other <> ("ls", "dir") ->
       exist_rewrite d2 other = exist_rewrite d1 other) /\
    (forall rows, Rewrites (DBConnection_init None) = Some rows ->
       Rewrites d2 = Some (rows ++ [("ls", "dir")])%list).
Proof.
  split; [reflexivity|].
  apply (added_rewrite_exists (DBConnection_init None) ("ls", "dir")).
  reflexivity.
Defined.

Section RewritesOfACommand.
Context `{DT : DataTools} `{IO : IterationOrder}.

Lemma add_rewrites_members (ast : AST) (rows : list (string * string))
    (acc rewrites : gset string) :
  add_rewrites ast rows acc = Some rewrites ->
  forall x, x ∈ rewrites <->
            x ∈ acc \/
            exists row, row ∈ rows /\ data_rewrite ast (snd row) = Some x.
Proof.
  revert acc. induction rows as [|[a b] rows IH]; intros acc Hadd x;
    simpl in Hadd.
  - injection Hadd as <-. split; [auto|].
    intros [H|(row & Hin & _)]; [exact H|].
    apply elem_of_nil in Hin. contradiction.
  - destruct (data_rewrite ast b) as [s|] eqn:Hs; [|discriminate Hadd].
    rewrite (IH _ Hadd x), elem_of_union, elem_of_singleton. split.
    + intros [[H| ->]|(row & Hin & Heq)]; auto.
      * right. exists (a, b). split; [left|exact Hs].
      * right. exists row. split; [right; exact Hin|exact Heq].
    + intros [H|(row & Hin & Heq)]; auto.
      apply elem_of_cons in Hin as [->|Hin].
      * simpl in Heq. rewrite Hs in Heq. injection Heq as ->. auto.
      * right. exists row. auto.
Qed.

(** What [get_rewrites(ast)] returns, when it returns: the full
    template of the command, and exactly the results of
    [data_tools.rewrite(ast, s2)] for the [s2] stored as rewrites of the
    loose template of the command. *)
Theorem get_rewrites_members (d : DBConnection) (ast : AST)
    (rewrites : gset string)
    (Hget : get_rewrites d ast = inr rewrites) :
  exists cmd s1,
    ast2template_full ast = Some cmd /\
    ast2template_loose ast = Some s1 /\
    forall x, x ∈ rewrites <->
              x = cmd \/
              exists s2, exist_rewrite d (s1, s2) = inr true /\
                         data_rewrite ast s2 = Some x.
Proof.
  unfold get_rewrites in Hget.
  destruct (ast2template_full ast) as [cmd|]; [|discriminate Hget].
  destruct (ast2template_loose ast) as [s1|]; [|discriminate Hget].
  destruct d as [file c]. simpl in Hget.
  destruct c; [discriminate Hget|].
  destruct file as [rows|]; [|discriminate Hget].
  destruct (add_rewrites ast (select_s1 s1 rows) {[cmd]}) as [rs|] eqn:Hadd;
    [|discriminate Hget].
  injection Hget as <-. exists cmd, s1.
  split; [reflexivity|]. split; [reflexivity|].
  intros x. rewrite (add_rewrites_members _ _ _ _ Hadd x), elem_of_singleton.
  split; (intros [H|H]; [left; exact H|right]).
  - destruct H as ([a b] & Hin & Heq). apply select_s1_elem in Hin.
    simpl in Hin, Heq. destruct Hin as [Hin ->]. exists b.
    split; [|exact Heq].
    apply exist_rewrite_true. simpl. eauto.
  - destruct H as (s2 & Hex & Heq). apply exist_rewrite_true in Hex.
    destruct Hex as [_ (rows' & Hrows & Hin)]. simpl in Hrows.
    injection Hrows as <-. exists (s1, s2). split; [|exact Heq].
    apply select_s1_elem. auto.
Qed.

Lemma get_rewrites_not_empty (d : DBConnection) (ast : AST)
    (rewrites : gset string) :
  get_rewrites d ast = inr rewrites -> size rewrites <> 0%nat.
Proof.
  intros Hget Hsize. apply size_empty_inv in Hsize.
  unfold get_rewrites in Hget.
  destruct (ast2template_full ast) as [cmd|]; [|discriminate Hget].
  destruct (ast2template_loose ast) as [s1|]; [|discriminate Hget].
  destruct (closed d); [discriminate Hget|].
  destruct (Rewrites d) as [rows|]; [|discriminate Hget].
  destruct (add_rewrites ast (select_s1 s1 rows) {[cmd]}) as [rs|] eqn:Hadd;
    [|discriminate Hget].
  injection Hget as <-.
  assert (Hin : cmd ∈ rs).
  { apply (add_rewrites_members _ _ _ _ Hadd). left.
    apply elem_of_singleton. reflexivity. }
  apply Hsize in Hin. apply elem_of_empty in Hin. exact Hin.
Qed.

(** [test_rewrite] never prints a rewrite and never ends normally.
    Whatever the command and the file, it ends with an exception, prints
    nothing and leaves the file as it was; the exception is the TypeError
    of [rewrites[i]] exactly when [get_rewrites] returned, and on a file
    without the table it is never that one. *)
Theorem test_rewrite_always_raises (file : option (list (string * string)))
    (cmd : string) :
  exists e,
    test_rewrite file cmd = (Some e, file, []) /\
    (e = SetIndexError <->
     exists ast rewrites,
       bash_parser cmd = Some ast /\
       get_rewrites (DBConnection_init file) ast = inr rewrites) /\
    (file = None -> e = DataToolsError \/ e = OperationalError).
Proof.
  unfold test_rewrite.
  destruct (bash_parser cmd) as [ast|] eqn:Hast.
  - destruct (get_rewrites (DBConnection_init file) ast) as [e|rs] eqn:Hget.
    + exists e. split; [reflexivity|]. split; [split|].
      * intros ->. exfalso. unfold get_rewrites in Hget.
        destruct (ast2template_full ast); [|discriminate Hget].
        destruct (ast2template_loose ast); [|discriminate Hget].
        simpl in Hget. destruct file; [|discriminate Hget].
        destruct (add_rewrites _ _ _); discriminate Hget.
      * intros (ast' & rs & [= <-] & Hrs). rewrite Hget in Hrs.
        discriminate Hrs.
      * intros ->. unfold get_rewrites in Hget.
        destruct (ast2template_full ast); [|injection Hget as <-; auto].
        destruct (ast2template_loose ast); [|injection Hget as <-; auto].
        simpl in Hget. injection Hget as <-. auto.
    + pose proof (get_rewrites_not_empty _ _ _ Hget) as Hsize.
      destruct (size rs); [contradiction Hsize; reflexivity|].
      exists SetIndexError. split; [reflexivity|]. split; [split|].
      * intros _. exists ast, rs. auto.
      * reflexivity.
      * intros ->. exfalso. unfold get_rewrites in Hget.
        destruct (ast2template_full ast); [|discriminate Hget].
        destruct (ast2template_loose ast); discriminate Hget.
  - exists DataToolsError. split; [reflexivity|]. split; [split|].
    + discriminate.
    + intros (ast & rs & Hast' & _). discriminate Hast'.
    + auto.
Qed.

End RewritesOfACommand.

Lemma get_rewrites_members_witness :
  let d := {| Rewrites := Some [("ls", "dir"); ("rm", "del")];
              closed := false |} in
  let rewrites : gset string := {["ls -l"; "dir ls -l"]} in
  @get_rewrites RewriteExamples.tools d "ls -l" = inr rewrites /\
  exists cmd s1,
    @ast2template_full RewriteExamples.tools "ls -l" = Some cmd /\
    @ast2template_loose RewriteExamples.tools "ls -l" = Some s1 /\
    forall x, x ∈ rewrites <->
              x = cmd \/
              exists s2, exist_rewrite d (s1, s2) = inr true /\
                         @data_rewrite RewriteExamples.tools "ls -l" s2
                         = Some x.
Proof.
  intros d rewrites.
  assert (Hget : @get_rewrites RewriteExamples.tools d "ls -l" = inr rewrites).
  { unfold get_rewrites, d, rewrites. simpl.
    f_equal; apply set_eq; intros x; set_solver. }
  split; [exact Hget|].
  exact (@get_rewrites_members RewriteExamples.tools d "ls -l" _ Hget).
Defined.

Section StoringGroups.
Context `{DT : DataTools} `{IO : IterationOrder}.

Lemma add_if_new_known (a b : string) (s : Session)
    (rows : list (string * string)) :
  open_with s rows -> (a, b) ∈ rows -> add_if_new a s b = s.
Proof.
  intros (Hf & Hc & Hr) Hin. unfold add_if_new, exist_rewrite.
  rewrite Hf, Hc, Hr. apply exists_row in Hin. rewrite Hin. reflexivity.
Qed.

Lemma add_if_new_fresh (a b : string) (s : Session)
    (rows : list (string * string)) :
  open_with s rows -> (a, b) ∉ rows ->
  open_with (add_if_new a s b) (rows ++ [(a, b)]) /\
  out (add_if_new a s b) = (out s ++ [rewrite_line a b])%list.
Proof.
  intros (Hf & Hc & Hr) Hin. unfold add_if_new, exist_rewrite, add_rewrite.
  rewrite Hf, Hc, Hr.
  destruct (existsb _ rows) eqn:Hex.
  { apply exists_row in Hex. contradiction. }
  simpl. unfold open_with. simpl. auto.
Qed.

Lemma pairs_loop (keys : list string) (a : string) (s : Session)
    (rows : list (string * string)) :
  open_with s rows ->
  exists new,
    open_with (foldl (add_if_new a) s keys) (rows ++ new) /\
    NoDup new /\
    (forall p, p ∈ new -> (p ∉ rows) /\ fst p = a /\ snd p ∈ keys) /\
    (forall b, b ∈ keys -> (a, b) ∈ (rows ++ new)%list) /\
    out (foldl (add_if_new a) s keys) = (out s ++ map line_of new)%list.
Proof.
  revert s rows. induction keys as [|b keys IH]; intros s rows Hs; simpl.
  - exists []. simpl. rewrite !app_nil_r. split; [exact Hs|].
    split; [constructor|]. split; [|split; [|reflexivity]].
    + intros p Hp. apply elem_of_nil in Hp. contradiction.
    + intros b Hb. apply elem_of_nil in Hb. contradiction.
  - destruct (decide ((a, b) ∈ rows)) as [Hin|Hin].
    + rewrite (add_if_new_known a b s rows Hs Hin).
      destruct (IH s rows Hs) as (new & Ho & Hnd & Hnew & Hcov & Hout).
      exists new. split; [exact Ho|]. split; [exact Hnd|].
      split; [|split; [|exact Hout]].
      * intros p Hp. destruct (Hnew p Hp) as (Hp1 & Hp2 & Hp3).
        split; [exact Hp1|]. split; [exact Hp2|]. right. exact Hp3.
      * intros b' Hb'. apply elem_of_cons in Hb' as [->|Hb'].
        -- apply elem_of_app. left. exact Hin.
        -- apply Hcov. exact Hb'.
    + destruct (add_if_new_fresh a b s rows Hs Hin) as [Hs1 Hout1].
      destruct (IH _ _ Hs1) as (new & Ho & Hnd & Hnew & Hcov & Hout).
      exists ((a, b) :: new).
      rewrite <- app_assoc in Ho. simpl in Ho.
      split; [exact Ho|]. split; [|split; [|split]].
      * constructor; [|exact Hnd]. intros Hab. apply Hnew in Hab as [Hab _].
        apply Hab. apply elem_of_app. right. left.
      * intros p Hp. apply elem_of_cons in Hp as [->|Hp].
        { simpl. split; [exact Hin|]. split; [reflexivity|left]. }
        destruct (Hnew p Hp) as (Hp1 & Hp2 & Hp3).
        split; [|split; [exact Hp2|right; exact Hp3]].
        intros Hr. apply Hp1. apply elem_of_app. left. exact Hr.
      * intros b' Hb'. apply elem_of_cons in Hb' as [->|Hb'].
        -- apply elem_of_app. right. left.
        -- apply Hcov in Hb'. rewrite <- app_assoc in Hb'. exact Hb'.
      * rewrite Hout, Hout1, <- app_assoc. reflexivity.
Qed.

Lemma group_loop (keys1 keys2 : list string) (s : Session)
    (rows : list (string * string)) :
  open_with s rows ->
  let s' := foldl (fun s a => foldl (add_if_new a) s keys2) s keys1 in
  exists new,
    open_with s' (rows ++ new) /\
    NoDup new /\
    (forall p, p ∈ new -> (p ∉ rows) /\ fst p ∈ keys1 /\ snd p ∈ keys2) /\
    (forall a b, a ∈ keys1 -> b ∈ keys2 -> (a, b) ∈ (rows ++ new)%list) /\
    out s' = (out s ++ map line_of new)%list.
Proof.
  revert s rows. induction keys1 as [|a keys1 IH]; intros s rows Hs; simpl.
  - exists []. simpl. rewrite !app_nil_r. split; [exact Hs|].
    split; [constructor|]. split; [|split; [|reflexivity]].
    + intros p Hp. apply elem_of_nil in Hp. contradiction.
    + intros a b Ha. apply elem_of_nil in Ha. contradiction.
  - destruct (pairs_loop keys2 a s rows Hs)
      as (new0 & Ho0 & Hnd0 & Hnew0 & Hcov0 & Hout0).
    destruct (IH _ _ Ho0) as (new1 & Ho1 & Hnd1 & Hnew1 & Hcov1 & Hout1).
    exists (new0 ++ new1)%list.
    rewrite <- app_assoc in Ho1.
    split; [exact Ho1|]. split; [|split; [|split]].
    + apply NoDup_app. split; [exact Hnd0|]. split; [|exact Hnd1].
      intros p Hp0 Hp1. apply Hnew1 in Hp1 as [Hp1 _]. apply Hp1.
      apply elem_of_app. right. exact Hp0.
    + intros p Hp. apply elem_of_app in Hp as [Hp|Hp].
      * destruct (Hnew0 p Hp) as (Hp1 & Hp2 & Hp3).
        split; [exact Hp1|]. split; [rewrite Hp2; left|exact Hp3].
      * destruct (Hnew1 p Hp) as (Hp1 & Hp2 & Hp3).
        split; [|split; [right; exact Hp2|exact Hp3]].
        intros Hr. apply Hp1. apply elem_of_app. left. exact Hr.
    + intros a' b Ha' Hb. apply elem_of_cons in Ha' as [->|Ha'].
      * apply Hcov0 in Hb. rewrite app_assoc. apply elem_of_app. left.
        exact Hb.
      * rewrite app_assoc. apply Hcov1; assumption.
    + rewrite Hout1, Hout0, map_app, <- app_assoc. reflexivity.
Qed.

Lemma print_line_open (line : string) (s : Session)
    (rows : list (string * string)) :
  open_with s rows ->
  open_with (print_line line s) rows /\
  out (print_line line s) = (out s ++ [line])%list.
Proof.
  intros (Hf & Hc & Hr). unfold print_line, open_with. rewrite Hf. simpl.
  auto.
Qed.

Lemma store_group_spec (item : string * gmap string nat) (s : Session)
    (rows : list (string * string)) :
  open_with s rows ->
  exists new,
    open_with (store_group s item) (rows ++ new) /\
    NoDup new /\
    (forall p, p ∈ new ->
       (p ∉ rows) /\ big item = true /\
       fst p ∈ group_keys item /\ snd p ∈ group_keys item) /\
    (big item = true ->
     forall a b, a ∈ group_keys item -> b ∈ group_keys item ->
                 (a, b) ∈ (rows ++ new)%list) /\
    out (store_group s item)
    = (out s ++ (if big item
                 then fst item :: map line_of new ++ [""]
                 else []))%list.
Proof.
  intros Hs. unfold store_group. destruct (big item) eqn:Hbig.
  - destruct (print_line_open (fst item) s rows Hs) as [Hs1 Hout1].
    destruct (group_loop (group_keys item) (group_keys item) _ _ Hs1)
      as (new & Ho & Hnd & Hnew & Hcov & Hout).
    destruct (print_line_open "" _ _ Ho) as [Hs2 Hout2].
    exists new. split; [exact Hs2|]. split; [exact Hnd|].
    split; [|split].
    + intros p Hp. destruct (Hnew p Hp) as (Hp1 & Hp2 & Hp3). auto.
    + intros _. exact Hcov.
    + rewrite Hout2, Hout, Hout1, <- !app_assoc. reflexivity.
  - exists []. rewrite !app_nil_r. split; [exact Hs|].
    split; [constructor|]. split; [|split].
    + intros p Hp. apply elem_of_nil in Hp. contradiction.
    + discriminate.
    + reflexivity.
Qed.

Lemma store_groups_spec (items : list (string * gmap string nat))
    (s : Session) (rows : list (string * string)) :
  open_with s rows ->
  let s' := foldl store_group s items in
  exists new,
    open_with s' (rows ++ new) /\
    NoDup new /\
    (forall p, p ∈ new ->
       (p ∉ rows) /\ line_of p ∈ out s' /\
       exists item, item ∈ items /\ big item = true /\
                    fst p ∈ group_keys item /\ snd p ∈ group_keys item) /\
    (forall item a b,
       item ∈ items -> big item = true ->
       a ∈ group_keys item -> b ∈ group_keys item ->
       (a, b) ∈ (rows ++ new)%list) /\
    (forall line, line ∈ out s -> line ∈ out s') /\
    length (out s')
    = (length (out s) + length new + 2 * length (List.filter big items))%nat.
Proof.
  revert s rows. induction items as [|item items IH]; intros s rows Hs; simpl.
  - exists []. rewrite !app_nil_r. split; [exact Hs|].
    split; [constructor|]. split; [|split; [|split]].
    + intros p Hp. apply elem_of_nil in Hp. contradiction.
    + intros item a b Hi. apply elem_of_nil in Hi. contradiction.
    + auto.
    + simpl. lia.
  - destruct (store_group_spec item s rows Hs)
      as (new0 & Ho0 & Hnd0 & Hnew0 & Hcov0 & Hout0).
    destruct (IH _ _ Ho0)
      as (new1 & Ho1 & Hnd1 & Hnew1 & Hcov1 & Hkeep1 & Hlen1).
    exists (new0 ++ new1)%list.
    rewrite <- app_assoc in Ho1, Hcov1.
    split; [exact Ho1|]. split; [|split; [|split; [|split]]].
    + apply NoDup_app. split; [exact Hnd0|]. split; [|exact Hnd1].
      intros p Hp0 Hp1. apply Hnew1 in Hp1 as [Hp1 _]. apply Hp1.
      apply elem_of_app. right. exact Hp0.
    + intros p Hp. apply elem_of_app in Hp as [Hp|Hp].
      * destruct (Hnew0 p Hp) as (Hp1 & Hp2 & Hp3 & Hp4).
        split; [exact Hp1|]. split.
        -- apply Hkeep1. rewrite Hout0, Hp2. apply elem_of_app. right.
           right. apply elem_of_app. left. apply list_elem_of_fmap.
           exists p. auto.
        -- exists item. split; [left|]. auto.
      * destruct (Hnew1 p Hp) as (Hp1 & Hp2 & item' & Hi & Hrest).
        split; [|split; [exact Hp2|]].
        -- intros Hr. apply Hp1. apply elem_of_app. left. exact Hr.
        -- exists item'. split; [right; exact Hi|exact Hrest].
    + intros item' a b Hi Hbig Ha Hb. apply elem_of_cons in Hi as [->|Hi].
      * rewrite app_assoc. apply elem_of_app. left.
        apply Hcov0; assumption.
      * apply (Hcov1 item'); assumption.
    + intros line Hl. apply Hkeep1. rewrite Hout0. apply elem_of_app.
      left. exact Hl.
    + rewrite Hlen1, Hout0, !length_app. destruct (big item) eqn:Hbig.
      * simpl. rewrite !length_app, length_map. simpl. lia.
      * destruct new0 as [|p new0]; [simpl; lia|].
        destruct (Hnew0 p) as (_ & Hb & _); [left|discriminate Hb].
Qed.

Lemma store_groups_nothing_new (items : list (string * gmap string nat))
    (s : Session) (rows : list (string * string)) :
  open_with s rows ->
  (forall item a b,
     item ∈ items -> big item = true ->
     a ∈ group_keys item -> b ∈ group_keys item -> (a, b) ∈ rows) ->
  open_with (foldl store_group s items) rows /\
  out (foldl store_group s items)
  = (out s ++ flat_map (fun item => [fst item; ""]) (List.filter big items))%list.
Proof.
  revert s. induction items as [|item items IH]; intros s Hs Hall; simpl.
  - rewrite app_nil_r. auto.
  - assert (Hstep : open_with (store_group s item) rows /\
                    out (store_group s item)
                    = (out s ++ (if big item then [fst item; ""] else []))%list).
    { unfold store_group. destruct (big item) eqn:Hbig;
        [|rewrite app_nil_r; auto].
      destruct (print_line_open (fst item) s rows Hs) as [Hs1 Hout1].
      assert (Hloop : forall keys1 keys2,
        (forall a b, a ∈ keys1 -> b ∈ keys2 -> (a, b) ∈ rows) ->
        foldl (fun s a => foldl (add_if_new a) s keys2)
              (print_line (fst item) s) keys1
        = print_line (fst item) s).
      { induction keys1 as [|a keys1 IH1]; intros keys2 Hk; simpl;
          [reflexivity|].
        assert (Hin : foldl (add_if_new a) (print_line (fst item) s) keys2
                      = print_line (fst item) s).
        { assert (Ha : forall b, b ∈ keys2 -> (a, b) ∈ rows)
            by (intros b Hb; apply Hk; [left|exact Hb]).
          clear Hk IH1. induction keys2 as [|b keys2 IH2]; simpl;
            [reflexivity|].
          rewrite (add_if_new_known a b _ rows Hs1); [|apply Ha; left].
          apply IH2. intros b' Hb'. apply Ha. right. exact Hb'. }
        rewrite Hin. apply IH1. intros a' b Ha' Hb. apply Hk; [right|];
          assumption. }
      rewrite Hloop.
      - destruct (print_line_open "" _ _ Hs1) as [Hs2 Hout2].
        split; [exact Hs2|]. rewrite Hout2, Hout1, <- app_assoc. reflexivity.
      - intros a b Ha Hb. apply (Hall item); auto. left. }
    destruct Hstep as [Hs1 Hout1].
    destruct (IH _ Hs1) as [Hs2 Hout2].
    { intros item' a b Hi. apply Hall. right. exact Hi. }
    split; [exact Hs2|]. rewrite Hout2, Hout1, <- app_assoc.
    destruct (big item); reflexivity.
Qed.

Lemma extract_rewrites_stored (file : option (list (string * string)))
    (nls cms : list string) (items : list (string * gmap string nat)) :
  stored_groups nls cms = Some items ->
  let s := foldl store_group
                 {| db := {| Rewrites := Some (default [] file);
                             closed := false |};
                    out := []; failed := None |} items in
  extract_rewrites file nls cms = (failed s, Rewrites (db s), out s).
Proof.
  intros Hitems. unfold extract_rewrites. rewrite Hitems. reflexivity.
Qed.

Lemma extract_rewrites_returned (file file' : option (list (string * string)))
    (nls cms : list string) (printed : list string) :
  extract_rewrites file nls cms = (None, file', printed) ->
  exists items, stored_groups nls cms = Some items.
Proof.
  unfold extract_rewrites.
  destruct (stored_groups nls cms) as [items|]; [eauto|discriminate].
Qed.

Lemma start_open (file : option (list (string * string))) :
  open_with {| db := {| Rewrites := Some (default [] file);
                        closed := false |};
               out := []; failed := None |} (default [] file).
Proof. repeat split. Qed.

(** When [extract_rewrites] returns, the table holds the rows it
    held before, in their order, followed by new rows: each new row was
    not in the table, no new row comes twice, each new row has its line
    ["* s1 --> s2"] printed, and the lines printed are one per new row
    and two (the sentence and an empty line) per group stored. *)
Theorem extract_rewrites_adds_fresh_rows
    (file file' : option (list (string * string)))
    (nls cms : list string) (printed : list string)
    (Hrun : extract_rewrites file nls cms = (None, file', printed)) :
  exists new items,
    file' = Some (default [] file ++ new)%list /\
    NoDup new /\
    (forall row, row ∈ new ->
       (row ∉ default [] file) /\ line_of row ∈ printed) /\
    stored_groups nls cms = Some items /\
    length printed = (length new + 2 * length (List.filter big items))%nat.
Proof.
  destruct (extract_rewrites_returned _ _ _ _ _ Hrun) as [items Hitems].
  rewrite (extract_rewrites_stored file _ _ _ Hitems) in Hrun.
  destruct (store_groups_spec items _ _ (start_open file))
    as (new & (Hf & Hc & Hr) & Hnd & Hnew & Hcov & _ & Hlen).
  injection Hrun as _ Hfile Hout. rewrite Hr in Hfile.
  exists new, items. subst file' printed.
  split; [reflexivity|]. split; [exact Hnd|]. split; [|split].
  - intros row Hrow. destruct (Hnew row Hrow) as (H1 & H2 & _). auto.
  - exact Hitems.
  - rewrite Hlen. simpl. reflexivity.
Qed.

(** When [extract_rewrites] returns, every pair of templates of a
    group it stored is a row of the table, in both directions and each
    template with itself; and a row it added comes with its reverse and
    with the two rows pairing each of its templates with itself. *)
Theorem extract_rewrites_stores_all_pairs
    (file file' : option (list (string * string)))
    (nls cms : list string) (printed : list string)
    (Hrun : extract_rewrites file nls cms = (None, file', printed)) :
  exists rows new items,
    file' = Some rows /\ rows = (default [] file ++ new)%list /\
    stored_groups nls cms = Some items /\
    (forall item a b,
       item ∈ items -> big item = true ->
       a ∈ group_keys item -> b ∈ group_keys item -> (a, b) ∈ rows) /\
    (forall a b, (a, b) ∈ new ->
       (b, a) ∈ rows /\ (a, a) ∈ rows /\ (b, b) ∈ rows).
Proof.
  destruct (extract_rewrites_returned _ _ _ _ _ Hrun) as [items Hitems].
  rewrite (extract_rewrites_stored file _ _ _ Hitems) in Hrun.
  destruct (store_groups_spec items _ _ (start_open file))
    as (new & (Hf & Hc & Hr) & Hnd & Hnew & Hcov & _ & Hlen).
  injection Hrun as _ Hfile Hout. rewrite Hr in Hfile.
  exists (default [] file ++ new)%list, new, items.
  split; [auto|]. split; [reflexivity|]. split; [exact Hitems|].
  split; [exact Hcov|].
  intros a b Hab.
  destruct (Hnew _ Hab) as (_ & _ & item & Hi & Hbig & Ha & Hb).
  simpl in Ha, Hb. repeat split; apply (Hcov item); assumption.
Qed.

(** A second run on the same data, met with the same iteration
    orders, adds nothing: the table stays as the first run left it, and
    the lines printed are only the sentence and the empty line of each
    group stored, with no rewrite between them. *)
Theorem extract_rewrites_again_adds_nothing
    (file file' : option (list (string * string)))
    (nls cms : list string) (printed : list string)
    (Hrun : extract_rewrites file nls cms = (None, file', printed)) :
  exists items,
    stored_groups nls cms = Some items /\
    extract_rewrites file' nls cms
    = (None, file',
       flat_map (fun item => [fst item; ""]) (List.filter big items)).
Proof.
  destruct (extract_rewrites_returned _ _ _ _ _ Hrun) as [items Hitems].
  exists items. split; [exact Hitems|].
  rewrite (extract_rewrites_stored file _ _ _ Hitems) in Hrun.
  destruct (store_groups_spec items _ _ (start_open file))
    as (new & (Hf & Hc & Hr) & Hnd & Hnew & Hcov & _ & Hlen).
  injection Hrun as _ Hfile Hout. rewrite Hr in Hfile. subst file'.
  rewrite (extract_rewrites_stored _ _ _ _ Hitems). simpl default.
  destruct (store_groups_nothing_new items _ _
              (start_open (Some (default [] file ++ new)%list)) Hcov)
    as [(Hf2 & Hc2 & Hr2) Hout2].
  simpl default in Hf2, Hc2, Hr2, Hout2.
  rewrite Hf2, Hr2, Hout2. reflexivity.
Qed.

End StoringGroups.

Lemma example_extract_run :
  @extract_rewrites RewriteExamples.tools RewriteExamples.as_given
    (Some [("ls", "dir")]) RewriteExamples.nls RewriteExamples.cms
  = (None,
     Some [("ls", "dir"); ("find", "find"); ("find", "ls"); ("find", "dir");
           ("ls", "find"); ("ls", "ls"); ("dir", "find"); ("dir", "ls");
           ("dir", "dir")],
     ["list files"; "* find --> find"; "* find --> ls"; "* find --> dir";
      "* ls --> find"; "* ls --> ls"; "* dir --> find"; "* dir --> ls";
      "* dir --> dir"; ""]).
Proof. vm_compute. reflexivity. Defined.

Lemma extract_rewrites_adds_fresh_rows_witness :
  @extract_rewrites RewriteExamples.tools RewriteExamples.as_given
    (Some [("ls", "dir")]) RewriteExamples.nls RewriteExamples.cms
  = (None,
     Some [("ls", "dir"); ("find", "find"); ("find", "ls"); ("find", "dir");
           ("ls", "find"); ("ls", "ls"); ("dir", "find"); ("dir", "ls");
           ("dir", "dir")],
     ["list files"; "* find --> find"; "* find --> ls"; "* find --> dir";
      "* ls --> find"; "* ls --> ls"; "* dir --> find"; "* dir --> ls";
      "* dir --> dir"; ""]) /\
  exists new items,
    Some [("ls", "dir"); ("find", "find"); ("find", "ls"); ("find", "dir");
          ("ls", "find"); ("ls", "ls"); ("dir", "find"); ("dir", "ls");
          ("dir", "dir")]
    = Some (default [] (Some [("ls", "dir")]) ++ new)%list /\
    NoDup new /\
    (forall row, row ∈ new ->
       (row ∉ default [] (Some [("ls", "dir")])) /\
       line_of row ∈
         ["list files"; "* find --> find"; "* find --> ls";
          "* find --> dir"; "* ls --> find"; "* ls --> ls";
          "* dir --> find"; "* dir --> ls"; "* dir --> dir"; ""]) /\
    @stored_groups RewriteExamples.tools RewriteExamples.as_given
      RewriteExamples.nls RewriteExamples.cms = Some items /\
    length ["list files"; "* find --> find"; "* find --> ls";
            "* find --> dir"; "* ls --> find"; "* ls --> ls";
            "* dir --> find"; "* dir --> ls"; "* dir --> dir"; ""]
    = (length new + 2 * length (List.filter big items))%nat.
Proof.
  split; [exact example_extract_run|].
  exact (@extract_rewrites_adds_fresh_rows
           RewriteExamples.tools RewriteExamples.as_given
           _ _ _ _ _ example_extract_run).
Defined.

Lemma extract_rewrites_stores_all_pairs_witness :
  @extract_rewrites RewriteExamples.tools RewriteExamples.as_given
    (Some [("ls", "dir")]) RewriteExamples.nls RewriteExamples.cms
  = (None,
     Some [("ls", "dir"); ("find", "find"); ("find", "ls"); ("find", "dir");
           ("ls", "find"); ("ls", "ls"); ("dir", "find"); ("dir", "ls");
           ("dir", "dir")],
     ["list files"; "* find --> find"; "* find --> ls"; "* find --> dir";
      "* ls --> find"; "* ls --> ls"; "* dir --> find"; "* dir --> ls";
      "* dir --> dir"; ""]) /\
  exists rows new items,
    Some [("ls", "dir"); ("find", "find"); ("find", "ls"); ("find", "dir");
          ("ls", "find"); ("ls", "ls"); ("dir", "find"); ("dir", "ls");
          ("dir", "dir")] = Some rows /\
    rows = (default [] (Some [("ls", "dir")]) ++ new)%list /\
    @stored_groups RewriteExamples.tools RewriteExamples.as_given
      RewriteExamples.nls RewriteExamples.cms = Some items /\
    (forall item a b,
       item ∈ items -> big item = true ->
       a ∈ @group_keys RewriteExamples.as_given item ->
       b ∈ @group_keys RewriteExamples.as_given item -> (a, b) ∈ rows) /\
    (forall a b, (a, b) ∈ new ->
       (b, a) ∈ rows /\ (a, a) ∈ rows /\ (b, b) ∈ rows).
Proof.
  split; [exact example_extract_run|].
  exact (@extract_rewrites_stores_all_pairs
           RewriteExamples.tools RewriteExamples.as_given
           _ _ _ _ _ example_extract_run).
Defined.

Lemma extract_rewrites_again_adds_nothing_witness :
  @extract_rewrites RewriteExamples.tools RewriteExamples.as_given
    (Some [("ls", "dir")]) RewriteExamples.nls RewriteExamples.cms
  = (None,
     Some [("ls", "dir"); ("find", "find"); ("find", "ls"); ("find", "dir");
           ("ls", "find"); ("ls", "ls"); ("dir", "find"); ("dir", "ls");
           ("dir", "dir")],
     ["list files"; "* find --> find"; "* find --> ls"; "* find --> dir";
      "* ls --> find"; "* ls --> ls"; "* dir --> find"; "* dir --> ls";
      "* dir --> dir"; ""]) /\
  exists items,
    @stored_groups RewriteExamples.tools RewriteExamples.as_given
      RewriteExamples.nls RewriteExamples.cms = Some items /\
    @extract_rewrites RewriteExamples.tools RewriteExamples.as_given
      (Some [("ls", "dir"); ("find", "find"); ("find", "ls");
             ("find", "dir"); ("ls", "find"); ("ls", "ls"); ("dir", "find");
             ("dir", "ls"); ("dir", "dir")])
      RewriteExamples.nls RewriteExamples.cms
    = (None,
       Some [("ls", "dir"); ("find", "find"); ("find", "ls");
             ("find", "dir"); ("ls", "find"); ("ls", "ls"); ("dir", "find");
             ("dir", "ls"); ("dir", "dir")],
       flat_map (fun item => [fst item; ""]) (List.filter big items)).
Proof.
  split; [exact example_extract_run|].
  exact (@extract_rewrites_again_adds_nothing
           RewriteExamples.tools RewriteExamples.as_given
           _ _ _ _ _ example_extract_run).
Defined.

(** The second run of the example prints the sentence of the one group
    stored and an empty line. *)
Example example_extract_again :
  @extract_rewrites RewriteExamples.tools RewriteExamples.as_given
    (Some [("ls", "dir"); ("find", "find"); ("find", "ls");
           ("find", "dir"); ("ls", "find"); ("ls", "ls"); ("dir", "find");
           ("dir", "ls"); ("dir", "dir")])
    RewriteExamples.nls RewriteExamples.cms
  = (None,
     Some [("ls", "dir"); ("find", "find"); ("find", "ls");
           ("find", "dir"); ("ls", "find"); ("ls", "ls"); ("dir", "find");
           ("dir", "ls"); ("dir", "dir")],
     ["list files"; ""]).
Proof. vm_compute. reflexivity. Qed.

(** Met with another iteration order, the same data gives the group
    another sentence and the rows another order. *)
Example example_extract_backwards :
  @extract_rewrites RewriteExamples.tools RewriteExamples.backwards
    None RewriteExamples.nls RewriteExamples.cms
  = (None,
     Some [("dir", "dir"); ("dir", "ls"); ("dir", "find"); ("ls", "dir");
           ("ls", "ls"); ("ls", "find"); ("find", "dir"); ("find", "ls");
           ("find", "find")],
     ["show files"; "* dir --> dir"; "* dir --> ls"; "* dir --> find";
      "* ls --> dir"; "* ls --> ls"; "* ls --> find"; "* find --> dir";
      "* find --> ls"; "* find --> find"; ""]).
Proof. vm_compute. reflexivity. Qed.

Section GroupingPairs.
Context `{DT : DataTools} `{IO : IterationOrder}.

Lemma add_pair_skipped (p : string * string) (g : Groups) :
  skipped p = true -> add_pair p g = Some g.
Proof.
  unfold skipped, add_pair. intros Hs.
  destruct (String.eqb (lower (strip (fst p))) "na"); [reflexivity|].
  destruct (String.eqb (strip (fst p)) ""); [reflexivity|].
  destruct (String.eqb (strip (snd p)) ""); [reflexivity|].
  discriminate Hs.
Qed.

Lemma add_pair_kept (p : string * string) (g : Groups) :
  skipped p = false ->
  is_Some (add_pair p g) <->
  is_Some (basic_tokenizer (strip (fst p))) /\
  is_Some (cmd2template (strip (snd p))).
Proof.
  unfold skipped, add_pair. intros Hs.
  destruct (String.eqb (lower (strip (fst p))) "na"); [discriminate Hs|].
  destruct (String.eqb (strip (fst p)) ""); [discriminate Hs|].
  destruct (String.eqb (strip (snd p)) ""); [discriminate Hs|].
  destruct (basic_tokenizer (strip (fst p))) as [tokens|].
  - destruct (cmd2template (strip (snd p))) as [cm_temp|].
    + destruct (default ∅ _ !! cm_temp); simpl; split; eauto.
    + split; [intros [x Hx]; discriminate Hx|].
      intros [_ [x Hx]]. discriminate Hx.
  - split; [intros [x Hx]; discriminate Hx|].
    intros [[x Hx] _]. discriminate Hx.
Qed.

Lemma group_pairs_kept (pairs : list (string * string)) (g : Groups) :
  group_pairs pairs g
  = group_pairs (List.filter (fun p => negb (skipped p)) pairs) g.
Proof.
  revert g. induction pairs as [|p pairs IH]; intros g; simpl; [reflexivity|].
  destruct (skipped p) eqn:Hs; simpl.
  - rewrite (add_pair_skipped p g Hs). apply IH.
  - destruct (add_pair p g); [apply IH|reflexivity].
Qed.

Lemma group_pairs_succeeds (pairs : list (string * string)) (g : Groups) :
  is_Some (group_pairs pairs g) <-> forall p, p ∈ pairs -> usable p.
Proof.
  revert g. induction pairs as [|p pairs IH]; intros g; simpl.
  - split; [|eauto]. intros _ p Hp. apply elem_of_nil in Hp. contradiction.
  - destruct (skipped p) eqn:Hs.
    + rewrite (add_pair_skipped p g Hs), IH. split.
      * intros Hall q Hq. apply elem_of_cons in Hq as [->|Hq]; [|auto].
        intros Hk. rewrite Hs in Hk. discriminate Hk.
      * intros Hall q Hq. apply Hall. right. exact Hq.
    + pose proof (add_pair_kept p g Hs) as Hk.
      destruct (add_pair p g) as [g'|].
      * rewrite IH. split.
        -- intros Hall q Hq. apply elem_of_cons in Hq as [->|Hq]; [|auto].
           intros _. apply Hk. eauto.
        -- intros Hall q Hq. apply Hall. right. exact Hq.
      * split; [intros [x Hx]; discriminate Hx|].
        intros Hall. apply Hk. apply (Hall p); [left|exact Hs].
Qed.

Lemma filter_kept_again (pairs : list (string * string)) :
  List.filter (fun p => negb (skipped p))
              (List.filter (fun p => negb (skipped p)) pairs)
  = List.filter (fun p => negb (skipped p)) pairs.
Proof.
  induction pairs as [|p pairs IH]; simpl; [reflexivity|].
  destruct (negb (skipped p)) eqn:Hp; simpl; [|exact IH].
  rewrite Hp, IH. reflexivity.
Qed.

Lemma zip_of_pairs (pairs : list (string * string)) :
  zip (fst <$> pairs) (snd <$> pairs) = pairs.
Proof.
  induction pairs as [|[a b] pairs IH]; simpl; [reflexivity|].
  f_equal. exact IH.
Qed.

(** The pairs that the first loop passes over (a sentence that is
    empty or "na" in any case after stripping, or a command that is
    empty after stripping) have no effect at all: run on the remaining
    pairs alone, [extract_rewrites] ends the same way, leaves the same
    table and prints the same lines. *)
Theorem extract_rewrites_ignores_skipped_pairs
    (file : option (list (string * string))) (nls cms : list string) :
  extract_rewrites file nls cms
  = extract_rewrites file (fst <$> kept nls cms) (snd <$> kept nls cms).
Proof.
  unfold extract_rewrites, stored_groups.
  rewrite zip_of_pairs, (group_pairs_kept (zip nls cms)).
  rewrite (group_pairs_kept (kept nls cms)). unfold kept.
  rewrite filter_kept_again. reflexivity.
Qed.

(** [extract_rewrites] raises only from [data_tools], and then
    before it opens the file: either it returns, or the exception is the
    one raised by [basic_tokenizer] or [cmd2template], the file is as it
    was and nothing is printed.  It returns exactly when the two accept
    every pair that is not passed over. *)
Theorem extract_rewrites_fails_only_in_data_tools
    (file : option (list (string * string))) (nls cms : list string) :
  (fst (fst (extract_rewrites file nls cms)) = None \/
   extract_rewrites file nls cms = (Some DataToolsError, file, [])) /\
  (fst (fst (extract_rewrites file nls cms)) = None <->
   forall p, p ∈ zip nls cms -> usable p).
Proof.
  pose proof (group_pairs_succeeds (zip nls cms)
                {| group_pairs_by_nl := ∅; counters := [] |}) as Hok.
  destruct (stored_groups nls cms) as [items|] eqn:Hitems.
  - rewrite (extract_rewrites_stored file _ _ _ Hitems). simpl.
    destruct (store_groups_spec items _ _ (start_open file))
      as (new & (Hf & _) & _).
    split; [left; exact Hf|]. split; [intros _|intros _; exact Hf].
    apply Hok. unfold stored_groups in Hitems.
    destruct (group_pairs _ _); [eauto|discriminate Hitems].
  - unfold extract_rewrites. rewrite Hitems. simpl.
    split; [right; reflexivity|]. split; [discriminate|].
    intros Hall. apply Hok in Hall as [g Hg].
    unfold stored_groups in Hitems. rewrite Hg in Hitems.
    discriminate Hitems.
Qed.

(** On data of which every pair is passed over, and whatever the
    file held, [extract_rewrites] returns, prints nothing and adds no
    row; but the table exists afterwards, also when it did not before. *)
Theorem extract_rewrites_of_nothing
    (file : option (list (string * string))) (nls cms : list string)
    (Horder : order_is_permutation)
    (Hskip : forall p, p ∈ zip nls cms -> skipped p = true) :
  extract_rewrites file nls cms = (None, Some (default [] file), []).
Proof.
  assert (Hnil : forall what, order what [] = []).
  { intros what. apply Permutation_nil_r. exact (Horder what []). }
  unfold extract_rewrites, stored_groups.
  rewrite group_pairs_kept.
  replace (List.filter (fun p => negb (skipped p)) (zip nls cms))
    with (@nil (string * string)).
  - simpl group_pairs. cbv beta iota. simpl group_pairs_by_nl.
    rewrite dom_empty_L, elements_empty, Hnil. simpl merge_groups.
    simpl fst. simpl snd. unfold bash_paraphrases_of. simpl foldl.
    rewrite dom_empty_L, elements_empty, Hnil. reflexivity.
  - symmetry. induction (zip nls cms) as [|p pairs IH]; [reflexivity|].
    simpl. rewrite (Hskip p); [|left]. simpl. apply IH.
    intros q Hq. apply Hskip. right. exact Hq.
Qed.

End GroupingPairs.

Lemma extract_rewrites_of_nothing_witness :
  @order_is_permutation RewriteExamples.as_given /\
  (forall p, p ∈ zip ["NA"; "  "; "list files"; "nA "] ["ls"; "pwd"; " "; "x"]
             -> skipped p = true) /\
  @extract_rewrites RewriteExamples.tools RewriteExamples.as_given
    None ["NA"; "  "; "list files"; "nA "] ["ls"; "pwd"; " "; "x"]
  = (None, Some (default [] None), []).
Proof.
  assert (Horder : @order_is_permutation RewriteExamples.as_given).
  { intros what keys. reflexivity. }
  assert (Hskip : forall p,
    p ∈ zip ["NA"; "  "; "list files"; "nA "] ["ls"; "pwd"; " "; "x"]
    -> skipped p = true).
  { intros p Hp. simpl in Hp.
    repeat (apply elem_of_cons in Hp as [->|Hp]; [reflexivity|]).
    apply elem_of_nil in Hp. contradiction. }
  split; [exact Horder|]. split; [exact Hskip|].
  exact (@extract_rewrites_of_nothing
           RewriteExamples.tools RewriteExamples.as_given
           None _ _ Horder Hskip).
Defined.

Section GroupListFacts.
Context `{DT : DataTools} `{IO : IterationOrder}.

Lemma order_elem (what : iterated) (keys : list string) (x : string) :
  order_is_permutation -> x ∈ order what keys -> x ∈ keys.
Proof. intros Horder Hx. rewrite <- (Horder what keys). exact Hx. Qed.

Lemma merge_groups_flags (keys : list string) (g : Groups) :
  fst <$> snd (merge_groups keys g) = keys.
Proof.
  revert g. induction keys as [|nl keys IH]; intros g; simpl; [reflexivity|].
  f_equal. apply IH.
Qed.

Lemma elem_of_insert_by_size (x y : string * gmap string nat)
    (l : list (string * gmap string nat)) :
  y ∈ insert_by_size x l <-> y = x \/ y ∈ l.
Proof.
  induction l as [|z l IH]; simpl.
  - rewrite list_elem_of_singleton. split; [auto|].
    intros [H|H]; [exact H|]. apply elem_of_nil in H. contradiction.
  - destruct (Nat.ltb _ _).
    + rewrite !elem_of_cons, IH. tauto.
    + rewrite !elem_of_cons. tauto.
Qed.

Lemma elem_of_sorted_by_size (y : string * gmap string nat)
    (l : list (string * gmap string nat)) :
  y ∈ sorted_by_size l <-> y ∈ l.
Proof.
  unfold sorted_by_size. induction l as [|x l IH]; simpl; [reflexivity|].
  rewrite elem_of_insert_by_size, IH, elem_of_cons. reflexivity.
Qed.

End GroupListFacts.

Section GroupsFromData.
Context `{DT : DataTools} `{IO : IterationOrder}.
Variables P Q : string -> Prop.

Lemma groups_from_insert (groups : gmap string (gmap string nat))
    (nl : string) (inner : gmap string nat) :
  groups_from P Q groups -> P nl ->
  (forall t, is_Some (inner !! t) -> Q t) ->
  groups_from P Q (<[nl := inner]> groups).
Proof.
  intros Hg Hnl Hinner nl' inner' Hl.
  destruct (decide (nl = nl')) as [<-|Hne].
  - rewrite lookup_insert_eq in Hl. injection Hl as <-. auto.
  - rewrite lookup_insert_ne in Hl by exact Hne. exact (Hg _ _ Hl).
Qed.

Lemma groups_from_default (groups : gmap string (gmap string nat))
    (nl t : string) :
  groups_from P Q groups ->
  is_Some (default ∅ (groups !! nl) !! t) -> Q t.
Proof.
  intros Hg Ht. destruct (groups !! nl) as [inner|] eqn:Hl; simpl in Ht.
  - exact (proj2 (Hg _ _ Hl) t Ht).
  - rewrite lookup_empty in Ht. destruct Ht as [x Hx]. discriminate Hx.
Qed.

Lemma add_pair_from (p : string * string) (g g' : Groups) :
  (forall tokens, basic_tokenizer (strip (fst p)) = Some tokens ->
                  P (String.concat " " tokens)) ->
  (forall t, cmd2template (strip (snd p)) = Some t -> Q t) ->
  add_pair p g = Some g' ->
  groups_from P Q (group_pairs_by_nl g) ->
  groups_from P Q (group_pairs_by_nl g').
Proof.
  intros HP HQ Hadd Hg. unfold add_pair in Hadd.
  destruct (String.eqb (lower (strip (fst p))) "na");
    [injection Hadd as <-; exact Hg|].
  destruct (String.eqb (strip (fst p)) "");
    [injection Hadd as <-; exact Hg|].
  destruct (String.eqb (strip (snd p)) "");
    [injection Hadd as <-; exact Hg|].
  destruct (basic_tokenizer (strip (fst p))) as [tokens|];
    [|discriminate Hadd].
  destruct (cmd2template (strip (snd p))) as [cm_temp|];
    [|discriminate Hadd].
  specialize (HP tokens eq_refl). specialize (HQ cm_temp eq_refl).
  set (nl_temp := String.concat " " tokens) in *.
  set (by_nl := match group_pairs_by_nl g !! nl_temp with
                | Some _ => group_pairs_by_nl g
                | None => <[nl_temp := ∅]> (group_pairs_by_nl g)
                end) in *.
  assert (Hby : groups_from P Q by_nl).
  { unfold by_nl. destruct (group_pairs_by_nl g !! nl_temp); [exact Hg|].
    apply groups_from_insert; [exact Hg|exact HP|].
    intros t [x Hx]. rewrite lookup_empty in Hx. discriminate Hx. }
  destruct (default ∅ (by_nl !! nl_temp) !! cm_temp) eqn:Hl;
    injection Hadd as <-; simpl.
  - apply groups_from_insert; [exact Hby|exact HP|].
    intros t. apply groups_from_default. exact Hby.
  - apply groups_from_insert; [exact Hby|exact HP|].
    intros t Ht. destruct (decide (cm_temp = t)) as [<-|Hne]; [exact HQ|].
    rewrite lookup_insert_ne in Ht by exact Hne.
    revert Ht. apply groups_from_default. exact Hby.
Qed.

Lemma group_pairs_from (pairs : list (string * string)) (g g' : Groups) :
  (forall p tokens, p ∈ pairs ->
     basic_tokenizer (strip (fst p)) = Some tokens ->
     P (String.concat " " tokens)) ->
  (forall p t, p ∈ pairs -> cmd2template (strip (snd p)) = Some t -> Q t) ->
  group_pairs pairs g = Some g' ->
  groups_from P Q (group_pairs_by_nl g) ->
  groups_from P Q (group_pairs_by_nl g').
Proof.
  revert g. induction pairs as [|p pairs IH]; intros g HP HQ Hgp Hg;
    simpl in Hgp.
  - injection Hgp as <-. exact Hg.
  - destruct (add_pair p g) as [g1|] eqn:Hadd; [|discriminate Hgp].
    apply (IH g1).
    + intros q tokens Hq. apply HP. right. exact Hq.
    + intros q t Hq. apply HQ. right. exact Hq.
    + exact Hgp.
    + apply (add_pair_from p g g1).
      * intros tokens. apply HP. left.
      * intros t. apply HQ. left.
      * exact Hadd.
      * exact Hg.
Qed.

Lemma merge_template_from (nl nl2 cm_temp : string) (g : Groups) :
  groups_from P Q (group_pairs_by_nl g) -> P nl2 -> Q cm_temp ->
  groups_from P Q (group_pairs_by_nl (merge_template nl nl2 g cm_temp)).
Proof.
  intros Hg Hnl2 Hcm. unfold merge_template.
  destruct (default ∅ (group_pairs_by_nl g !! nl2) !! cm_temp) eqn:Hl; simpl;
    [exact Hg|].
  apply groups_from_insert; [exact Hg|exact Hnl2|].
  intros t Ht. destruct (decide (cm_temp = t)) as [<-|Hne]; [exact Hcm|].
  rewrite lookup_insert_ne in Ht by exact Hne.
  revert Ht. apply groups_from_default. exact Hg.
Qed.

Lemma merge_templates_from (nl nl2 : string) (cm_temps : list string)
    (g : Groups) :
  groups_from P Q (group_pairs_by_nl g) -> P nl2 ->
  (forall t, t ∈ cm_temps -> Q t) ->
  groups_from P Q
    (group_pairs_by_nl (foldl (merge_template nl nl2) g cm_temps)).
Proof.
  revert g. induction cm_temps as [|t cm_temps IH]; intros g Hg Hnl2 Hall;
    simpl; [exact Hg|].
  apply IH; [|exact Hnl2|].
  - apply merge_template_from; [exact Hg|exact Hnl2|]. apply Hall. left.
  - intros t' Ht'. apply Hall. right. exact Ht'.
Qed.

Lemma merge_into_from (nl : string) (cm_set : gset string)
    (st : Groups * bool) (nl2 : string) :
  order_is_permutation ->
  groups_from P Q (group_pairs_by_nl (fst st)) -> P nl2 ->
  (forall t, t ∈ cm_set -> Q t) ->
  groups_from P Q (group_pairs_by_nl (fst (merge_into nl cm_set st nl2))).
Proof.
  intros Horder Hg Hnl2 Hset. unfold merge_into.
  destruct (Nat.leb 2 _); [|exact Hg]. simpl.
  apply merge_templates_from; [exact Hg|exact Hnl2|].
  intros t Ht. apply Hset. apply elem_of_elements.
  exact (order_elem _ _ _ Horder Ht).
Qed.

Lemma merge_all_from (nl : string) (cm_set : gset string)
    (rest : list string) (st : Groups * bool) :
  order_is_permutation ->
  groups_from P Q (group_pairs_by_nl (fst st)) ->
  (forall nl2, nl2 ∈ rest -> P nl2) ->
  (forall t, t ∈ cm_set -> Q t) ->
  groups_from P Q
    (group_pairs_by_nl (fst (foldl (merge_into nl cm_set) st rest))).
Proof.
  intros Horder. revert st.
  induction rest as [|nl2 rest IH]; intros st Hg Hrest Hset; simpl;
    [exact Hg|].
  apply IH; [|intros x Hx; apply Hrest; right; exact Hx|exact Hset].
  apply merge_into_from; [exact Horder|exact Hg| |exact Hset].
  apply Hrest. left.
Qed.

Lemma merge_groups_from (keys : list string) (g : Groups) :
  order_is_permutation ->
  groups_from P Q (group_pairs_by_nl g) ->
  (forall nl, nl ∈ keys -> P nl) ->
  groups_from P Q (group_pairs_by_nl (fst (merge_groups keys g))).
Proof.
  intros Horder. revert g.
  induction keys as [|nl keys IH]; intros g Hg Hkeys; simpl; [exact Hg|].
  apply IH; [|intros x Hx; apply Hkeys; right; exact Hx].
  apply merge_all_from; [exact Horder|exact Hg| |].
  - intros x Hx. apply Hkeys. right. exact Hx.
  - intros t Ht. apply elem_of_dom in Ht.
    exact (groups_from_default _ nl t Hg Ht).
Qed.

Lemma bash_paraphrases_from (g : Groups) (flags : list (string * bool)) :
  groups_from P Q (group_pairs_by_nl g) ->
  (forall flag, flag ∈ flags -> P (fst flag)) ->
  groups_from P Q (bash_paraphrases_of g flags).
Proof.
  intros Hg. unfold bash_paraphrases_of.
  assert (Hgen : forall bp,
    groups_from P Q bp ->
    (forall flag, flag ∈ flags -> P (fst flag)) ->
    groups_from P Q
      (foldl (fun (bp : gmap string (gmap string nat))
                  (flag : string * bool) =>
                if snd flag then bp
                else <[fst flag :=
                         default ∅ (group_pairs_by_nl g !! fst flag)]> bp)
             bp flags)).
  { induction flags as [|flag flags IH]; intros bp Hbp Hflags; simpl;
      [exact Hbp|].
    apply IH; [|intros x Hx; apply Hflags; right; exact Hx].
    destruct (snd flag); [exact Hbp|].
    apply groups_from_insert; [exact Hbp|apply Hflags; left|].
    intros t. apply groups_from_default. exact Hg. }
  apply Hgen. intros nl inner Hl. rewrite lookup_empty in Hl.
  discriminate Hl.
Qed.

Lemma stored_groups_from (nls cms : list string)
    (items : list (string * gmap string nat)) :
  order_is_permutation ->
  (forall p tokens, p ∈ zip nls cms ->
     basic_tokenizer (strip (fst p)) = Some tokens ->
     P (String.concat " " tokens)) ->
  (forall p t, p ∈ zip nls cms ->
     cmd2template (strip (snd p)) = Some t -> Q t) ->
  stored_groups nls cms = Some items ->
  forall item, item ∈ items ->
    P (fst item) /\ forall t, t ∈ group_keys item -> Q t.
Proof.
  intros Horder HP HQ Hitems item Hitem. unfold stored_groups in Hitems.
  destruct (group_pairs _ _) as [g|] eqn:Hgp; [|discriminate Hitems].
  injection Hitems as <-.
  assert (Hg : groups_from P Q (group_pairs_by_nl g)).
  { apply (group_pairs_from _ _ _ HP HQ Hgp). simpl.
    intros nl inner Hl. rewrite lookup_empty in Hl. discriminate Hl. }
  set (keys := order GroupKeys
                 (elements (dom (group_pairs_by_nl g) : gset string))) in *.
  assert (Hkeys : forall nl, nl ∈ keys -> P nl).
  { intros nl Hnl. apply (order_elem _ _ _ Horder) in Hnl.
    apply elem_of_elements, elem_of_dom in Hnl as [inner Hl].
    exact (proj1 (Hg _ _ Hl)). }
  pose proof (merge_groups_from keys g Horder Hg Hkeys) as Hmerged.
  assert (Hbp : groups_from P Q
                  (bash_paraphrases_of (fst (merge_groups keys g))
                                       (snd (merge_groups keys g)))).
  { apply bash_paraphrases_from; [exact Hmerged|].
    intros flag Hflag. apply Hkeys.
    rewrite <- (merge_groups_flags keys g).
    apply list_elem_of_fmap. exists flag. auto. }
  apply elem_of_sorted_by_size, list_elem_of_omap in Hitem
    as (nl & _ & Hnl).
  destruct (bash_paraphrases_of _ _ !! nl) as [cm_temps|] eqn:Hl;
    [|discriminate Hnl].
  injection Hnl as <-. destruct (Hbp _ _ Hl) as [HPnl HQt].
  split; [exact HPnl|]. intros t Ht. unfold group_keys in Ht. simpl in Ht.
  apply (order_elem _ _ _ Horder) in Ht.
  apply elem_of_elements, elem_of_dom in Ht. exact (HQt t Ht).
Qed.

End GroupsFromData.

Section RowsFromData.
Context `{DT : DataTools} `{IO : IterationOrder}.

(** When [extract_rewrites] returns, the sentence of every group it
    stored is the template of a sentence of the data, and both templates
    of every row it added are templates of commands of the data: merging
    groups invents no template. *)
Theorem extract_rewrites_stores_templates_of_the_data
    (file file' : option (list (string * string)))
    (nls cms : list string) (printed : list string)
    (Horder : order_is_permutation)
    (Hrun : extract_rewrites file nls cms = (None, file', printed)) :
  exists new items,
    file' = Some (default [] file ++ new)%list /\
    stored_groups nls cms = Some items /\
    (forall item, item ∈ items -> from_sentences nls (fst item)) /\
    (forall s1 s2, (s1, s2) ∈ new ->
       from_commands cms s1 /\ from_commands cms s2).
Proof.
  destruct (extract_rewrites_returned _ _ _ _ _ Hrun) as [items Hitems].
  rewrite (extract_rewrites_stored file _ _ _ Hitems) in Hrun.
  destruct (store_groups_spec items _ _ (start_open file))
    as (new & (Hf & Hc & Hr) & Hnd & Hnew & Hcov & _ & Hlen).
  injection Hrun as _ Hfile Hout. rewrite Hr in Hfile.
  exists new, items. split; [auto|]. split; [exact Hitems|].
  assert (Hfrom : forall item, item ∈ items ->
    from_sentences nls (fst item) /\
    forall t, t ∈ group_keys item -> from_commands cms t).
  { apply (stored_groups_from (from_sentences nls) (from_commands cms)
             nls cms items Horder); [| |exact Hitems].
    - intros [nl cm] tokens Hp Htok. simpl in Htok.
      exists nl, tokens. split; [|auto].
      apply (elem_of_zip_l _ _ _ _ Hp).
    - intros [nl cm] t Hp Ht. simpl in Ht. exists cm. split; [|exact Ht].
      apply (elem_of_zip_r _ _ _ _ Hp). }
  split; [intros item Hitem; apply Hfrom; exact Hitem|].
  intros s1 s2 Hrow.
  destruct (Hnew _ Hrow) as (_ & _ & item & Hi & _ & H1 & H2).
  simpl in H1, H2. split; apply (Hfrom item Hi); assumption.
Qed.

End RowsFromData.

Lemma extract_rewrites_stores_templates_of_the_data_witness :
  @order_is_permutation RewriteExamples.as_given /\
  @extract_rewrites RewriteExamples.tools RewriteExamples.as_given
    (Some [("ls", "dir")]) RewriteExamples.nls RewriteExamples.cms
  = (None,
     Some [("ls", "dir"); ("find", "find"); ("find", "ls"); ("find", "dir");
           ("ls", "find"); ("ls", "ls"); ("dir", "find"); ("dir", "ls");
           ("dir", "dir")],
     ["list files"; "* find --> find"; "* find --> ls"; "* find --> dir";
      "* ls --> find"; "* ls --> ls"; "* dir --> find"; "* dir --> ls";
      "* dir --> dir"; ""]) /\
  exists new items,
    Some [("ls", "dir"); ("find", "find"); ("find", "ls"); ("find", "dir");
          ("ls", "find"); ("ls", "ls"); ("dir", "find"); ("dir", "ls");
          ("dir", "dir")]
    = Some (default [] (Some [("ls", "dir")]) ++ new)%list /\
    @stored_groups RewriteExamples.tools RewriteExamples.as_given
      RewriteExamples.nls RewriteExamples.cms = Some items /\
    (forall item, item ∈ items ->
       @from_sentences RewriteExamples.tools RewriteExamples.nls (fst item)) /\
    (forall s1 s2, (s1, s2) ∈ new ->
       @from_commands RewriteExamples.tools RewriteExamples.cms s1 /\
       @from_commands RewriteExamples.tools RewriteExamples.cms s2).
Proof.
  assert (Horder : @order_is_permutation RewriteExamples.as_given).
  { intros what keys. reflexivity. }
  split; [exact Horder|]. split; [exact example_extract_run|].
  exact (@extract_rewrites_stores_templates_of_the_data
           RewriteExamples.tools RewriteExamples.as_given
           _ _ _ _ _ Horder example_extract_run).
Defined.

Section OrderOfGroups.
Context `{DT : DataTools} `{IO : IterationOrder}.

Lemma insert_by_size_perm (x : string * gmap string nat)
    (l : list (string * gmap string nat)) :
  insert_by_size x l ≡ₚ x :: l.
Proof.
  induction l as [|y l IH]; simpl; [reflexivity|].
  destruct (Nat.ltb _ _); [|reflexivity].
  rewrite IH. apply Permutation_swap.
Qed.

Lemma sorted_by_size_perm (l : list (string * gmap string nat)) :
  sorted_by_size l ≡ₚ l.
Proof.
  unfold sorted_by_size. induction l as [|x l IH]; simpl; [reflexivity|].
  rewrite insert_by_size_perm, IH. reflexivity.
Qed.

Lemma insert_by_size_sorted (x : string * gmap string nat)
    (l : list (string * gmap string nat)) :
  StronglySorted (fun a b => size (snd b) <= size (snd a))%nat l ->
  StronglySorted (fun a b => size (snd b) <= size (snd a))%nat
                 (insert_by_size x l).
Proof.
  induction l as [|y l IH]; intros Hl; simpl.
  - constructor; constructor.
  - apply StronglySorted_inv in Hl as [Hl Hy].
    destruct (Nat.ltb_spec (size (snd x)) (size (snd y))) as [Hlt|Hge].
    + constructor; [apply IH; exact Hl|].
      apply Forall_forall. intros z Hz.
      apply elem_of_insert_by_size in Hz. destruct Hz as [->|Hz]; [lia|].
      rewrite Forall_forall in Hy. apply Hy. exact Hz.
    + constructor; [constructor; assumption|].
      constructor; [exact Hge|].
      rewrite Forall_forall in Hy. apply Forall_forall. intros z Hz.
      specialize (Hy z Hz). simpl in Hy. lia.
Qed.

Lemma sorted_by_size_sorted (l : list (string * gmap string nat)) :
  StronglySorted (fun a b => size (snd b) <= size (snd a))%nat
                 (sorted_by_size l).
Proof.
  unfold sorted_by_size. induction l as [|x l IH]; simpl; [constructor|].
  apply insert_by_size_sorted. exact IH.
Qed.

Lemma items_names_distinct (bp : gmap string (gmap string nat))
    (keys : list string) :
  NoDup keys ->
  NoDup (fst <$> omap (fun nl => match bp !! nl with
                                 | Some cm_temps => Some (nl, cm_temps)
                                 | None => None
                                 end) keys).
Proof.
  induction keys as [|k keys IH]; intros Hnd; simpl; [constructor|].
  apply NoDup_cons in Hnd as [Hk Hnd].
  destruct (bp !! k) as [v|]; simpl; [|apply IH; exact Hnd].
  constructor; [|apply IH; exact Hnd].
  intros Hin. apply Hk. apply list_elem_of_fmap in Hin as ([a b] & -> & Hin).
  apply list_elem_of_omap in Hin as (nl & Hnl & Heq).
  destruct (bp !! nl); [|discriminate Heq]. injection Heq as <- <-.
  exact Hnl.
Qed.

(** The groups go to the with-block largest first (by number of
    templates), and each sentence at most once: no sentence is printed
    twice. *)
Theorem stored_groups_largest_first (nls cms : list string)
    (items : list (string * gmap string nat))
    (Horder : order_is_permutation)
    (Hitems : stored_groups nls cms = Some items) :
  StronglySorted (fun a b => size (snd b) <= size (snd a))%nat items /\
  NoDup (fst <$> items).
Proof.
  unfold stored_groups in Hitems.
  destruct (group_pairs _ _) as [g|]; [|discriminate Hitems].
  injection Hitems as <-. split; [apply sorted_by_size_sorted|].
  rewrite sorted_by_size_perm. apply items_names_distinct.
  rewrite (Horder Paraphrases _). apply NoDup_elements.
Qed.

End OrderOfGroups.

Lemma example_stored_groups :
  is_Some (@stored_groups RewriteExamples.tools RewriteExamples.as_given
             RewriteExamples.nls RewriteExamples.cms).
Proof.
  destruct (@extract_rewrites_returned
              RewriteExamples.tools RewriteExamples.as_given
              _ _ _ _ _ example_extract_run) as [items Hitems].
  exists items. exact Hitems.
Defined.

Lemma stored_groups_largest_first_witness :
  @order_is_permutation RewriteExamples.as_given /\
  exists items,
    @stored_groups RewriteExamples.tools RewriteExamples.as_given
      RewriteExamples.nls RewriteExamples.cms = Some items /\
    StronglySorted (fun a b => size (snd b) <= size (snd a))%nat items /\
    NoDup (fst <$> items).
Proof.
  assert (Horder : @order_is_permutation RewriteExamples.as_given).
  { intros what keys. reflexivity. }
  split; [exact Horder|].
  destruct example_stored_groups as [items Hitems].
  exists items. split; [exact Hitems|].
  exact (@stored_groups_largest_first
           RewriteExamples.tools RewriteExamples.as_given
           _ _ items Horder Hitems).
Defined.

(** * The ranking *)

Section RankingOrder.
Context `{FO : FloatOps} `{EN : Enumerator}.









End RankingOrder.



(** On numbers with a NaN the scores are comparable as soon as none of
    them is the NaN. *)
Lemma comparable_without_nan (xs : list (option Z)) :
  None ∉ xs -> @comparable WithNaN.ops xs.
Proof.
  intros Hnan.
  assert (Hsome : forall a, a ∈ xs -> exists x, a = Some x).
  { intros [x|] Ha; [eauto|contradiction]. }
  split.
  - intros a b Ha Hb H.
    destruct (Hsome a Ha) as [x ->], (Hsome b Hb) as [y ->]. simpl in *.
    apply Z.ltb_lt in H. apply Z.ltb_ge. lia.
  - intros a b c Ha Hb Hc H1 H2.
    destruct (Hsome a Ha) as [x ->], (Hsome b Hb) as [y ->],
             (Hsome c Hc) as [z ->]. simpl in *.
    apply Z.ltb_ge in H1, H2. apply Z.ltb_ge. lia.
Qed.


(** The lines of the example with the weight -0.5: [ls -l -a] leaves one
    input word uncovered, the other two commands two, and the scores
    1.2, 0.8 and 0.7 become 0.7, -0.2 and -0.3. *)
Example example_ranking_with_penalty :
  map (fun r => (row_command r, row_score r, row_length r,
                 size (row_uncovered r)))
      (rows_of (parse 5 Examples.PPenalty Examples.sentence 50))
  = [("ls -l -a", 70000, 3, 1%nat); ("ls -l", -20000, 2, 2%nat);
     ("ls -a", -30000, 2, 2%nat)].
Proof. vm_compute. reflexivity. Qed.

(** * The words of a printed command *)

Section CommandsOfWords.
Context `{FO : FloatOps} `{EN : Enumerator}.

Lemma for_each_good_in Pc mn mx (body : string -> World -> Outcome unit)
    (items : list string) :
  (forall x w, x ∈ items -> cfg mn mx w -> good Pc mn mx w (body x w)) ->
  forall w, cfg mn mx w -> good Pc mn mx w (for_each body items w).
Proof.
  induction items as [|x rest IH]; intros Hbody w Hcfg; simpl.
  - apply good_returned.
  - pose proof (Hbody x w ltac:(left) Hcfg) as Hx.
    destruct (body x w) as [[] w1| | |] eqn:Hb; try exact Hx.
    destruct (Hx w1 eq_refl) as (evs & Hrun & Hok & Hnr).
    eapply good_after; eauto. apply IH; [|eapply run_cfg; eauto].
    intros y w' Hy. apply Hbody. right. exact Hy.
Qed.

(** The invariant of the traversal once more, for properties of a cell
    that depend on its term: child cells are built on tokens the
    enumerator offers, so a property need only be inherited for those. *)
Lemma dfs_good_offered (Pc : Cell -> Prop) (Ptok : string -> Prop)
    (mn mx : Z) :
  (forall st t, t ∈ legal_tokens st -> Ptok t) ->
  (forall b t ff, Pc b -> expandable mx b -> Ptok t ->
                  Pc (Cell_init t None (Some b) ff)) ->
  forall fuel cell words w,
    cfg mn mx w -> Pc cell -> good Pc mn mx w (dfs fuel cell words w).
Proof.
  intros Hoffered Hclosed.
  induction fuel as [|fuel IH]; intros cell words w Hcfg HPc.
  - intros w' Hw'. discriminate.
  - cbn [dfs].
    destruct (String.eqb_spec (term cell) EOF) as [|He];
      [apply good_returned|].
    destruct (String.eqb_spec (term cell) PIPE) as [|Hp];
      [apply good_returned|].
    destruct (yield_run Pc mn mx cell w Hcfg HPc He Hp)
      as (evs1 & Hrun1 & Hok1 & Hnr1).
    set (w1 := if (_ <? _)%Z && _ then _ else _) in *.
    assert (Hcfg1 : cfg mn mx w1) by (eapply run_cfg; eauto).
    eapply good_after; eauto.
    destruct (Z.eqb_spec (cell_length cell) (max_command_length (self w1)))
      as [|Hmax]; [apply good_returned|].
    assert (Hexp : expandable mx cell).
    { destruct Hcfg1 as [_ <-]. repeat split; assumption. }
    pose proof Hexp as (_ & _ & Hmx).
    set (body := fun t w' =>
           match local_score (self w') t words with
           | inl e => Raised e w'
           | inr fired_features =>
               dfs fuel (Cell_init t None (Some cell) fired_features) words
                 (emit (EvExtend cell
                          (Cell_init t None (Some cell) fired_features)) w')
           end).
    assert (Hloop : forall w2, cfg mn mx w2 ->
      good Pc mn mx w2
        (match for_each body (legal_tokens (enum (self w2))) w2 with
         | Returned _ w3 =>
             if negb (String.eqb
                        (List.last (legal_tokens (enum (self w2)))
                                   (term cell))
                        START_SYMBOL)
             then Returned tt (do_pop cell w3)
             else Returned tt w3
         | o => o
         end)).
    { intros w2 Hcfg2.
      assert (Hfe : good Pc mn mx w2
                      (for_each body (legal_tokens (enum (self w2))) w2)).
      { apply for_each_good_in; [|assumption].
        intros t w' Hin Hcfg'. unfold body.
        destruct (local_score (self w') t words) as [e|ff] eqn:Hls;
          [apply good_raised|].
        eapply good_after
          with (evs := [EvExtend cell (Cell_init t None (Some cell) ff)]).
        - apply run_emit. reflexivity.
        - one_event_ok.
        - repeat constructor.
        - apply IH; [|apply Hclosed; eauto].
          eapply run_cfg; [apply run_emit; reflexivity|assumption]. }
      destruct (for_each body _ w2) as [[] w3| | |]; try exact Hfe.
      destruct (Hfe w3 eq_refl) as (evs3 & Hrun3 & Hok3 & Hnr3).
      match goal with |- good _ _ _ _ (if ?b then _ else _) => destruct b end.
      - eapply good_after; eauto.
        eapply good_after; [apply run_pop| | |apply good_returned].
        + one_event_ok.
        + repeat constructor.
      - eapply good_after; eauto. apply good_returned. }
    destruct (String.eqb_spec (term cell) START_SYMBOL) as [Hs|Hs]; simpl.
    + apply Hloop. assumption.
    + destruct (allows (enum (self w1)) (term cell)).
      * eapply good_after; [apply run_push| | |].
        -- one_event_ok.
        -- repeat constructor.
        -- apply Hloop. eapply run_cfg; [apply run_push|assumption].
      * intros w' [= <-]. exists [EvReject cell].
        split; [apply run_emit; reflexivity|].
        split; [one_event_ok|].
        split; [reflexivity|]. exists [], cell. split; [reflexivity|constructor].
Qed.

Lemma is_word_spec (t : string) :
  is_word t = true <-> t <> "" /\ has_space t = false.
Proof.
  unfold is_word. rewrite andb_true_iff, !negb_true_iff.
  destruct (String.eqb_spec t ""); split; intros [H1 H2]; auto;
    try discriminate H1; contradiction.
Qed.

Lemma string_app_assoc (a b c : string) : (a ++ b) ++ c = a ++ (b ++ c).
Proof.
  induction a as [|x a IH]; [reflexivity|].
  change (String x ((a ++ b) ++ c) = String x (a ++ (b ++ c))).
  f_equal. exact IH.
Qed.

Lemma string_app_nil_r (a : string) : a ++ "" = a.
Proof.
  induction a as [|x a IH]; [reflexivity|].
  change (String x (a ++ "") = String x a). f_equal. exact IH.
Qed.

(** [split] reads a run of characters that are not whitespace into the
    word it is building. *)
Lemma split_ws_from_word (t rest cur : string) :
  has_space t = false ->
  split_ws_from (t ++ rest) cur = split_ws_from rest (cur ++ t).
Proof.
  revert cur. induction t as [|c t IH]; intros cur Ht; simpl.
  - rewrite string_app_nil_r. reflexivity.
  - simpl in Ht. apply orb_false_iff in Ht as [Hc Ht]. rewrite Hc.
    rewrite (IH _ Ht). f_equal.
    exact (string_app_assoc cur (String c "") t).
Qed.

(** Splitting words joined by single spaces gives the words back. *)
Lemma split_ws_concat (toks : list string) :
  Forall (fun t => is_word t = true) toks ->
  split_ws (String.concat " " toks) = toks.
Proof.
  unfold split_ws. induction 1 as [|t toks Ht Htoks IH]; [reflexivity|].
  apply is_word_spec in Ht as [Hne Hsp].
  assert (Hcur : String.eqb t "" = false) by (apply String.eqb_neq; exact Hne).
  destruct toks as [|t2 toks].
  - change (String.concat " " [t]) with t.
    rewrite <- (string_app_nil_r t) at 1.
    rewrite (split_ws_from_word t "" "" Hsp).
    change ("" ++ t) with t. cbn [split_ws_from]. rewrite Hcur.
    reflexivity.
  - change (String.concat " " (t :: t2 :: toks))
      with (t ++ String " " (String.concat " " (t2 :: toks))).
    rewrite (split_ws_from_word t _ "" Hsp).
    change ("" ++ t) with t.
    change (split_ws_from (String " " (String.concat " " (t2 :: toks))) t)
      with (if String.eqb t ""
            then split_ws_from (String.concat " " (t2 :: toks)) ""
            else t :: split_ws_from (String.concat " " (t2 :: toks)) "").
    rewrite Hcur, IH. reflexivity.
Qed.

Lemma tail_app_ne {A : Type} (xs ys : list A) :
  xs <> [] -> List.tail (xs ++ ys)%list = (List.tail xs ++ ys)%list.
Proof. destruct xs; [contradiction|reflexivity]. Qed.

(** The command of a child cell is the command of its backpointer and
    one more token. *)
Lemma genCommand_tokens_extend (b : Cell) (t : string)
    (ff : gmap string float) :
  genCommand_tokens (Cell_init t None (Some b) ff)
  = (genCommand_tokens b ++ [render t])%list.
Proof.
  rewrite !genCommand_tokens_chain.
  rewrite (chain_unfold (Cell_init t None (Some b) ff)).
  cbn [backpointer Cell_init]. cbn [rev]. rewrite !map_app.
  cbn [map term Cell_init]. apply tail_app_ne.
  rewrite (chain_unfold b). cbn [rev]. rewrite !map_app. simpl.
  intros H. apply app_eq_nil in H as [_ H]. discriminate H.
Qed.

(** Every line [parse] prints has the length of its command, when the
    tokens the enumerator offers are words (not empty, no whitespace in
    them): the command printed splits into exactly as many words as the
    length printed beside it; it is these words joined by single spaces;
    each of them is a token the enumerator offers, or the star that
    stands for the hole; and the length is above the minimum command
    length and, the maximum being a number of tokens, at most the
    maximum. *)
Theorem printed_lengths_match_commands
    (fuel : nat) (p : Parser) (sent : string) (top_K : Z)
    (rows : list Row) (w : World) :
  offers_words ->
  parse fuel p sent top_K = Returned rows w ->
  Forall
    (fun r =>
       Z.of_nat (length (split_ws (row_command r))) = row_length r /\
       String.concat " " (split_ws (row_command r)) = row_command r /\
       (forall x, x ∈ split_ws (row_command r) ->
                  x = "*" \/ exists st, x ∈ legal_tokens st) /\
       min_command_length p < row_length r /\
       (0 <= max_command_length p ->
        row_length r <= max_command_length p))
    rows.
Proof.
  intros Hwords Hparse. apply Forall_forall. intros r Hr.
  destruct (ranking_cells _ _ _ _ _ _ _ Hparse Hr) as (c & v & Hc & ->).
  apply parse_returned in Hparse as [Hdfs _].
  set (tok_ok := fun x : string =>
                   is_word x = true /\
                   (x = "*" \/ exists st, x ∈ legal_tokens st)).
  set (Pc := fun c : Cell =>
               constructed c /\
               Forall tok_ok (genCommand_tokens c) /\
               (0 <= max_command_length p ->
                cell_length c <= max_command_length p)).
  set (Ptok := fun t : string =>
                 is_word t = true /\ exists st, t ∈ legal_tokens st).
  assert (Hoffered : forall st t, t ∈ legal_tokens st -> Ptok t).
  { intros st t Ht. split; [exact (Hwords st t Ht)|eauto]. }
  assert (Hclosed : forall b t ff, Pc b ->
            expandable (max_command_length p) b -> Ptok t ->
            Pc (Cell_init t None (Some b) ff)).
  { unfold Pc, Ptok. intros b t ff (Hb & Htoks & Hlen) (_ & _ & Hne)
      [Hw Hst].
    split; [apply constructed_next; assumption|].
    split; [|intros Hmax; specialize (Hlen Hmax); simpl; lia].
    rewrite genCommand_tokens_extend. apply Forall_app. split; [exact Htoks|].
    constructor; [|constructor]. unfold tok_ok, render.
    destruct (String.eqb t HOLE); [split; [reflexivity|left; reflexivity]|].
    split; [exact Hw|right; exact Hst]. }
  assert (Hstart : Pc start_cell).
  { unfold Pc. split; [apply constructed_start|].
    split; [constructor|simpl; lia]. }
  destruct (dfs_good_offered Pc Ptok (min_command_length p)
              (max_command_length p) Hoffered Hclosed fuel start_cell
              (split_ws sent) (initial_world p) (conj eq_refl eq_refl)
              Hstart w ltac:(rewrite Hdfs; reflexivity))
    as (evs & Hrun & Hok & _).
  apply run_initial in Hrun as [_ Hfc]. rewrite Forall_forall in Hok.
  rewrite Hfc in Hc. apply elem_of_recorded in Hc.
  destruct (Hok _ Hc) as ((Hcons & Htoks & Hlen) & _ & _ & Hmin).
  cbn [report row_command row_length]. unfold genCommand.
  rewrite genCommand_tokens_set_score.
  assert (Hsplit : split_ws (String.concat " " (genCommand_tokens c))
                   = genCommand_tokens c).
  { apply split_ws_concat. eapply Forall_impl; [exact Htoks|].
    intros x [Hx _]. exact Hx. }
  rewrite Hsplit. cbn [set_score cell_length].
  split; [apply genCommand_tokens_length; exact Hcons|].
  split; [reflexivity|]. split; [|split; assumption].
  intros x Hx. rewrite Forall_forall in Htoks.
  exact (proj2 (Htoks x Hx)).
Qed.

End CommandsOfWords.

(** The tokens a list grammar offers are words when the tokens of its
    commands are. *)
Lemma list_grammar_offers_words (g : list (list string)) :
  forallb (forallb is_word) g = true ->
  @offers_words (ListGrammar.enumerator g).
Proof.
  intros Hg st t Hin. simpl in Hin.
  apply next_tokens_sound in Hin as [->|(cmd & Hcmd & Ht)]; [reflexivity|].
  rewrite forallb_forall in Hg. apply list_elem_of_In in Hcmd.
  specialize (Hg cmd Hcmd). rewrite forallb_forall in Hg.
  apply Hg. apply list_elem_of_In. exact Ht.
Qed.

Lemma printed_lengths_match_commands_witness :
  @offers_words Examples.E /\
  exists rows,
    parse 5 Examples.P Examples.sentence 50
    = Returned rows Examples.final_world /\
    Forall
      (fun r =>
         Z.of_nat (length (split_ws (row_command r))) = row_length r /\
         String.concat " " (split_ws (row_command r)) = row_command r)
      rows.
Proof.
  assert (Hwords : @offers_words Examples.E).
  { apply list_grammar_offers_words. vm_compute. reflexivity. }
  split; [exact Hwords|].
  destruct example_parse_rows as [rows Hparse]. exists rows.
  split; [exact Hparse|].
  eapply Forall_impl;
    [exact (printed_lengths_match_commands
              (FO := Fixed5.ops) (EN := Examples.E)
              5 Examples.P Examples.sentence 50 rows Examples.final_world
              Hwords Hparse)|].
  intros r (Hlen & Hjoin & _). split; [exact Hlen|exact Hjoin].
Defined.

(** The commands of the example split into as many words as the length
    printed with them. *)
Example example_printed_lengths :
  map (fun r => (split_ws (row_command r), row_length r))
      (rows_of (parse 5 Examples.P Examples.sentence 50))
  = [(["ls"; "-l"; "-a"], 3); (["ls"; "-l"], 2); (["ls"; "-a"], 2)].
Proof. vm_compute. reflexivity. Qed.
